(** * Polyscope core: structure registry, extents, picking, context stack, redraw

    A shallow embedding of [src/polyscope.cpp].  The global variables of the
    translation unit ([state::], [options::], [view::] and the anonymous
    namespace) are gathered in one record [World] that every function takes
    and returns.  Functions that may re-enter the main loop ([pushContext],
    [mainLoopIteration], [draw]) are bounded by a fuel argument and return
    [None] when the fuel runs out or when the C++ program has undefined
    behaviour ([back()] of an empty vector, call of an empty
    [std::function]). *)

From Stdlib Require Import ZArith Floats.SpecFloat.
From stdpp Require Import gmap strings list fin_maps sorting.

Local Open Scope Z_scope.

(** ** IEEE-754 numbers

    [float] is binary32 and [double] is binary64; both are carried by
    [spec_float] and differ in the precision the operations round to.  The
    comparisons [SFltb] and [SFeqb] expect both operands in the canonical
    form of one format, so a [float] meeting a [double] is converted first,
    as in C++. *)

Module F32.
Definition prec : Z := 24.
Definition emax : Z := 128.
Definition of_Z (z : Z) : spec_float := binary_normalize prec emax z 0 false.
Definition add := SFadd prec emax.
Definition sub := SFsub prec emax.
Definition mul := SFmul prec emax.
Definition div := SFdiv prec emax.
Definition sqrt := SFsqrt prec emax.
Definition opp := SFopp.
Definition abs := SFabs.
Definition infinity : spec_float := S754_infinity false.
End F32.

Module F64.
Definition prec : Z := 53.
Definition emax : Z := 1024.
Definition of_Z (z : Z) : spec_float := binary_normalize prec emax z 0 false.
Definition add := SFadd prec emax.
Definition mul := SFmul prec emax.
Definition div := SFdiv prec emax.
Definition sqrt := SFsqrt prec emax.
(** The implicit conversion [float -> double]: exact, only the
    representation is renormalised. *)
Definition of_float (x : spec_float) : spec_float :=
  match x with
  | S754_finite s m e => binary_normalize prec emax (cond_Zopp s (Zpos m)) e s
  | _ => x
  end.
End F64.

(** [std::isfinite]. *)
Definition isfinite (x : spec_float) : bool :=
  match x with
  | S754_zero _ | S754_finite _ _ _ => true
  | S754_infinity _ | S754_nan => false
  end.

(** [std::max(a, b)] is [(a < b) ? b : a] and [std::min(a, b)] is
    [(b < a) ? b : a]. *)
Definition std_max (a b : spec_float) : spec_float := if SFltb a b then b else a.
Definition std_min (a b : spec_float) : spec_float := if SFltb b a then b else a.

(** ** glm::vec3 *)

Record vec3 : Type := Vec3 { vx : spec_float; vy : spec_float; vz : spec_float }.

Module glm.
Definition ones : vec3 := Vec3 (F32.of_Z 1) (F32.of_Z 1) (F32.of_Z 1).
(** [scalar * v] and [v * scalar]. *)
Definition mul_sv (c : spec_float) (v : vec3) : vec3 :=
  Vec3 (F32.mul c (vx v)) (F32.mul c (vy v)) (F32.mul c (vz v)).
Definition mul_vs (v : vec3) (c : spec_float) : vec3 :=
  Vec3 (F32.mul (vx v) c) (F32.mul (vy v) c) (F32.mul (vz v) c).
Definition neg (v : vec3) : vec3 := Vec3 (F32.opp (vx v)) (F32.opp (vy v)) (F32.opp (vz v)).
Definition add (a b : vec3) : vec3 :=
  Vec3 (F32.add (vx a) (vx b)) (F32.add (vy a) (vy b)) (F32.add (vz a) (vz b)).
Definition sub (a b : vec3) : vec3 :=
  Vec3 (F32.sub (vx a) (vx b)) (F32.sub (vy a) (vy b)) (F32.sub (vz a) (vz b)).
Definition dot (a b : vec3) : spec_float :=
  F32.add (F32.add (F32.mul (vx a) (vx b)) (F32.mul (vy a) (vy b))) (F32.mul (vz a) (vz b)).
(** [glm::length(v)] is [sqrt(dot(v, v))]. *)
Definition length (v : vec3) : spec_float := F32.sqrt (dot v v).
End glm.

(** Modelled from the spec: [componentwiseMin] on [glm::vec3] is declared in a
    header outside this file; the spec has the box folded by component-wise
    min, taken here as [std::min] on each component. *)
Definition componentwiseMin (a b : vec3) : vec3 :=
  Vec3 (std_min (vx a) (vx b)) (std_min (vy a) (vy b)) (std_min (vz a) (vz b)).

(** Modelled from the spec: [componentwiseMax], declared next to
    [componentwiseMin], is the component-wise max, [std::max] on each
    component. *)
Definition componentwiseMax (a b : vec3) : vec3 :=
  Vec3 (std_max (vx a) (vx b)) (std_max (vy a) (vy b)) (std_max (vz a) (vz b)).

(** Modelled from the spec: [isFinite] on [glm::vec3], declared in the same
    header, tells whether a box corner is finite: every component is. *)
Definition isFinite (v : vec3) : bool :=
  isfinite (vx v) && isfinite (vy v) && isfinite (vz v).

(** ** Structures

    A [Structure*] is the address of the object together with what the core
    reads through it: the immutable [type] and [name], and the values its
    virtual [lengthScale()] and [boundingBox()] report. Pointer comparison is
    comparison of [addr]. *)

Record Structure : Type := {
  addr : positive;
  type : string;
  name : string;
  lengthScale : spec_float;
  boundingBox : vec3 * vec3;
}.

(** ** Pick state *)

(** Modelled from the spec: pick.h is outside this file; the spec has the
    pick state be [NoSelection] or [Selected structure localIndex
    isDoubleClick], the structure held as a weak reference. *)
Inductive PickState : Type :=
| NoSelection
| Selected (s : Structure) (localIndex : N) (isDoubleClick : bool).

(** ** Callbacks

    A [std::function<void()>] handed to the core is a closure over the public
    API.  Its body is a sequence of API calls; [IfButton id body] is an
    immediate-mode widget guard [if (ImGui::Button(..)) { body }], taken when
    the current frame reports widget [id] as clicked.  An empty
    [std::function] is [None]. *)
#[warnings="-register-all"]
Inductive Callback : Type :=
| Return
| CallPopContext (k : Callback)
| CallPushContext (cb : option Callback) (k : Callback)
| CallRequestRedraw (k : Callback)
| CallRegisterStructure (s : Structure) (replaceIfPresent : bool) (k : Callback)
| CallRemoveStructure (ty nm : string) (errorIfAbsent : bool) (k : Callback)
| CallRemoveStructureByName (nm : string) (k : Callback)
| CallRemoveAllStructures (k : Callback)
| IfButton (id : nat) (body : Callback) (k : Callback).

Record ContextEntry : Type := {
  context : nat;                   (* ImGuiContext* *)
  callback : option Callback;
}.

(** ** What one iteration reads from the outside world

    The window system, the GUI layer and the pick framebuffer are external;
    one [FrameInput] holds everything a single [mainLoopIteration] reads from
    them. *)
Record FrameInput : Type := {
  newBufferWidth : Z;  newBufferHeight : Z;     (* glfwGetFramebufferSize *)
  newWindowWidth : Z;  newWindowHeight : Z;     (* glfwGetWindowSize *)
  anyMouseDown : bool;                          (* ImGui::IsAnyMouseDown() *)
  wantCaptureMouse : bool;                      (* io.WantCaptureMouse *)
  mouseWheelH : spec_float;  mouseWheel : spec_float;
  mouseClicked : bool;                          (* ImGui::IsMouseClicked(0) *)
  mouseDoubleClicked : bool;                    (* ImGui::IsMouseDoubleClicked(0) *)
  mouseDragging : bool;                         (* ImGui::IsMouseDragging(0) *)
  keyCtrl : bool;  keyShift : bool;
  mouseDeltaX : spec_float;  mouseDeltaY : spec_float;
  pointerX : Z;  pointerY : Z;                  (* the ints passed to evaluatePickQuery *)
  pickIndex : Z -> Z -> N;                      (* vecToInd of the pixel read back at (x, y) *)
  screenshotClicked : bool;                     (* ImGui::Button("Screenshot") *)
  clicked : list nat;                           (* widgets of callbacks reported clicked *)
}.

Definition idleFrame (w h ww wh : Z) : FrameInput := {|
  newBufferWidth := w; newBufferHeight := h; newWindowWidth := ww; newWindowHeight := wh;
  anyMouseDown := false; wantCaptureMouse := true;
  mouseWheelH := S754_zero false; mouseWheel := S754_zero false;
  mouseClicked := false; mouseDoubleClicked := false; mouseDragging := false;
  keyCtrl := false; keyShift := false;
  mouseDeltaX := S754_zero false; mouseDeltaY := S754_zero false;
  pointerX := 0; pointerY := 0; pickIndex := fun _ _ => 0%N;
  screenshotClicked := false; clicked := [];
|}.

(** ** Observable events, in program order (most recent last). *)
Inductive Event : Type :=
| EvError (msg : string)            (* polyscope::error(msg) *)
| EvIteration (depth : nat)         (* mainLoopIteration entered, context stack size *)
| EvCallback (depth : nat)          (* top-of-stack callback invoked by draw *)
| EvDrawStructures                  (* drawStructures(): the scene is rasterized *)
| EvDelete (a : positive)           (* delete s *)
| EvCreateContext (c : nat)         (* ImGui::CreateContext *)
| EvDestroyContext (c : nat).       (* ImGui::DestroyContext *)

(** ** The global state *)

Record Extents : Type := {
  ext_lengthScale : spec_float;           (* state::lengthScale, a double *)
  ext_boundingBox : vec3 * vec3;          (* state::boundingBox *)
  ext_center : vec3;                      (* state::center *)
}.

Record View : Type := {
  bufferWidth : Z; bufferHeight : Z; windowWidth : Z; windowHeight : Z;
}.

Record World : Type := {
  structures : gmap string (gmap string Structure);   (* state::structures *)
  extents : Extents;
  userCallback : option Callback;                     (* state::userCallback *)
  screenshotInd : N;                                  (* state::screenshotInd *)
  alwaysRedraw : bool;                                (* options::alwaysRedraw *)
  contextStack : list ContextEntry;                   (* bottom first, back() last *)
  redrawNextFrame : bool;
  lastClickWasDouble : bool;
  dragDistSinceLastRelease : spec_float;              (* a float *)
  view : View;
  pickState : PickState;                              (* pick:: selection *)
  alwaysEvaluatePick : bool;                          (* pick::alwaysEvaluatePick *)
  pickTable : N -> Structure * N;                     (* index -> (structure, localIndex) *)
  currentContext : nat;                               (* ImGui::GetCurrentContext() *)
  nextContext : nat;                                  (* next handle CreateContext returns *)
  frame : FrameInput;                                 (* what the last poll delivered *)
  inputs : list FrameInput;                           (* frames still to come *)
  trace : list Event;
}.

(** Assignment to one global, the others unchanged. *)
Definition set_structures (x : gmap string (gmap string Structure)) (w : World) : World :=
  {| structures := x; extents := extents w; userCallback := userCallback w;
     screenshotInd := screenshotInd w; alwaysRedraw := alwaysRedraw w;
     contextStack := contextStack w; redrawNextFrame := redrawNextFrame w;
     lastClickWasDouble := lastClickWasDouble w;
     dragDistSinceLastRelease := dragDistSinceLastRelease w; view := view w;
     pickState := pickState w; alwaysEvaluatePick := alwaysEvaluatePick w;
     pickTable := pickTable w; currentContext := currentContext w;
     nextContext := nextContext w; frame := frame w; inputs := inputs w; trace := trace w |}.
Definition set_extents (x : Extents) (w : World) : World :=
  {| structures := structures w; extents := x; userCallback := userCallback w;
     screenshotInd := screenshotInd w; alwaysRedraw := alwaysRedraw w;
     contextStack := contextStack w; redrawNextFrame := redrawNextFrame w;
     lastClickWasDouble := lastClickWasDouble w;
     dragDistSinceLastRelease := dragDistSinceLastRelease w; view := view w;
     pickState := pickState w; alwaysEvaluatePick := alwaysEvaluatePick w;
     pickTable := pickTable w; currentContext := currentContext w;
     nextContext := nextContext w; frame := frame w; inputs := inputs w; trace := trace w |}.
Definition set_screenshotInd (x : N) (w : World) : World :=
  {| structures := structures w; extents := extents w; userCallback := userCallback w;
     screenshotInd := x; alwaysRedraw := alwaysRedraw w; contextStack := contextStack w;
     redrawNextFrame := redrawNextFrame w; lastClickWasDouble := lastClickWasDouble w;
     dragDistSinceLastRelease := dragDistSinceLastRelease w; view := view w;
     pickState := pickState w; alwaysEvaluatePick := alwaysEvaluatePick w;
     pickTable := pickTable w; currentContext := currentContext w;
     nextContext := nextContext w; frame := frame w; inputs := inputs w; trace := trace w |}.
Definition set_contextStack (x : list ContextEntry) (w : World) : World :=
  {| structures := structures w; extents := extents w; userCallback := userCallback w;
     screenshotInd := screenshotInd w; alwaysRedraw := alwaysRedraw w; contextStack := x;
     redrawNextFrame := redrawNextFrame w; lastClickWasDouble := lastClickWasDouble w;
     dragDistSinceLastRelease := dragDistSinceLastRelease w; view := view w;
     pickState := pickState w; alwaysEvaluatePick := alwaysEvaluatePick w;
     pickTable := pickTable w; currentContext := currentContext w;
     nextContext := nextContext w; frame := frame w; inputs := inputs w; trace := trace w |}.
Definition set_redrawNextFrame (x : bool) (w : World) : World :=
  {| structures := structures w; extents := extents w; userCallback := userCallback w;
     screenshotInd := screenshotInd w; alwaysRedraw := alwaysRedraw w;
     contextStack := contextStack w; redrawNextFrame := x;
     lastClickWasDouble := lastClickWasDouble w;
     dragDistSinceLastRelease := dragDistSinceLastRelease w; view := view w;
     pickState := pickState w; alwaysEvaluatePick := alwaysEvaluatePick w;
     pickTable := pickTable w; currentContext := currentContext w;
     nextContext := nextContext w; frame := frame w; inputs := inputs w; trace := trace w |}.
Definition set_lastClickWasDouble (x : bool) (w : World) : World :=
  {| structures := structures w; extents := extents w; userCallback := userCallback w;
     screenshotInd := screenshotInd w; alwaysRedraw := alwaysRedraw w;
     contextStack := contextStack w; redrawNextFrame := redrawNextFrame w;
     lastClickWasDouble := x; dragDistSinceLastRelease := dragDistSinceLastRelease w;
     view := view w; pickState := pickState w; alwaysEvaluatePick := alwaysEvaluatePick w;
     pickTable := pickTable w; currentContext := currentContext w;
     nextContext := nextContext w; frame := frame w; inputs := inputs w; trace := trace w |}.
Definition set_dragDistSinceLastRelease (x : spec_float) (w : World) : World :=
  {| structures := structures w; extents := extents w; userCallback := userCallback w;
     screenshotInd := screenshotInd w; alwaysRedraw := alwaysRedraw w;
     contextStack := contextStack w; redrawNextFrame := redrawNextFrame w;
     lastClickWasDouble := lastClickWasDouble w; dragDistSinceLastRelease := x; view := view w;
     pickState := pickState w; alwaysEvaluatePick := alwaysEvaluatePick w;
     pickTable := pickTable w; currentContext := currentContext w;
     nextContext := nextContext w; frame := frame w; inputs := inputs w; trace := trace w |}.
Definition set_view (x : View) (w : World) : World :=
  {| structures := structures w; extents := extents w; userCallback := userCallback w;
     screenshotInd := screenshotInd w; alwaysRedraw := alwaysRedraw w;
     contextStack := contextStack w; redrawNextFrame := redrawNextFrame w;
     lastClickWasDouble := lastClickWasDouble w;
     dragDistSinceLastRelease := dragDistSinceLastRelease w; view := x;
     pickState := pickState w; alwaysEvaluatePick := alwaysEvaluatePick w;
     pickTable := pickTable w; currentContext := currentContext w;
     nextContext := nextContext w; frame := frame w; inputs := inputs w; trace := trace w |}.
Definition set_pickState (x : PickState) (w : World) : World :=
  {| structures := structures w; extents := extents w; userCallback := userCallback w;
     screenshotInd := screenshotInd w; alwaysRedraw := alwaysRedraw w;
     contextStack := contextStack w; redrawNextFrame := redrawNextFrame w;
     lastClickWasDouble := lastClickWasDouble w;
     dragDistSinceLastRelease := dragDistSinceLastRelease w; view := view w; pickState := x;
     alwaysEvaluatePick := alwaysEvaluatePick w; pickTable := pickTable w;
     currentContext := currentContext w; nextContext := nextContext w; frame := frame w;
     inputs := inputs w; trace := trace w |}.
Definition set_currentContext (x : nat) (w : World) : World :=
  {| structures := structures w; extents := extents w; userCallback := userCallback w;
     screenshotInd := screenshotInd w; alwaysRedraw := alwaysRedraw w;
     contextStack := contextStack w; redrawNextFrame := redrawNextFrame w;
     lastClickWasDouble := lastClickWasDouble w;
     dragDistSinceLastRelease := dragDistSinceLastRelease w; view := view w;
     pickState := pickState w; alwaysEvaluatePick := alwaysEvaluatePick w;
     pickTable := pickTable w; currentContext := x; nextContext := nextContext w;
     frame := frame w; inputs := inputs w; trace := trace w |}.
Definition set_nextContext (x : nat) (w : World) : World :=
  {| structures := structures w; extents := extents w; userCallback := userCallback w;
     screenshotInd := screenshotInd w; alwaysRedraw := alwaysRedraw w;
     contextStack := contextStack w; redrawNextFrame := redrawNextFrame w;
     lastClickWasDouble := lastClickWasDouble w;
     dragDistSinceLastRelease := dragDistSinceLastRelease w; view := view w;
     pickState := pickState w; alwaysEvaluatePick := alwaysEvaluatePick w;
     pickTable := pickTable w; currentContext := currentContext w; nextContext := x;
     frame := frame w; inputs := inputs w; trace := trace w |}.
Definition set_frame (x : FrameInput) (w : World) : World :=
  {| structures := structures w; extents := extents w; userCallback := userCallback w;
     screenshotInd := screenshotInd w; alwaysRedraw := alwaysRedraw w;
     contextStack := contextStack w; redrawNextFrame := redrawNextFrame w;
     lastClickWasDouble := lastClickWasDouble w;
     dragDistSinceLastRelease := dragDistSinceLastRelease w; view := view w;
     pickState := pickState w; alwaysEvaluatePick := alwaysEvaluatePick w;
     pickTable := pickTable w; currentContext := currentContext w;
     nextContext := nextContext w; frame := x; inputs := inputs w; trace := trace w |}.
Definition set_inputs (x : list FrameInput) (w : World) : World :=
  {| structures := structures w; extents := extents w; userCallback := userCallback w;
     screenshotInd := screenshotInd w; alwaysRedraw := alwaysRedraw w;
     contextStack := contextStack w; redrawNextFrame := redrawNextFrame w;
     lastClickWasDouble := lastClickWasDouble w;
     dragDistSinceLastRelease := dragDistSinceLastRelease w; view := view w;
     pickState := pickState w; alwaysEvaluatePick := alwaysEvaluatePick w;
     pickTable := pickTable w; currentContext := currentContext w;
     nextContext := nextContext w; frame := frame w; inputs := x; trace := trace w |}.
Definition set_trace (x : list Event) (w : World) : World :=
  {| structures := structures w; extents := extents w; userCallback := userCallback w;
     screenshotInd := screenshotInd w; alwaysRedraw := alwaysRedraw w;
     contextStack := contextStack w; redrawNextFrame := redrawNextFrame w;
     lastClickWasDouble := lastClickWasDouble w;
     dragDistSinceLastRelease := dragDistSinceLastRelease w; view := view w;
     pickState := pickState w; alwaysEvaluatePick := alwaysEvaluatePick w;
     pickTable := pickTable w; currentContext := currentContext w;
     nextContext := nextContext w; frame := frame w; inputs := inputs w; trace := x |}.

(** ** Error channel and redraw flag *)

(** Modelled from the spec: [polyscope::error] is defined outside this file;
    the spec describes it as a non-fatal reporting channel, after which the
    caller goes on. Here it records the message. *)
Definition error (msg : string) (w : World) : World :=
  set_trace (trace w ++ [EvError msg]) w.

Definition requestRedraw (w : World) : World := set_redrawNextFrame true w.

(** [delete s]. *)
Definition delete_structure (s : Structure) (w : World) : World :=
  set_trace (trace w ++ [EvDelete (addr s)]) w.

(** ** Iteration over a [std::map<std::string, V>]

    A range-for visits the entries in ascending key order; [String.leb]
    orders strings by character code, as [operator<] of [std::string] does. *)

Definition key_le {V} (a b : string * V) : Prop := String.leb a.1 b.1 = true.

#[global] Instance key_le_dec {V} (a b : string * V) : Decision (key_le a b).
Proof. unfold key_le. apply _. Defined.

Definition entries {V} (m : gmap string V) : list (string * V) :=
  merge_sort key_le (map_to_list m).

(** [state::structures[type][name]], when both keys are present. *)
Definition findStructure (ty nm : string) (w : World) : option Structure :=
  structures w !! ty ≫= fun sMap => sMap !! nm.

(** ** Pick selection (namespace pick) *)

Module pick.

(** Modelled from the spec: [resetPick] lives in pick.cpp, outside this file;
    the spec has it go to NoSelection. *)
Definition resetPick (w : World) : World := set_pickState NoSelection w.

(** Modelled from the spec: [setCurrentPickElement], in pick.cpp, resolves a
    nonzero index through the global index table and goes to Selected,
    carrying the double-click flag. *)
Definition setCurrentPickElement (ind : N) (wasDoubleClick : bool) (w : World) : World :=
  let '(s, localInd) := pickTable w ind in
  set_pickState (Selected s localInd wasDoubleClick) w.

(** Modelled from the spec: [clearPickIfStructureSelected], in pick.cpp,
    invalidates the selection when it refers to the structure given. *)
Definition clearPickIfStructureSelected (s : Structure) (w : World) : World :=
  match pickState w with
  | Selected s' _ _ => if decide (addr s' = addr s) then resetPick w else w
  | NoSelection => w
  end.

Definition evaluatePickQuery (xPos yPos : Z) (w : World) : World :=
  (* Be sure not to pick outside of buffer *)
  if (xPos <? 0) || (xPos >=? bufferWidth (view w)) ||
     (yPos <? 0) || (yPos >=? bufferHeight (view w))
  then w
  else
    (* render the pick buffer, read one pixel back, decode it *)
    let ind := pickIndex (frame w) xPos (bufferHeight (view w) - yPos) in
    if (ind =? 0)%N then resetPick w
    else setCurrentPickElement ind (lastClickWasDouble w) w.

End pick.

(** ** Extents *)

Definition half : spec_float := F32.div (F32.of_Z 1) (F32.of_Z 2).   (* 0.5f *)

(** Body of the inner loop of [updateStructureExtents]: the three running
    values are [state::lengthScale], [minBbox] and [maxBbox]. *)
Definition extentsStep (acc : spec_float * vec3 * vec3) (x : string * Structure)
  : spec_float * vec3 * vec3 :=
  let '(ls, minBbox, maxBbox) := acc in
  let bbox := boundingBox x.2 in
  (std_max ls (lengthScale x.2),
   componentwiseMin minBbox bbox.1,
   componentwiseMax maxBbox bbox.2).

Definition extentsLoop (reg : gmap string (gmap string Structure))
  (acc : spec_float * vec3 * vec3) : spec_float * vec3 * vec3 :=
  foldl (fun acc cat => foldl extentsStep acc (entries cat.2)) acc (entries reg).

Definition updateStructureExtents (w : World) : World :=
  (* Compute length scale and bbox as the max of all structures *)
  let ls0 := F64.of_Z 0 in
  let minBbox0 := glm.mul_vs glm.ones F32.infinity in
  let maxBbox0 := glm.mul_vs (glm.neg glm.ones) F32.infinity in
  let '(ls, minBbox, maxBbox) := extentsLoop (structures w) (ls0, minBbox0, maxBbox0) in
  let '(minBbox, maxBbox) :=
    if negb (isFinite minBbox) || negb (isFinite maxBbox)
    then (glm.neg glm.ones, glm.ones)
    else (minBbox, maxBbox) in
  (* If we got a bounding box but not a length scale we can use the size of
     the box as a scale *)
  let ls :=
    if SFeqb ls (F64.of_Z 0)
    then F64.of_float (glm.length (glm.sub maxBbox minBbox))
    else ls in
  (* Center is center of bounding box *)
  set_extents {| ext_lengthScale := ls;
                 ext_boundingBox := (minBbox, maxBbox);
                 ext_center := glm.mul_sv half (glm.add minBbox maxBbox) |} w.

(** ** Removal *)

Definition removeStructure (ty nm : string) (errorIfAbsent : bool) (w : World) : World :=
  match structures w !! ty with
  | None =>
      (* If there are no structures of that type it is an automatic fail *)
      if errorIfAbsent
      then error ("No structures of type " +:+ ty +:+ " registered") w
      else w
  | Some sMap =>
      match sMap !! nm with
      | None =>
          if errorIfAbsent
          then error ("No structure of type " +:+ ty +:+ " and name " +:+ nm +:+ " registered") w
          else w
      | Some s =>
          (* Structure exists, remove it *)
          let w := pick.clearPickIfStructureSelected s w in
          let w := set_structures (<[ty := delete (name s) sMap]> (structures w)) w in
          let w := delete_structure s w in
          updateStructureExtents w
      end
  end.

Definition ambiguousMsg (t1 t2 : string) : string :=
  "Cannot use automatic structure remove with empty name unless there is exactly one structure of that "
  +:+ "type registered. Found two structures of different types with that name: "
  +:+ t1 +:+ " and " +:+ t2 +:+ ".".

Definition notFoundMsg (nm : string) : string :=
  "No structure named: " +:+ nm +:+ " to remove.".

(** The search loops of [removeStructure(name)].  [inl msg] is the early
    [error(msg); return;], [inr targetStruct] is falling out of the loop. *)
Fixpoint scanEntries (nm tyKey : string) (l : list (string * Structure))
  (targetStruct : option Structure) : string + option Structure :=
  match l with
  | [] => inr targetStruct
  | entry :: rest =>
      if decide (entry.1 = nm) then
        match targetStruct with
        | None => scanEntries nm tyKey rest (Some entry.2)
        | Some t => inl (ambiguousMsg (type t) tyKey)
        end
      else scanEntries nm tyKey rest targetStruct
  end.

Fixpoint scanTypes (nm : string) (l : list (string * gmap string Structure))
  (targetStruct : option Structure) : string + option Structure :=
  match l with
  | [] => inr targetStruct
  | typeMap :: rest =>
      match scanEntries nm typeMap.1 (entries typeMap.2) targetStruct with
      | inl msg => inl msg
      | inr t => scanTypes nm rest t
      end
  end.

(** Modelled from the spec: the default [errorIfAbsent = true] is given in
    the header, outside this file. *)
Definition errorIfAbsent_default : bool := true.

(** [removeStructure(std::string name)], the type-inferred overload. *)
Definition removeStructure_name (nm : string) (w : World) : World :=
  match scanTypes nm (entries (structures w)) None with
  | inl msg => error msg w
  | inr None => error (notFoundMsg nm) w
  | inr (Some targetStruct) =>
      requestRedraw (removeStructure (type targetStruct) (name targetStruct)
                                     errorIfAbsent_default w)
  end.

(** The outer loop walks the live map, whose key set no removal changes; the
    names of one type are copied before any of them is removed. *)
Definition removeAllStructures (w : World) : World :=
  let w :=
    foldl (fun w ty =>
             let names := (entries (default ∅ (structures w !! ty))).*1 in
             foldl (fun w nm => removeStructure ty nm errorIfAbsent_default w) w names)
          w (entries (structures w)).*1 in
  pick.resetPick (requestRedraw w).

(** ** Registration *)

Definition duplicateMsg (nm : string) : string :=
  "Attempted to register structure with name " +:+ nm +:+
  ", but a structure with that name already exists".

Definition registerStructure (s : Structure) (replaceIfPresent : bool) (w : World)
  : bool * World :=
  (* Make sure a map for the type exists *)
  let w := match structures w !! type s with
           | None => set_structures (<[type s := ∅]> (structures w)) w
           | Some _ => w
           end in
  (* [sMap] is a reference into the registry: it is read where it is used *)
  let sMap (w : World) := default ∅ (structures w !! type s) in
  (* Add the new structure *)
  let install (w : World) :=
    let w := set_structures (<[type s := <[name s := s]> (sMap w)]> (structures w)) w in
    (true, requestRedraw (updateStructureExtents w)) in
  (* Check if the structure name is in use *)
  match sMap w !! name s with
  | Some _ =>
      if replaceIfPresent
      then install (removeStructure_name (name s) w)
      else (false, error (duplicateMsg (name s)) w)
  | None => install w
  end.

(** Modelled from the spec: the header, outside this file, gives
    [registerStructure] the default [replaceIfPresent = false]. *)
Definition replaceIfPresent_default : bool := false.

(** Modelled from the spec: the structure classes are defined outside this
    file.  The data a wrapper hands to a constructor (points, mesh, camera,
    rays) matters to the core only through the extents the structure will
    report. *)
Record Geometry : Type := {
  geo_lengthScale : spec_float;
  geo_boundingBox : vec3 * vec3;
}.

(** Modelled from the spec: [construct ty a nm data] is the object
    [new T(name, data)] yields at address [a]: its type tag is
    [T::structureTypeName], its name the one given, and [data] determines what
    [lengthScale()] and [boundingBox()] report. *)
Definition construct (ty : string) (a : positive) (nm : string) (data : Geometry) : Structure :=
  {| addr := a; type := ty; name := nm;
     lengthScale := geo_lengthScale data; boundingBox := geo_boundingBox data |}.

(** Modelled from the spec: the four type tags [T::structureTypeName] are
    defined with the structure classes; any four distinct strings serve. *)
Definition PointCloud_structureTypeName : string := "Point Cloud".
Definition SurfaceMesh_structureTypeName : string := "Surface Mesh".
Definition CameraView_structureTypeName : string := "Camera View".
Definition RaySet_structureTypeName : string := "Ray Set".

(** The four typed wrappers have one body, up to the class constructed;
    [a] is the address [new] returns. *)
Definition registerTyped (ty : string) (a : positive) (nm : string) (data : Geometry)
  (replaceIfPresent : bool) (w : World) : World :=
  let s := construct ty a nm data in
  let '(success, w) := registerStructure s replaceIfPresent_default w in
  if success then w else delete_structure s w.

Definition registerPointCloud := registerTyped PointCloud_structureTypeName.
Definition registerSurfaceMesh := registerTyped SurfaceMesh_structureTypeName.
Definition registerCameraView := registerTyped CameraView_structureTypeName.
Definition registerRaySet := registerTyped RaySet_structureTypeName.

(** ** The context stack *)

Definition tooManyPopsMsg : string := "Called popContext() too many times".

(** [pop_back()] of an empty vector is undefined: [None]. *)
Definition pop_back {A} (v : list A) : option (list A) :=
  match v with
  | [] => None
  | _ => Some (removelast v)
  end.

Definition popContext (w : World) : option World :=
  let w := if (length (contextStack w) =? 1)%nat then error tooManyPopsMsg w else w in
  v ← pop_back (contextStack w);
  Some (set_contextStack v w).

(** The [while] loop of [pushContext]: at most [n] turns of [iter]. *)
Fixpoint pushLoop (iter : World -> option World) (n : nat)
  (currentContextStackSize : nat) (w : World) : option World :=
  if (currentContextStackSize <=? length (contextStack w))%nat then
    match n with
    | O => None
    | S n' =>
        w ← iter w;
        pushLoop iter n' currentContextStackSize w
    end
  else Some w.

(** [pushContext], with [mainLoopIteration] passed in as [iter]. *)
Definition pushContextG (iter : World -> option World) (n : nat)
  (callbackFunction : option Callback) (w : World) : option World :=
  (* Create a new context and push it on to the stack *)
  let newContext := nextContext w in
  let w := set_nextContext (S newContext) w in
  let w := set_trace (trace w ++ [EvCreateContext newContext]) w in
  let w := set_currentContext newContext w in
  let w := set_contextStack
             (contextStack w ++ [{| context := newContext; callback := callbackFunction |}]) w in
  (* Re-enter main loop until the context has been popped *)
  let currentContextStackSize := length (contextStack w) in
  w ← pushLoop iter n currentContextStackSize w;
  let w := set_trace (trace w ++ [EvDestroyContext newContext]) w in
  e ← last (contextStack w);
  Some (set_currentContext (context e) w).

(** Execution of a callback body; [push] is [pushContext]. *)
Fixpoint runCallback (push : option Callback -> World -> option World)
  (cb : Callback) (w : World) : option World :=
  match cb with
  | Return => Some w
  | CallPopContext k => w ← popContext w; runCallback push k w
  | CallPushContext cb' k => w ← push cb' w; runCallback push k w
  | CallRequestRedraw k => runCallback push k (requestRedraw w)
  | CallRegisterStructure s replaceIfPresent k =>
      runCallback push k (registerStructure s replaceIfPresent w).2
  | CallRemoveStructure ty nm errorIfAbsent k =>
      runCallback push k (removeStructure ty nm errorIfAbsent w)
  | CallRemoveStructureByName nm k => runCallback push k (removeStructure_name nm w)
  | CallRemoveAllStructures k => runCallback push k (removeAllStructures w)
  | IfButton id body k =>
      if bool_decide (id ∈ clicked (frame w))
      then w ← runCallback push body w; runCallback push k w
      else runCallback push k w
  end.

(** ** Drawing *)

Definition drawStructures (w : World) : World :=
  set_trace (trace w ++ [EvDrawStructures]) w.

(** The part of [draw] after the GUI has been built: draw structures in the
    scene if a redraw is due, then composite. *)
Definition drawScene (w : World) : World :=
  if redrawNextFrame w || alwaysRedraw w
  then set_redrawNextFrame false (drawStructures w)
  else w.

(** [screenshot(transparentBG)]; it calls [draw(false)], which builds no GUI
    and so is [drawScene].  [state::screenshotInd] is a [size_t]: the
    increment wraps around at 2^64. *)
Definition screenshot (w : World) : World :=
  let w := requestRedraw w in
  let w := drawScene w in
  set_screenshotInd ((screenshotInd w + 1) mod 2 ^ 64)%N w.

Definition buildUserGui (push : option Callback -> World -> option World)
  (w : World) : option World :=
  match userCallback w with
  | Some cb => runCallback push cb w
  | None => Some w
  end.

Definition buildPolyscopeGui (w : World) : World :=
  if screenshotClicked (frame w) then screenshot w else w.

(** [draw(withUI)].  [buildStructureGui] and [buildPickGui] only call the
    structures' own UI methods, which are outside this file and are taken not
    to touch the state kept here; the GL and ImGui calls leave no mark
    either. *)
Definition draw (push : option Callback -> World -> option World)
  (withUI : bool) (w : World) : option World :=
  w ← (if withUI then
         (* The common case, rendering UI and structures *)
         if (length (contextStack w) =? 1)%nat then
           w ← buildUserGui push w;
           Some (buildPolyscopeGui w)
         (* If there is a popup UI active, only draw that *)
         else
           e ← last (contextStack w);
           cb ← callback e;
           runCallback push cb (set_trace (trace w ++ [EvCallback (length (contextStack w))]) w)
       else Some w);
  Some (drawScene w).

(** ** Input handling *)

Definition fzero : spec_float := S754_zero false.
Definition clickThreshold : spec_float := F64.div (F64.of_Z 1) (F64.of_Z 100).   (* .01 *)

(** [processMouseEvents]; the camera commands ([view::processZoom] and the
    like) act on the camera only and are left out. *)
Definition processMouseEvents (w : World) : World :=
  let io := frame w in
  (* If any mouse button is pressed, trigger a redraw *)
  let w := if anyMouseDown io then requestRedraw w else w in
  (* Handle scroll events for 3D view *)
  let w := if negb (wantCaptureMouse io) &&
              (negb (SFeqb (mouseWheelH io) fzero) || negb (SFeqb (mouseWheel io) fzero))
           then requestRedraw w else w in
  let shouldEvaluatePick := alwaysEvaluatePick w in
  let w := if alwaysEvaluatePick w then pick.resetPick w else w in
  let w := if mouseClicked io then set_lastClickWasDouble (mouseDoubleClicked io) w else w in
  let '(shouldEvaluatePick, w) :=
    if negb (wantCaptureMouse io) then
      (* Handle drags *)
      if mouseDragging io && negb (keyCtrl io && negb (keyShift io)) then
        let w := requestRedraw w in
        let dragDeltaX := F32.div (mouseDeltaX io) (F32.of_Z (windowWidth (view w))) in
        let dragDeltaY := F32.div (F32.opp (mouseDeltaY io)) (F32.of_Z (windowHeight (view w))) in
        let d := F32.add (dragDistSinceLastRelease w) (F32.abs dragDeltaX) in
        let d := F32.add d (F32.abs dragDeltaY) in
        (shouldEvaluatePick, set_dragDistSinceLastRelease d w)
      (* Handle picks *)
      else
        let should := if SFltb (F64.of_float (dragDistSinceLastRelease w)) clickThreshold
                      then true else shouldEvaluatePick in
        (should, set_dragDistSinceLastRelease fzero w)
    else (shouldEvaluatePick, w) in
  if shouldEvaluatePick
  then pick.evaluatePickQuery (pointerX io) (pointerY io) w
  else w.

(** ** The main loop *)

(** What this iteration will see of the outside: the next [FrameInput]; with
    none left the window reports its current size and no activity. *)
Definition pollInput (w : World) : World :=
  let v := view w in
  let io := match inputs w with
            | io :: _ => io
            | [] => idleFrame (bufferWidth v) (bufferHeight v) (windowWidth v) (windowHeight v)
            end in
  set_frame io (set_inputs (tail (inputs w)) w).

(** Update the width and height. *)
Definition updateViewSize (w : World) : World :=
  let io := frame w in
  let v := view w in
  if negb (newBufferWidth io =? bufferWidth v) || negb (newBufferHeight io =? bufferHeight v) ||
     negb (newWindowHeight io =? windowHeight v) || negb (newWindowWidth io =? windowWidth v)
  then
    (* Basically a resize callback *)
    set_view {| bufferWidth := newBufferWidth io; bufferHeight := newBufferHeight io;
                windowWidth := newWindowWidth io; windowHeight := newWindowHeight io |}
             (requestRedraw w)
  else w.

(** One [mainLoopIteration]; the frame pacing wait reads the clock only and
    is left out, as are [showDelayedWarnings] and the buffer swap. *)
Definition mainLoopIterationG (push : option Callback -> World -> option World)
  (w : World) : option World :=
  let w := set_trace (trace w ++ [EvIteration (length (contextStack w))]) w in
  let w := pollInput w in
  let w := updateViewSize w in
  (* Process UI events *)
  let w := processMouseEvents w in
  (* Rendering *)
  draw push true w.

Fixpoint mainLoopIteration (fuel : nat) (w : World) : option World :=
  match fuel with
  | O => None
  | S fuel' => mainLoopIterationG (pushContextG (mainLoopIteration fuel') fuel') w
  end.

Definition pushContext (fuel : nat) (callbackFunction : option Callback) (w : World)
  : option World :=
  pushContextG (mainLoopIteration fuel) fuel callbackFunction w.

(** ** The state [init()] leaves

    One root context without callback; the four default type maps; a redraw
    pending. *)
Definition zeroVec : vec3 := Vec3 fzero fzero fzero.

Definition initWorld : World := {|
  structures := <[RaySet_structureTypeName := ∅]>
                (<[CameraView_structureTypeName := ∅]>
                 (<[SurfaceMesh_structureTypeName := ∅]>
                  (<[PointCloud_structureTypeName := ∅]> ∅)));
  extents := {| ext_lengthScale := F64.of_Z 1;
                ext_boundingBox := (zeroVec, zeroVec);
                ext_center := zeroVec |};
  userCallback := None;
  screenshotInd := 0%N;
  alwaysRedraw := false;
  contextStack := [{| context := O; callback := None |}];
  redrawNextFrame := true;
  lastClickWasDouble := false;
  dragDistSinceLastRelease := fzero;
  view := {| bufferWidth := 1280; bufferHeight := 720; windowWidth := 1280; windowHeight := 720 |};
  pickState := NoSelection;
  alwaysEvaluatePick := false;
  pickTable := fun _ => ({| addr := 1%positive; type := ""; name := "";
                            lengthScale := fzero; boundingBox := (zeroVec, zeroVec) |}, 0%N);
  currentContext := O;
  nextContext := 1%nat;
  frame := idleFrame 1280 720 1280 720;
  inputs := [];
  trace := [];
|}.

(** ** Vocabulary of the properties *)

(** The state in which [draw] is entered during an iteration. *)
Definition beforeDraw (w : World) : World :=
  processMouseEvents
    (updateViewSize
       (pollInput (set_trace (trace w ++ [EvIteration (length (contextStack w))]) w))).

(** The pointer lies in the pick buffer. *)
Definition inViewport (xPos yPos : Z) (w : World) : Prop :=
  0 <= xPos < bufferWidth (view w) /\ 0 <= yPos < bufferHeight (view w).

(** Number of times the scene was rasterized, and of loop steps, in a trace. *)
Definition isDrawStructures (e : Event) : bool :=
  match e with EvDrawStructures => true | _ => false end.
Definition isIteration (e : Event) : bool :=
  match e with EvIteration _ => true | _ => false end.
Definition rasterizations (tr : list Event) : nat := length (filter isDrawStructures tr).
Definition loopSteps (tr : list Event) : nat := length (filter isIteration tr).

(** A type map holds a structure called [nm]. *)
Definition holds (nm : string) (typeMap : string * gmap string Structure) : Prop :=
  is_Some (typeMap.2 !! nm).

(** ** Sample data for the worked instances *)

Definition sampleGeometry : Geometry :=
  {| geo_lengthScale := F64.of_Z 2; geo_boundingBox := (zeroVec, glm.ones) |}.
Definition sampleCloud (a : positive) (nm : string) : Structure :=
  construct PointCloud_structureTypeName a nm sampleGeometry.
Definition sampleMesh (a : positive) (nm : string) : Structure :=
  construct SurfaceMesh_structureTypeName a nm sampleGeometry.

(** The registry keeps every structure under its own type and name. *)
Definition registry_wf (reg : gmap string (gmap string Structure)) : Prop :=
  forall ty sMap nm s, reg !! ty = Some sMap -> sMap !! nm = Some s ->
                       type s = ty /\ name s = nm.

(** The pointer [s] is held by the registry. *)
Definition registered (s : Structure) (w : World) : Prop :=
  exists ty nm s', findStructure ty nm w = Some s' /\ addr s' = addr s.

(** The selection, if any, refers to a registered structure. *)
Definition pick_valid (w : World) : Prop :=
  match pickState w with
  | NoSelection => True
  | Selected s _ _ => registered s w
  end.

(** The types under which a structure called [nm] is registered, in
    iteration order. *)
Definition typesHolding (nm : string) (w : World) : list string :=
  (filter (holds nm) (entries (structures w))).*1.

(** A scene with a point cloud and a mesh both called "bunny" and a point
    cloud called "cow". *)
Definition sceneWorld : World :=
  (registerStructure (sampleCloud 3 "cow") false
     (registerStructure (sampleMesh 2 "bunny") false
        (registerStructure (sampleCloud 1 "bunny") false initWorld).2).2).2.

(** Every structure the registry holds, in iteration order. *)
Definition allStructures (reg : gmap string (gmap string Structure)) : list Structure :=
  mjoin ((fun cat : string * gmap string Structure => (entries cat.2).*2) <$> entries reg).

(** The scene above with the point cloud "bunny" selected. *)
Definition sceneWithPick : World :=
  set_pickState (Selected (sampleCloud 1 "bunny") 7 false) sceneWorld.

(** ** The extents as the spec words them

    The length scale is folded with maximum and the bounding box with
    component-wise min/max over all registered structures; a non-finite box
    falls back to the unit box; a zero length scale is replaced by the
    diagonal of the final box; the center is the midpoint of the final box. *)
Definition infBox : vec3 * vec3 :=
  (Vec3 F32.infinity F32.infinity F32.infinity,
   Vec3 (F32.opp F32.infinity) (F32.opp F32.infinity) (F32.opp F32.infinity)).
Definition unitBox : vec3 * vec3 :=
  (Vec3 (F32.of_Z (-1)) (F32.of_Z (-1)) (F32.of_Z (-1)),
   Vec3 (F32.of_Z 1) (F32.of_Z 1) (F32.of_Z 1)).
Definition foldedLengthScale (all : list Structure) : spec_float :=
  foldl std_max (F64.of_Z 0) (lengthScale <$> all).
Definition foldedBox (all : list Structure) : vec3 * vec3 :=
  (foldl componentwiseMin infBox.1 ((fun s => (boundingBox s).1) <$> all),
   foldl componentwiseMax infBox.2 ((fun s => (boundingBox s).2) <$> all)).
Definition diagonal (box : vec3 * vec3) : spec_float := glm.length (glm.sub box.2 box.1).
Definition midpoint (box : vec3 * vec3) : vec3 := glm.mul_sv half (glm.add box.1 box.2).

Definition updateExtents_spec (reg : gmap string (gmap string Structure)) : Extents :=
  let all := allStructures reg in
  let box := if isFinite (foldedBox all).1 && isFinite (foldedBox all).2
             then foldedBox all else unitBox in
  let scale := if SFeqb (foldedLengthScale all) (F64.of_Z 0)
               then F64.of_float (diagonal box) else foldedLengthScale all in
  {| ext_lengthScale := scale; ext_boundingBox := box; ext_center := midpoint box |}.

(** [2*sqrt(3)] in single precision, the precision [glm::length] of a
    [glm::vec3] computes in. *)
Definition two_sqrt3 : spec_float := F32.mul (F32.of_Z 2) (F32.sqrt (F32.of_Z 3)).

(** ** Well-nested context events

    [nested tr]: in [tr] every [EvCreateContext c] is closed by its
    [EvDestroyContext c] after everything created in between has been
    destroyed: contexts are destroyed in the reverse order of creation. *)
Definition isContextEvent (e : Event) : bool :=
  match e with
  | EvCreateContext _ | EvDestroyContext _ => true
  | _ => false
  end.

Inductive nested : list Event -> Prop :=
| nested_nil : nested []
| nested_event e tr : isContextEvent e = false -> nested tr -> nested (e :: tr)
| nested_call c inner tr :
    nested inner -> nested tr ->
    nested (EvCreateContext c :: inner ++ EvDestroyContext c :: tr).

(** [w'] continues the trace of [w] by a segment satisfying [P]. *)
Definition emits (P : list Event -> Prop) (w w' : World) : Prop :=
  exists seg, trace w' = trace w ++ seg /\ P seg.

(** A segment without context events. *)
Definition plain (seg : list Event) : Prop :=
  Forall (fun e => isContextEvent e = false) seg.

(** The modal callback that closes itself at once. *)
Definition closeAtOnce : Callback := CallPopContext Return.

(** A modal callback that opens a second modal, which closes itself at once,
    and then closes its own. *)
Definition openThenClose : Callback :=
  CallPushContext (Some closeAtOnce) (CallPopContext Return).

(** ** Lookup of a structure (getStructure) *)

Definition noTypeMsg (ty : string) : string :=
  "No structures of type " +:+ ty +:+ " registered".
Definition autoGetMsg : string :=
  "Cannot use automatic structure get with empty name unless there is exactly one structure of that type "
  +:+ "registered".
Definition noStructureMsg (ty nm : string) : string :=
  "No structure of type " +:+ ty +:+ " with name " +:+ nm +:+ " registered".

(** [getStructure(type, name)]; the result [nullptr] is [None].
    [sMap.begin()] is the first entry in key order. *)
Definition getStructure (ty nm : string) (w : World) : option Structure * World :=
  match structures w !! ty with
  | None =>
      (* If there are no structures of that type it is an automatic fail *)
      (None, error (noTypeMsg ty) w)
  | Some sMap =>
      (* Special automatic case, return any *)
      if decide (nm = "") then
        if decide (size sMap = 1%nat)
        then (snd <$> head (entries sMap), w)
        else (None, error autoGetMsg w)
      else
        (* General case *)
        match sMap !! nm with
        | None => (None, error (noStructureMsg ty nm) w)
        | Some s => (Some s, w)
        end
  end.


(** ** Callbacks that leave the context stack alone *)

(** The callback body contains no [popContext] and no [pushContext]. *)
Fixpoint neverPops (cb : Callback) : bool :=
  match cb with
  | Return => true
  | CallPopContext _ => false
  | CallPushContext _ _ => false
  | CallRequestRedraw k => neverPops k
  | CallRegisterStructure _ _ k => neverPops k
  | CallRemoveStructure _ _ _ k => neverPops k
  | CallRemoveStructureByName _ k => neverPops k
  | CallRemoveAllStructures k => neverPops k
  | IfButton _ body k => neverPops body && neverPops k
  end.

(** A redraw asked for since the scene was rasterized [n] times is either
    still pending or has been carried out. *)
Definition redrawDue (n : nat) (w : World) : Prop :=
  (n <= rasterizations (trace w))%nat /\
  (redrawNextFrame w = true \/ (n < rasterizations (trace w))%nat).

(** The inputs on which [processMouseEvents] asks for a redraw: a button held,
    or, with the mouse not captured by the GUI, a scroll or a drag. *)
Definition mouseWantsRedraw (io : FrameInput) : bool :=
  anyMouseDown io ||
  (negb (wantCaptureMouse io) &&
   (negb (SFeqb (mouseWheelH io) fzero) || negb (SFeqb (mouseWheel io) fzero) ||
    (mouseDragging io && negb (keyCtrl io && negb (keyShift io))))).

(** ** The pixels of a screenshot (screenshot(filename, transparentBG))

    [int] arithmetic is checked, signed overflow being undefined; an array
    access outside its bounds is undefined. *)
Definition INT_MAX : Z := 2147483647.
Definition int (z : Z) : option Z :=
  if decide (- INT_MAX - 1 <= z <= INT_MAX) then Some z else None.
Definition iadd (a b : Z) : option Z := int (a + b).
Definition isub (a b : Z) : option Z := int (a - b).
Definition imul (a b : Z) : option Z := int (a * b).

(** [buff[k]] as an rvalue and [buff[k] = v]. *)
Definition load (buff : list Byte.byte) (k : Z) : option Byte.byte :=
  if decide (0 <= k) then buff !! Z.to_nat k else None.
Definition store (buff : list Byte.byte) (k : Z) (v : Byte.byte) : option (list Byte.byte) :=
  if decide (0 <= k < Z.of_nat (length buff)) then Some (<[Z.to_nat k := v]> buff) else None.

(** [dst[to] = src[from]] *)
Definition assign (dst : list Byte.byte) (to : option Z) (src : list Byte.byte)
  (from : option Z) : option (list Byte.byte) :=
  k ← to; k' ← from; v ← load src k'; store dst k v.

(** [for (int i = start; i < start + count; i++) body] *)
Fixpoint forCount {S : Type} (count : nat) (i : Z) (body : Z -> S -> option S) (s : S)
  : option S :=
  match count with
  | O => Some s
  | Datatypes.S count' => s ← body i s; forCount count' (i + 1) body s
  end.

(** [for (int i = 0; i < n; i++) body] *)
Definition forInt {S : Type} (n : Z) (body : Z -> S -> option S) (s : S) : option S :=
  forCount (Z.to_nat n) 0 body s.

(** The branch for a transparent background: just flip. *)
Definition flipRows (w h : Z) (buff flipBuff : list Byte.byte) : option (list Byte.byte) :=
  forInt h (fun j flipBuff =>
    forInt w (fun i flipBuff =>
      ind ← (jw ← imul j w; iadd i jw);
      flipInd ← (d ← isub h j; d ← isub d 1; dw ← imul d w; iadd i dw);
      flipBuff ← assign flipBuff (k ← imul 4 flipInd; iadd k 0) buff (k ← imul 4 ind; iadd k 0);
      flipBuff ← assign flipBuff (k ← imul 4 flipInd; iadd k 1) buff (k ← imul 4 ind; iadd k 1);
      flipBuff ← assign flipBuff (k ← imul 4 flipInd; iadd k 2) buff (k ← imul 4 ind; iadd k 2);
      flipBuff ← assign flipBuff (k ← imul 4 flipInd; iadd k 3) buff (k ← imul 4 ind; iadd k 3);
      Some flipBuff) flipBuff) flipBuff.

(** The other branch: strip alpha channel and flip. *)
Definition stripAlphaAndFlip (w h : Z) (buff noAlphaBuff : list Byte.byte)
  : option (list Byte.byte) :=
  forInt h (fun j noAlphaBuff =>
    forInt w (fun i noAlphaBuff =>
      ind ← (jw ← imul j w; iadd i jw);
      flipInd ← (d ← isub h j; d ← isub d 1; dw ← imul d w; iadd i dw);
      noAlphaBuff ← assign noAlphaBuff (k ← imul 3 flipInd; iadd k 0) buff (k ← imul 4 ind; iadd k 0);
      noAlphaBuff ← assign noAlphaBuff (k ← imul 3 flipInd; iadd k 1) buff (k ← imul 4 ind; iadd k 1);
      noAlphaBuff ← assign noAlphaBuff (k ← imul 3 flipInd; iadd k 2) buff (k ← imul 4 ind; iadd k 2);
      Some noAlphaBuff) noAlphaBuff) noAlphaBuff.

(** What [screenshot] hands to [saveImage], with its number of channels:
    [buff] is the frame as read by [glReadPixels], [fresh] the new array as
    allocated, of [w * h * channels] bytes with contents left open. *)
Definition screenshotImage (transparentBG : bool) (w h : Z) (buff : list Byte.byte)
  (fresh : Z -> list Byte.byte) : option (list Byte.byte * Z) :=
  wh ← imul w h;
  buffSize ← imul wh 4;
  if transparentBG then
    flipBuffSize ← imul wh 4;
    flipBuff ← flipRows w h buff (fresh flipBuffSize);
    Some (flipBuff, 4)
  else
    noAlphaBuffSize ← imul wh 3;
    noAlphaBuff ← stripAlphaAndFlip w h buff (fresh noAlphaBuffSize);
    Some (noAlphaBuff, 3).

(** Byte [c] of the pixel in column [x] of row [y] of an image [w] wide with
    [channels] bytes a pixel. *)
Definition pixelByte (channels w : Z) (img : list Byte.byte) (x y c : Z) : option Byte.byte :=
  img !! Z.to_nat (channels * (x + y * w) + c).

(** Both copy loops, with the stride of the target as parameter. *)
Definition copyFlipped (channels : Z) (w h : Z) (buff out : list Byte.byte)
  : option (list Byte.byte) :=
  forInt h (fun j out =>
    forInt w (fun i out =>
      ind ← (jw ← imul j w; iadd i jw);
      flipInd ← (d ← isub h j; d ← isub d 1; dw ← imul d w; iadd i dw);
      forCount (Z.to_nat channels) 0 (fun c out =>
        assign out (k ← imul channels flipInd; iadd k c) buff (k ← imul 4 ind; iadd k c)) out)
    out) out.

(** A frame one pixel wide and two high, and an allocator that hands out
    zeroed arrays. *)
Definition sampleFrame : list Byte.byte :=
  [Byte.x01; Byte.x02; Byte.x03; Byte.x04; Byte.x05; Byte.x06; Byte.x07; Byte.x08].
Definition zeroedArray (n : Z) : list Byte.byte := replicate (Z.to_nat n) Byte.x00.

(** Byte [c] of the pixel [(x, j)] of the frame has been copied once the loops
    stand at row [j0], column [i0], channel [c0]. *)
Definition copied (j0 i0 c0 x j c : Z) : Prop :=
  j < j0 \/ (j = j0 /\ (x < i0 \/ (x = i0 /\ c < c0))).

Definition copiedSoFar (channels w h : Z) (buff : list Byte.byte) (j0 i0 c0 : Z)
  (out : list Byte.byte) : Prop :=
  length out = Z.to_nat (channels * (w * h)) /\
  forall x j c, 0 <= x < w -> 0 <= j < h -> 0 <= c < channels -> copied j0 i0 c0 x j c ->
    out !! Z.to_nat (channels * (x + (h - j - 1) * w) + c)
    = buff !! Z.to_nat (4 * (x + j * w) + c).

(** ** The file name of a screenshot (screenshot(transparentBG))

    [printf]'s [%06zu]: the decimal digits of a [size_t], which has at most
    twenty of them, padded with zeros on the left to six characters. *)
Definition digitChar (d : N) : Ascii.ascii := Ascii.ascii_of_N (48 + d).

Fixpoint decimal (fuel : nat) (n : N) : string :=
  match fuel with
  | O => ""
  | S fuel' =>
      (if (n <? 10)%N then "" else decimal fuel' (n / 10)%N)
      +:+ String (digitChar (n mod 10)%N) ""
  end.

Fixpoint zeros (k : nat) : string :=
  match k with O => "" | S k' => String (digitChar 0) (zeros k') end.

Definition format_06zu (n : N) : string :=
  let digits := decimal 20 n in
  zeros (6 - String.length digits) +:+ digits.

(** [snprintf(buff, 50, ...)] writes at most 49 characters. *)
Definition defaultName (screenshotInd : N) : string :=
  String.substring 0 49 ("screenshot_" +:+ format_06zu screenshotInd +:+ ".png").

(** The number a string of digits stands for, read from [acc] on. *)
Definition digitValue (c : Ascii.ascii) : N := (Ascii.N_of_ascii c - 48)%N.
Fixpoint decimalValue (acc : N) (s : string) : N :=
  match s with
  | "" => acc
  | String c s' => decimalValue (acc * 10 + digitValue c)%N s'
  end.

(** ** Frame pacing (head of mainLoopIteration)

    [clock] lists what the successive calls of [steady_clock::now()] return,
    in ticks of [period] to the microsecond; [None] stands for a division by
    zero and for a wait that outlasts the readings given. *)
Definition microsecPerLoop (maxFPS : Z) : option Z :=
  if decide (maxFPS = 0) then None
  else
    let microsecPerLoop := Z.quot 1000000 maxFPS in
    (* give a little slack so we actually hit target fps *)
    Some (Z.quot (95 * microsecPerLoop) 100).

(** [duration_cast<microseconds>(currTime - lastMainLoopIterTime).count()] *)
Definition elapsedMicrosec (period lastMainLoopIterTime currTime : Z) : Z :=
  Z.quot (currTime - lastMainLoopIterTime) period.

Fixpoint waitLoop (period lastMainLoopIterTime microsecPerLoop : Z) (currTime : Z)
  (clock : list Z) : option (list Z) :=
  if elapsedMicrosec period lastMainLoopIterTime currTime <? microsecPerLoop then
    match clock with
    | [] => None
    | currTime :: clock => waitLoop period lastMainLoopIterTime microsecPerLoop currTime clock
    end
  else Some clock.

(** The wait and the update of [lastMainLoopIterTime]; returns the new value
    of the latter and the readings left. *)
Definition paceFrame (period maxFPS lastMainLoopIterTime : Z) (clock : list Z)
  : option (Z * list Z) :=
  clock ← (if decide (maxFPS ≠ -1) then
             match clock with
             | [] => None
             | currTime :: clock =>
                 microsecPerLoop ← microsecPerLoop maxFPS;
                 waitLoop period lastMainLoopIterTime microsecPerLoop currTime clock
             end
           else Some clock);
  match clock with
  | [] => None
  | now :: clock => Some (now, clock)
  end.

(** A steady clock never runs backwards. *)
Fixpoint steady (last : Z) (clock : list Z) : Prop :=
  match clock with
  | [] => True
  | t :: clock => last <= t /\ steady t clock
  end.

(** The cached window and buffer sizes are the ones last reported. *)
Definition viewCurrent (w : World) : Prop :=
  view w = {| bufferWidth := newBufferWidth (frame w); bufferHeight := newBufferHeight (frame w);
              windowWidth := newWindowWidth (frame w); windowHeight := newWindowHeight (frame w) |}.

(** A frame with the pointer resting over the scene at (5, 5), no button
    pressed, and index 7 under every pixel of the pick buffer. *)
Definition hoverFrame : FrameInput := {|
  newBufferWidth := 1280; newBufferHeight := 720; newWindowWidth := 1280; newWindowHeight := 720;
  anyMouseDown := false; wantCaptureMouse := false;
  mouseWheelH := S754_zero false; mouseWheel := S754_zero false;
  mouseClicked := false; mouseDoubleClicked := false; mouseDragging := false;
  keyCtrl := false; keyShift := false;
  mouseDeltaX := S754_zero false; mouseDeltaY := S754_zero false;
  pointerX := 5; pointerY := 5; pickIndex := fun _ _ => 7%N;
  screenshotClicked := false; clicked := [];
|}.

(** A frame in which the window reports a new size. *)
Definition resizedFrame : FrameInput := idleFrame 800 600 400 300.

(** ** The extents in IEEE terms

    What "maximum", "minimum", "finite", "diagonal" and "midpoint" mean for
    the numbers the code computes with, in terms of the IEEE comparison and
    operations alone. *)

(** Neither NaN nor an infinity. *)
Definition finiteNumber (x : spec_float) : Prop :=
  x <> S754_nan /\ x <> S754_infinity false /\ x <> S754_infinity true.

(** [r] is the greatest of [init] and the numbers [xs]: none of them is
    greater, and it is one of them.  A NaN compares with nothing and so
    takes no part. *)
Definition greatestOf (init r : spec_float) (xs : list spec_float) : Prop :=
  r <> S754_nan /\ SFltb r init = false /\
  (forall x, x ∈ xs -> SFltb r x = false) /\ (r = init \/ r ∈ xs).

(** [r] is the least of [init] and the numbers [xs]. *)
Definition leastOf (init r : spec_float) (xs : list spec_float) : Prop :=
  r <> S754_nan /\ SFltb init r = false /\
  (forall x, x ∈ xs -> SFltb x r = false) /\ (r = init \/ r ∈ xs).

(** [0.5f * (lo + hi)], both operations rounded to single precision. *)
Definition midpoint32 (lo hi : spec_float) : spec_float :=
  SFmul 24 128 (S754_finite false 8388608 (-24)) (SFadd 24 128 lo hi).

(** [sqrt(dx*dx + dy*dy + dz*dz)], every operation rounded to single
    precision. *)
Definition euclidean32 (dx dy dz : spec_float) : spec_float :=
  SFsqrt 24 128
    (SFadd 24 128 (SFadd 24 128 (SFmul 24 128 dx dx) (SFmul 24 128 dy dy))
                  (SFmul 24 128 dz dz)).

(** The corners -1 and 1 of the unit box, and the double 0. *)
Definition minusOne32 : spec_float := S754_finite true 8388608 (-23).
Definition one32 : spec_float := S754_finite false 8388608 (-23).

(** A scene with one structure whose box is finite and large, from 2^127 to
    1.5 * 2^127 in every coordinate, and which reports no length scale. *)
Definition largeCorner (m : positive) : vec3 :=
  Vec3 (S754_finite false m 104) (S754_finite false m 104) (S754_finite false m 104).
Definition largeCloud : Structure :=
  {| addr := 5; type := PointCloud_structureTypeName; name := "far";
     lengthScale := S754_zero false;
     boundingBox := (largeCorner 8388608, largeCorner 12582912) |}.
Definition largeScene : World := (registerStructure largeCloud false initWorld).2.

(** A scene with one structure whose box is the 3-4-0 triangle's. *)
Definition triangleCloud : Structure :=
  {| addr := 6; type := PointCloud_structureTypeName; name := "tri";
     lengthScale := S754_zero false;
     boundingBox := (zeroVec, Vec3 (F32.of_Z 3) (F32.of_Z 4) (F32.of_Z 0)) |}.
Definition triangleScene : World := (registerStructure triangleCloud false initWorld).2.

(** * Properties *)

(** ** C1: popContext on the root context *)

(** C1 (as the code behaves): on a context stack holding only the root
    entry, [popContext] reports the error and then pops all the same: the
    stack is left empty, so it is not a no-op and [stack.size() >= 1] is
    broken.  The guard lacks a [return]. *)
Theorem popContext_root_still_pops (w : World) (root : ContextEntry) :
  contextStack w = [root] ->
  popContext w = Some (set_contextStack [] (error tooManyPopsMsg w)) /\
  (forall w', popContext w = Some w' ->
     contextStack w' = [] /\ trace w' = trace w ++ [EvError tooManyPopsMsg]).
Proof.
  intros Hstack.
  assert (Hpop : popContext w = Some (set_contextStack [] (error tooManyPopsMsg w))).
  { unfold popContext. rewrite Hstack. cbn. rewrite Hstack. reflexivity. }
  split; [exact Hpop|].
  intros w' Hw'. rewrite Hpop in Hw'. injection Hw' as <-. split; reflexivity.
Qed.

Lemma popContext_root_still_pops_witness :
  contextStack initWorld = [{| context := O; callback := None |}] /\
  popContext initWorld = Some (set_contextStack [] (error tooManyPopsMsg initWorld)).
Proof.
  split; [reflexivity|].
  apply (popContext_root_still_pops initWorld {| context := O; callback := None |}).
  reflexivity.
Defined.

(** ** C3: duplicate registration without replace *)

Lemma registerStructure_duplicate w s old :
  findStructure (type s) (name s) w = Some old ->
  registerStructure s false w = (false, error (duplicateMsg (name s)) w).
Proof.
  intros Hold. unfold findStructure in Hold. unfold registerStructure.
  destruct (structures w !! type s) as [sMap|] eqn:Hty; [|discriminate].
  cbn in Hold. rewrite Hty. cbn. rewrite Hold. reflexivity.
Qed.

(** C3: when an entry with the same (type, name) exists, [registerStructure]
    with [replaceIfPresent = false] returns false; the registry, the extents
    and the pick state are what they were, so the original instance is still
    the one under that key and the rejected structure was not taken; the
    only effect is the reported error. *)
Theorem registerStructure_duplicate_rejected (w : World) (s old : Structure) :
  findStructure (type s) (name s) w = Some old ->
  registerStructure s false w = (false, error (duplicateMsg (name s)) w) /\
  structures (registerStructure s false w).2 = structures w /\
  findStructure (type s) (name s) (registerStructure s false w).2 = Some old /\
  extents (registerStructure s false w).2 = extents w /\
  pickState (registerStructure s false w).2 = pickState w.
Proof.
  intros Hold.
  pose proof (registerStructure_duplicate w s old Hold) as Hreg.
  rewrite Hreg. cbn [fst snd].
  split; [reflexivity|]. split; [reflexivity|]. split; [exact Hold|].
  split; reflexivity.
Qed.

Lemma registerStructure_duplicate_rejected_witness :
  let w := (registerStructure (sampleCloud 1 "bunny") false initWorld).2 in
  findStructure "Point Cloud" "bunny" w = Some (sampleCloud 1 "bunny") /\
  (registerStructure (sampleCloud 2 "bunny") false w).1 = false /\
  findStructure "Point Cloud" "bunny" (registerStructure (sampleCloud 2 "bunny") false w).2
    = Some (sampleCloud 1 "bunny").
Proof.
  intros w.
  assert (H : findStructure (type (sampleCloud 2 "bunny")) (name (sampleCloud 2 "bunny")) w
              = Some (sampleCloud 1 "bunny")) by (vm_compute; reflexivity).
  destruct (registerStructure_duplicate_rejected w (sampleCloud 2 "bunny") _ H)
    as (Hreg & _ & Hfind & _).
  split; [exact H|]. split; [rewrite Hreg; reflexivity | exact Hfind].
Defined.

(** ** C10: the typed wrappers drop [replaceIfPresent] *)

Lemma registerTyped_ignores_flag ty a nm data (b1 b2 : bool) (w : World) :
  registerTyped ty a nm data b1 w = registerTyped ty a nm data b2 w.
Proof. reflexivity. Qed.

Lemma registerTyped_duplicate ty a nm data (b : bool) (w : World) (old : Structure) :
  findStructure ty nm w = Some old ->
  registerTyped ty a nm data b w
  = delete_structure (construct ty a nm data) (error (duplicateMsg nm) w).
Proof.
  intros Hold. unfold registerTyped.
  pose proof (registerStructure_duplicate w (construct ty a nm data) old Hold) as Hreg.
  change (registerStructure (construct ty a nm data) replaceIfPresent_default w)
    with (registerStructure (construct ty a nm data) false w).
  rewrite Hreg. reflexivity.
Qed.

(** C10: for each of [registerPointCloud], [registerSurfaceMesh],
    [registerCameraView] and [registerRaySet] the [replaceIfPresent] argument
    changes nothing; and when a structure of that type and name is already
    registered the call fails whatever the argument: the error is reported,
    the newly built structure is deleted, and the registry keeps the old
    entry. *)
Theorem typed_wrappers_never_replace (a : positive) (nm : string) (data : Geometry)
  (replaceIfPresent : bool) (w : World) :
  (registerPointCloud a nm data replaceIfPresent w = registerPointCloud a nm data false w /\
   registerSurfaceMesh a nm data replaceIfPresent w = registerSurfaceMesh a nm data false w /\
   registerCameraView a nm data replaceIfPresent w = registerCameraView a nm data false w /\
   registerRaySet a nm data replaceIfPresent w = registerRaySet a nm data false w) /\
  (forall (wrapper : positive -> string -> Geometry -> bool -> World -> World) (ty : string)
          (old : Structure),
     (wrapper, ty) ∈ [(registerPointCloud, PointCloud_structureTypeName);
                      (registerSurfaceMesh, SurfaceMesh_structureTypeName);
                      (registerCameraView, CameraView_structureTypeName);
                      (registerRaySet, RaySet_structureTypeName)] ->
     findStructure ty nm w = Some old ->
     let w' := wrapper a nm data replaceIfPresent w in
     structures w' = structures w /\
     findStructure ty nm w' = Some old /\
     trace w' = trace w ++ [EvError (duplicateMsg nm); EvDelete a]).
Proof.
  split; [repeat split|].
  intros wrapper ty old Hin Hold w'.
  assert (Hw' : w' = delete_structure (construct ty a nm data) (error (duplicateMsg nm) w)).
  { subst w'. rewrite !elem_of_cons, elem_of_nil in Hin.
    destruct Hin as [Hp|[Hp|[Hp|[Hp|[]]]]]; injection Hp as -> ->;
      eapply registerTyped_duplicate; exact Hold. }
  rewrite Hw'. cbn. split; [reflexivity|]. split; [exact Hold|].
  rewrite <- app_assoc. reflexivity.
Qed.

Lemma typed_wrappers_never_replace_witness :
  let w := registerPointCloud 1 "bunny" sampleGeometry true initWorld in
  let w' := registerPointCloud 2 "bunny" sampleGeometry true w in
  findStructure "Point Cloud" "bunny" w = Some (sampleCloud 1 "bunny") /\
  findStructure "Point Cloud" "bunny" w' = Some (sampleCloud 1 "bunny") /\
  trace w' = trace w ++ [EvError (duplicateMsg "bunny"); EvDelete 2].
Proof.
  intros w w'.
  assert (H : findStructure PointCloud_structureTypeName "bunny" w
              = Some (sampleCloud 1 "bunny")) by (vm_compute; reflexivity).
  split; [exact H|].
  destruct (typed_wrappers_never_replace 2 "bunny" sampleGeometry true w) as [_ Hdup].
  destruct (Hdup registerPointCloud PointCloud_structureTypeName _
                 ltac:(apply list_elem_of_here) H) as (_ & Hfind & Htr).
  split; [exact Hfind | exact Htr].
Defined.

(** ** C7: pick queries *)

Lemma evaluatePickQuery_lastClickWasDouble xPos yPos w :
  lastClickWasDouble (pick.evaluatePickQuery xPos yPos w) = lastClickWasDouble w.
Proof.
  unfold pick.evaluatePickQuery, pick.setCurrentPickElement.
  repeat case_match; reflexivity.
Qed.

Lemma processMouseEvents_latches w :
  lastClickWasDouble (processMouseEvents w)
  = if mouseClicked (frame w) then mouseDoubleClicked (frame w) else lastClickWasDouble w.
Proof.
  unfold processMouseEvents.
  repeat match goal with
         | |- context [let '(_, _) := ?x in _] => destruct x eqn:?
         end.
  repeat case_match; simplify_eq;
    rewrite ?evaluatePickQuery_lastClickWasDouble; reflexivity.
Qed.

(** C7: a pick query outside the viewport leaves the whole state as it is.
    Inside, the index decoded from the pixel read back decides: index 0 gives
    NoSelection, whatever the viewport; any other index gives Selected with
    the table's structure and local index and with [lastClickWasDouble], the
    flag that [processMouseEvents] latches on the press event. *)
Theorem evaluatePickQuery_transitions (w : World) (xPos yPos : Z) :
  (~ inViewport xPos yPos w -> pick.evaluatePickQuery xPos yPos w = w) /\
  (inViewport xPos yPos w ->
   let ind := pickIndex (frame w) xPos (bufferHeight (view w) - yPos) in
   (ind = 0%N -> pickState (pick.evaluatePickQuery xPos yPos w) = NoSelection) /\
   (ind <> 0%N ->
    pickState (pick.evaluatePickQuery xPos yPos w)
    = Selected (pickTable w ind).1 (pickTable w ind).2 (lastClickWasDouble w))) /\
  lastClickWasDouble (processMouseEvents w)
  = (if mouseClicked (frame w) then mouseDoubleClicked (frame w) else lastClickWasDouble w).
Proof.
  unfold inViewport. split; [|split].
  - intros Hout. unfold pick.evaluatePickQuery.
    destruct ((xPos <? 0) || (xPos >=? bufferWidth (view w)) ||
              (yPos <? 0) || (yPos >=? bufferHeight (view w))) eqn:Hguard; [reflexivity|].
    exfalso. apply Hout.
    repeat (apply orb_false_elim in Hguard as [Hguard ?]). lia.
  - intros Hin.
    set (ind := pickIndex (frame w) xPos (bufferHeight (view w) - yPos)).
    unfold pick.evaluatePickQuery.
    replace ((xPos <? 0) || (xPos >=? bufferWidth (view w)) ||
             (yPos <? 0) || (yPos >=? bufferHeight (view w))) with false.
    2:{ symmetry. repeat (apply orb_false_intro); lia. }
    fold ind. split.
    + intros ->. reflexivity.
    + intros Hne. apply N.eqb_neq in Hne. rewrite Hne.
      unfold pick.setCurrentPickElement. destruct (pickTable w ind). reflexivity.
  - apply processMouseEvents_latches.
Qed.

Lemma evaluatePickQuery_transitions_witness :
  ~ inViewport (-1) 5 initWorld /\ pick.evaluatePickQuery (-1) 5 initWorld = initWorld /\
  inViewport 5 5 initWorld /\ pickState (pick.evaluatePickQuery 5 5 initWorld) = NoSelection.
Proof.
  destruct (evaluatePickQuery_transitions initWorld (-1) 5) as [Hout _].
  destruct (evaluatePickQuery_transitions initWorld 5 5) as (_ & Hin & _).
  assert (H1 : ~ inViewport (-1) 5 initWorld) by (unfold inViewport; cbn; lia).
  assert (H2 : inViewport 5 5 initWorld) by (unfold inViewport; cbn; lia).
  split; [exact H1|]. split; [exact (Hout H1)|]. split; [exact H2|].
  apply (Hin H2). reflexivity.
Defined.

(** ** C9: redraw on demand *)

Lemma rasterizations_app tr1 tr2 :
  rasterizations (tr1 ++ tr2) = (rasterizations tr1 + rasterizations tr2)%nat.
Proof. unfold rasterizations. rewrite filter_app, length_app. reflexivity. Qed.

Lemma loopSteps_app tr1 tr2 :
  loopSteps (tr1 ++ tr2) = (loopSteps tr1 + loopSteps tr2)%nat.
Proof. unfold loopSteps. rewrite filter_app, length_app. reflexivity. Qed.

Lemma drawScene_trace w :
  trace (drawScene w)
  = trace w ++ (if redrawNextFrame w || alwaysRedraw w then [EvDrawStructures] else []).
Proof.
  unfold drawScene. destruct (redrawNextFrame w || alwaysRedraw w); cbn;
    [reflexivity | symmetry; apply app_nil_r].
Qed.

Lemma drawScene_clears w : redrawNextFrame (drawScene w) = false.
Proof.
  unfold drawScene. destruct (redrawNextFrame w) eqn:Hflag; cbn; [reflexivity|].
  destruct (alwaysRedraw w); cbn; [reflexivity | exact Hflag].
Qed.

Lemma draw_ends_with_drawScene push withUI w w' :
  draw push withUI w = Some w' ->
  exists wg, w' = drawScene wg /\ (withUI = false -> wg = w).
Proof.
  unfold draw. intros Hdraw.
  destruct withUI.
  - apply bind_Some in Hdraw as (wg & _ & Hwg). injection Hwg as <-.
    exists wg. split; [reflexivity | discriminate].
  - cbn in Hdraw. injection Hdraw as <-. exists w. split; reflexivity.
Qed.






(** ** Iteration order of maps *)

Section Entries.
Context {V : Type}.
Implicit Types (m : gmap string V) (l : list (string * V)).

Lemma entries_Permutation m : entries m ≡ₚ map_to_list m.
Proof. apply merge_sort_Permutation. Qed.

Lemma elem_of_entries m k v : (k, v) ∈ entries m <-> m !! k = Some v.
Proof. rewrite entries_Permutation. apply elem_of_map_to_list. Qed.

Lemma NoDup_fst_entries m : NoDup (entries m).*1.
Proof. rewrite entries_Permutation. apply NoDup_fst_map_to_list. Qed.

Lemma NoDup_entries m : NoDup (entries m).
Proof. rewrite entries_Permutation. apply NoDup_map_to_list. Qed.

Lemma entries_empty : entries (∅ : gmap string V) = [].
Proof.
  apply Permutation_nil_r. rewrite entries_Permutation, map_to_list_empty. reflexivity.
Qed.

Lemma entries_nil_inv m : entries m = [] -> m = ∅.
Proof.
  intros H. apply map_to_list_empty_iff, Permutation_nil_r.
  rewrite <- entries_Permutation, H. reflexivity.
Qed.

(** The first element of a list that satisfies a decidable predicate. *)
Lemma first_match_split (P : string * V -> Prop) `{!forall x, Decision (P x)} l x :
  x ∈ l -> P x ->
  exists l1 y l2, l = l1 ++ y :: l2 /\ P y /\ Forall (fun z => ~ P z) l1.
Proof.
  induction l as [|z l IH]; intros Hin HP.
  - inversion Hin.
  - destruct (decide (P z)) as [Hz|Hz].
    + exists [], z, l. repeat split; [assumption | constructor].
    + apply elem_of_cons in Hin as [->|Hin]; [contradiction|].
      destruct (IH Hin HP) as (l1 & y & l2 & -> & Hy & Hl1).
      exists (z :: l1), y, l2. repeat split; [assumption | constructor; assumption].
Qed.
End Entries.

(** ** The search loops of [removeStructure(name)] *)

Lemma scanEntries_absent nm tyKey l target :
  (forall s, (nm, s) ∉ l) -> scanEntries nm tyKey l target = inr target.
Proof.
  induction l as [|[k v] l IH]; intros Habs; cbn; [reflexivity|].
  destruct (decide (k = nm)) as [->|Hne].
  - exfalso. apply (Habs v). left.
  - apply IH. intros s Hs. apply (Habs s). right. exact Hs.
Qed.

Lemma scanEntries_present nm tyKey l target s :
  NoDup l.*1 -> (nm, s) ∈ l ->
  scanEntries nm tyKey l target
  = match target with
    | None => inr (Some s)
    | Some t => inl (ambiguousMsg (type t) tyKey)
    end.
Proof.
  induction l as [|[k v] l IH]; intros Hnd Hin; [inversion Hin|].
  cbn in Hnd. apply NoDup_cons in Hnd as [Hk Hnd]. cbn.
  destruct (decide (k = nm)) as [->|Hne].
  - apply elem_of_cons in Hin as [Heq|Hin].
    + injection Heq as <-. destruct target; [reflexivity|].
      apply scanEntries_absent. intros s' Hs'. apply Hk.
      apply list_elem_of_fmap. exists (nm, s'). split; [reflexivity | exact Hs'].
    + exfalso. apply Hk. apply list_elem_of_fmap. exists (nm, s). split; [reflexivity | exact Hin].
  - apply elem_of_cons in Hin as [Heq|Hin]; [congruence|]. apply IH; assumption.
Qed.

Lemma scanEntries_map nm tyKey (sMap : gmap string Structure) target :
  scanEntries nm tyKey (entries sMap) target
  = match sMap !! nm, target with
    | None, _ => inr target
    | Some s, None => inr (Some s)
    | Some s, Some t => inl (ambiguousMsg (type t) tyKey)
    end.
Proof.
  destruct (sMap !! nm) as [s|] eqn:Hs.
  - apply scanEntries_present; [apply NoDup_fst_entries | apply elem_of_entries, Hs].
  - apply scanEntries_absent. intros s Hin. apply elem_of_entries in Hin. congruence.
Qed.

Lemma scanTypes_none nm l target :
  Forall (fun typeMap => ~ holds nm typeMap) l -> scanTypes nm l target = inr target.
Proof.
  induction 1 as [|[ty sMap] l Hno _ IH]; cbn; [reflexivity|].
  rewrite scanEntries_map.
  destruct (sMap !! nm) eqn:Hs; [|apply IH].
  exfalso. apply Hno. unfold holds. cbn. rewrite Hs. eauto.
Qed.

Lemma scanTypes_second nm l t :
  Exists (holds nm) l ->
  exists typeMap, typeMap ∈ l /\ holds nm typeMap /\
                  scanTypes nm l (Some t) = inl (ambiguousMsg (type t) typeMap.1).
Proof.
  induction l as [|[ty sMap] l IH]; intros Hex; [inversion Hex|].
  cbn. rewrite scanEntries_map.
  destruct (sMap !! nm) as [s|] eqn:Hs.
  - exists (ty, sMap). split; [left|]. split; [|reflexivity].
    unfold holds. cbn. rewrite Hs. eauto.
  - apply Exists_cons in Hex as [Hh|Hex].
    + unfold holds in Hh. cbn in Hh. rewrite Hs in Hh. destruct Hh. discriminate.
    + destruct (IH Hex) as (tm & Hin & Hh & Heq).
      exists tm. split; [right; exact Hin|]. split; assumption.
Qed.

Lemma scanTypes_first nm l1 ty sMap s l2 :
  Forall (fun typeMap => ~ holds nm typeMap) l1 -> sMap !! nm = Some s ->
  scanTypes nm (l1 ++ (ty, sMap) :: l2) None = scanTypes nm l2 (Some s).
Proof.
  induction 1 as [|[ty' sMap'] l1 Hno _ IH]; intros Hs; cbn.
  - rewrite scanEntries_map, Hs. reflexivity.
  - rewrite scanEntries_map.
    destruct (sMap' !! nm) eqn:Hs'; [|apply IH, Hs].
    exfalso. apply Hno. unfold holds. cbn. rewrite Hs'. eauto.
Qed.

Section ScanRegistry.
Variable (w : World) (nm : string).
Let reg := structures w.

Lemma holds_entries ty sMap :
  (ty, sMap) ∈ entries reg -> holds nm (ty, sMap) -> is_Some (findStructure ty nm w).
Proof.
  intros Hin Hh. apply elem_of_entries in Hin.
  unfold findStructure. fold reg. rewrite Hin. exact Hh.
Qed.

Lemma findStructure_entries ty s :
  findStructure ty nm w = Some s ->
  exists sMap, (ty, sMap) ∈ entries reg /\ sMap !! nm = Some s.
Proof.
  unfold findStructure. fold reg. intros H.
  destruct (reg !! ty) as [sMap|] eqn:Hty; [|discriminate].
  exists sMap. split; [apply elem_of_entries, Hty | exact H].
Qed.

Lemma scan_not_found :
  (forall ty, findStructure ty nm w = None) ->
  scanTypes nm (entries reg) None = inr None.
Proof.
  intros Hnone. apply scanTypes_none, Forall_forall.
  intros [ty sMap] Hin Hh. destruct (holds_entries ty sMap Hin Hh) as [s Hs].
  rewrite Hnone in Hs. discriminate.
Qed.

Lemma scan_unique ty s :
  findStructure ty nm w = Some s ->
  (forall ty', is_Some (findStructure ty' nm w) -> ty' = ty) ->
  scanTypes nm (entries reg) None = inr (Some s).
Proof.
  intros Hs Huniq.
  destruct (findStructure_entries ty s Hs) as (sMap & Hin & Hlook).
  destruct (list_elem_of_split _ _ Hin) as (l1 & l2 & Hsplit).
  pose proof (NoDup_fst_entries reg) as Hnd. rewrite Hsplit in Hnd.
  rewrite fmap_app, fmap_cons in Hnd. cbn in Hnd.
  apply NoDup_app in Hnd as (_ & Hl1 & Hnd). apply NoDup_cons in Hnd as [Hl2 _].
  assert (Hother : forall tm, tm ∈ l1 ++ l2 -> ~ holds nm tm).
  { intros [ty' sMap'] Hin' Hh.
    assert (Hin'' : (ty', sMap') ∈ entries reg).
    { rewrite Hsplit. apply elem_of_app in Hin' as [?|?];
        apply elem_of_app; [left | right; right]; assumption. }
    rewrite (Huniq ty' (holds_entries ty' sMap' Hin'' Hh)) in Hin'.
    apply elem_of_app in Hin' as [Hin'|Hin'].
    - apply (Hl1 ty); [|left].
      apply list_elem_of_fmap. exists (ty, sMap'). split; [reflexivity | exact Hin'].
    - apply Hl2. apply list_elem_of_fmap. exists (ty, sMap'). split; [reflexivity | exact Hin']. }
  rewrite Hsplit, (scanTypes_first nm l1 ty sMap s l2); [|  | exact Hlook].
  - apply scanTypes_none, Forall_forall. intros tm Htm. apply Hother, elem_of_app. right. exact Htm.
  - apply Forall_forall. intros tm Htm. apply Hother, elem_of_app. left. exact Htm.
Qed.

Lemma scan_ambiguous t1 t2 :
  t1 <> t2 -> is_Some (findStructure t1 nm w) -> is_Some (findStructure t2 nm w) ->
  exists ta tb sa, ta <> tb /\ findStructure ta nm w = Some sa /\
                   is_Some (findStructure tb nm w) /\
                   scanTypes nm (entries reg) None = inl (ambiguousMsg (type sa) tb).
Proof.
  intros Hne [s1 Hs1] [s2 Hs2].
  destruct (findStructure_entries t1 s1 Hs1) as (m1 & Hin1 & Hl1).
  destruct (findStructure_entries t2 s2 Hs2) as (m2 & Hin2 & Hl2).
  assert (Hh1 : holds nm (t1, m1)) by (unfold holds; cbn; eauto).
  assert (Hh2 : holds nm (t2, m2)) by (unfold holds; cbn; eauto).
  destruct (first_match_split (holds nm) (entries reg) (t1, m1) Hin1 Hh1)
    as (l1 & [ta ma] & l2 & Hsplit & [sa Hsa] & Hfirst). cbn in Hsa.
  (* one of the two types is not the first match, hence comes later *)
  assert (Hlater : Exists (holds nm) l2).
  { assert (Hin : forall ty sMap, (ty, sMap) ∈ entries reg -> holds nm (ty, sMap) ->
                                  ty <> ta -> (ty, sMap) ∈ l2).
    { intros ty sMap Hin Hh Hty. rewrite Hsplit in Hin.
      apply elem_of_app in Hin as [Hin|Hin].
      - rewrite Forall_forall in Hfirst. destruct (Hfirst _ Hin Hh).
      - apply elem_of_cons in Hin as [Heq|Hin]; [congruence | exact Hin]. }
    apply Exists_exists. destruct (decide (t1 = ta)) as [<-|Hta].
    - exists (t2, m2). split; [apply Hin; auto | exact Hh2].
    - exists (t1, m1). split; [apply Hin; auto | exact Hh1]. }
  destruct (scanTypes_second nm l2 sa Hlater) as ([tb mb] & Hinb & Hhb & Hscan).
  assert (Hina : (ta, ma) ∈ entries reg).
  { rewrite Hsplit. apply elem_of_app. right. left. }
  assert (Hinb' : (tb, mb) ∈ entries reg).
  { rewrite Hsplit. apply elem_of_app. right. right. exact Hinb. }
  exists ta, tb, sa. split; [|split; [|split]].
  - pose proof (NoDup_fst_entries reg) as Hnd. rewrite Hsplit in Hnd.
    rewrite fmap_app, fmap_cons in Hnd. apply NoDup_app in Hnd as (_ & _ & Hnd).
    apply NoDup_cons in Hnd as [Hnotin _]. intros ->. apply Hnotin.
    apply list_elem_of_fmap. exists (tb, mb). split; [reflexivity | exact Hinb].
  - apply elem_of_entries in Hina. unfold findStructure. fold reg. rewrite Hina. exact Hsa.
  - exact (holds_entries tb mb Hinb' Hhb).
  - rewrite Hsplit, (scanTypes_first nm l1 ta ma sa l2 Hfirst Hsa). exact Hscan.
Qed.
End ScanRegistry.

(** Nobody, exactly one type, or at least two types hold the name. *)
Lemma name_trichotomy (w : World) (nm : string) :
  (forall ty, findStructure ty nm w = None) \/
  (exists ty s, findStructure ty nm w = Some s /\
                forall ty', is_Some (findStructure ty' nm w) -> ty' = ty) \/
  (exists t1 t2, t1 <> t2 /\ is_Some (findStructure t1 nm w) /\
                 is_Some (findStructure t2 nm w)).
Proof.
  set (reg := structures w).
  assert (Hfind : forall ty s, findStructure ty nm w = Some s ->
                               exists sMap, (ty, sMap) ∈ entries reg /\ holds nm (ty, sMap)).
  { intros ty s Hs. destruct (findStructure_entries w nm ty s Hs) as (sMap & Hin & Hl).
    exists sMap. split; [exact Hin | unfold holds; cbn; eauto]. }
  destruct (decide (Exists (holds nm) (entries reg))) as [Hex|Hno].
  - apply Exists_exists in Hex as (tm & Hin & Hh).
    destruct (first_match_split (holds nm) (entries reg) tm Hin Hh)
      as (l1 & [ta ma] & l2 & Hsplit & Hha & Hfirst).
    assert (Hina : (ta, ma) ∈ entries reg).
    { rewrite Hsplit. apply elem_of_app. right. left. }
    pose proof (NoDup_fst_entries reg) as Hnd. rewrite Hsplit in Hnd.
    rewrite fmap_app, fmap_cons in Hnd. apply NoDup_app in Hnd as (_ & Hd1 & Hnd).
    apply NoDup_cons in Hnd as [Hd2 _]. cbn in Hd1, Hd2.
    right. destruct (decide (Exists (holds nm) l2)) as [Hex2|Hno2].
    + right. apply Exists_exists in Hex2 as ([tb mb] & Hinb & Hhb).
      exists ta, tb. split; [|split].
      * intros ->. apply Hd2, list_elem_of_fmap. exists (tb, mb). split; [reflexivity | exact Hinb].
      * exact (holds_entries w nm ta ma Hina Hha).
      * apply (holds_entries w nm tb mb); [|exact Hhb].
        fold reg. rewrite Hsplit. apply elem_of_app. right. right. exact Hinb.
    + left. destruct (holds_entries w nm ta ma Hina Hha) as [sa Hsa].
      exists ta, sa. split; [exact Hsa|].
      intros ty' [s' Hs']. destruct (Hfind ty' s' Hs') as (m' & Hin' & Hh').
      rewrite Hsplit in Hin'. apply elem_of_app in Hin' as [Hin'|Hin'].
      * rewrite Forall_forall in Hfirst. destruct (Hfirst _ Hin' Hh').
      * apply elem_of_cons in Hin' as [Heq|Hin']; [congruence|].
        exfalso. apply Hno2, Exists_exists. eauto.
  - left. intros ty. destruct (findStructure ty nm w) as [s|] eqn:Hs; [|reflexivity].
    exfalso. apply Hno, Exists_exists. destruct (Hfind ty s Hs) as (sMap & Hin & Hh). eauto.
Qed.

(** ** What a removal does to the registry *)

Lemma updateStructureExtents_frame w :
  let w' := updateStructureExtents w in
  structures w' = structures w /\ pickState w' = pickState w /\ trace w' = trace w /\
  contextStack w' = contextStack w /\ redrawNextFrame w' = redrawNextFrame w.
Proof.
  unfold updateStructureExtents.
  repeat match goal with
         | |- context [let '(_, _) := ?x in _] => destruct x
         end.
  cbn. auto.
Qed.

Lemma removeStructure_found ty nm b w sMap s :
  structures w !! ty = Some sMap -> sMap !! nm = Some s ->
  removeStructure ty nm b w
  = updateStructureExtents
      (delete_structure s
         (set_structures (<[ty := delete (name s) sMap]> (structures w))
            (pick.clearPickIfStructureSelected s w))).
Proof.
  intros Hty Hnm. unfold removeStructure. rewrite Hty, Hnm.
  f_equal. f_equal. f_equal. f_equal.
  unfold pick.clearPickIfStructureSelected. repeat case_match; reflexivity.
Qed.

Lemma removeStructure_structures ty nm b w sMap s :
  structures w !! ty = Some sMap -> sMap !! nm = Some s ->
  structures (removeStructure ty nm b w) = <[ty := delete (name s) sMap]> (structures w).
Proof.
  intros Hty Hnm. rewrite (removeStructure_found ty nm b w sMap s Hty Hnm).
  destruct (updateStructureExtents_frame
              (delete_structure s
                 (set_structures (<[ty := delete (name s) sMap]> (structures w))
                    (pick.clearPickIfStructureSelected s w)))) as [-> _].
  reflexivity.
Qed.

Lemma findStructure_removed ty nm b w s t n :
  registry_wf (structures w) -> findStructure ty nm w = Some s ->
  findStructure t n (removeStructure ty nm b w)
  = if decide (t = ty /\ n = nm) then None else findStructure t n w.
Proof.
  intros Hwf Hs. unfold findStructure in Hs.
  destruct (structures w !! ty) as [sMap|] eqn:Hty; [|discriminate]. cbn in Hs.
  destruct (Hwf ty sMap nm s Hty Hs) as [_ Hname].
  unfold findStructure at 1.
  rewrite (removeStructure_structures ty nm b w sMap s Hty Hs), Hname.
  destruct (decide (t = ty)) as [->|Hne].
  - rewrite lookup_insert_eq. cbn. destruct (decide (n = nm)) as [->|Hnn].
    + rewrite lookup_delete_eq. rewrite decide_True by auto. reflexivity.
    + rewrite lookup_delete_ne by auto. rewrite decide_False by (intros [_ ?]; auto).
      unfold findStructure. rewrite Hty. reflexivity.
  - rewrite lookup_insert_ne by auto. rewrite decide_False by (intros [? _]; auto).
    reflexivity.
Qed.

(** ** C4: type-inferred removal *)

Lemma removeStructure_name_not_found w nm :
  (forall ty, findStructure ty nm w = None) ->
  removeStructure_name nm w = error (notFoundMsg nm) w.
Proof.
  intros H. unfold removeStructure_name. rewrite (scan_not_found w nm H). reflexivity.
Qed.

Lemma removeStructure_name_ambiguous w nm :
  registry_wf (structures w) ->
  (exists t1 t2, t1 <> t2 /\ is_Some (findStructure t1 nm w) /\
                 is_Some (findStructure t2 nm w)) ->
  exists ta tb, ta <> tb /\ is_Some (findStructure ta nm w) /\
                is_Some (findStructure tb nm w) /\
                removeStructure_name nm w = error (ambiguousMsg ta tb) w.
Proof.
  intros Hwf (t1 & t2 & Hne & H1 & H2).
  destruct (scan_ambiguous w nm t1 t2 Hne H1 H2) as (ta & tb & sa & Hab & Hsa & Hb & Hscan).
  exists ta, tb. repeat split; [exact Hab | eauto | exact Hb |].
  unfold removeStructure_name. rewrite Hscan.
  unfold findStructure in Hsa.
  destruct (structures w !! ta) as [ma|] eqn:Hta; [|discriminate]. cbn in Hsa.
  destruct (Hwf ta ma nm sa Hta Hsa) as [-> _]. reflexivity.
Qed.

Lemma removeStructure_name_unique w nm ty s :
  registry_wf (structures w) ->
  findStructure ty nm w = Some s ->
  (forall ty', is_Some (findStructure ty' nm w) -> ty' = ty) ->
  removeStructure_name nm w = requestRedraw (removeStructure ty nm true w).
Proof.
  intros Hwf Hs Huniq. unfold removeStructure_name.
  rewrite (scan_unique w nm ty s Hs Huniq).
  unfold findStructure in Hs.
  destruct (structures w !! ty) as [sMap|] eqn:Hty; [|discriminate]. cbn in Hs.
  destruct (Hwf ty sMap nm s Hty Hs) as [-> ->]. reflexivity.
Qed.

(** C4: [removeStructure(name)] on a registry that keeps structures under
    their own keys.  With no structure of that name in any type it reports
    not-found; with structures of that name in more than one type it reports
    the ambiguity, naming two distinct types that hold the name; in both
    cases the registry and the extents stay as they are.  With exactly one it
    removes that entry (and nothing else) and asks for a redraw.  So the
    registry changes if and only if exactly one structure has the name. *)
Theorem removeStructure_name_exactly_one (w : World) (nm : string) :
  registry_wf (structures w) ->
  ((forall ty, findStructure ty nm w = None) ->
   removeStructure_name nm w = error (notFoundMsg nm) w /\
   structures (removeStructure_name nm w) = structures w /\
   extents (removeStructure_name nm w) = extents w) /\
  ((exists t1 t2, t1 <> t2 /\ is_Some (findStructure t1 nm w) /\
                  is_Some (findStructure t2 nm w)) ->
   (exists ta tb, ta <> tb /\ is_Some (findStructure ta nm w) /\
                  is_Some (findStructure tb nm w) /\
                  removeStructure_name nm w = error (ambiguousMsg ta tb) w) /\
   structures (removeStructure_name nm w) = structures w /\
   extents (removeStructure_name nm w) = extents w) /\
  (forall ty s,
     findStructure ty nm w = Some s ->
     (forall ty', is_Some (findStructure ty' nm w) -> ty' = ty) ->
     removeStructure_name nm w = requestRedraw (removeStructure ty nm true w) /\
     forall t n, findStructure t n (removeStructure_name nm w)
                 = if decide (t = ty /\ n = nm) then None else findStructure t n w) /\
  ((exists ty, is_Some (findStructure ty nm w) /\
               forall ty', is_Some (findStructure ty' nm w) -> ty' = ty)
   <-> structures (removeStructure_name nm w) <> structures w).
Proof.
  intros Hwf.
  assert (Hfind : forall ty s,
             findStructure ty nm w = Some s ->
             (forall ty', is_Some (findStructure ty' nm w) -> ty' = ty) ->
             forall t n, findStructure t n (removeStructure_name nm w)
                         = if decide (t = ty /\ n = nm) then None else findStructure t n w).
  { intros ty s Hs Huniq t n. rewrite (removeStructure_name_unique w nm ty s Hwf Hs Huniq).
    rewrite <- (findStructure_removed ty nm true w s t n Hwf Hs). reflexivity. }
  split; [|split; [|split; [|split]]].
  - intros H. rewrite (removeStructure_name_not_found w nm H). auto.
  - intros H. destruct (removeStructure_name_ambiguous w nm Hwf H)
      as (ta & tb & Hab & Ha & Hb & Heq).
    split; [eauto 10|]. rewrite Heq. auto.
  - intros ty s Hs Huniq.
    split; [apply (removeStructure_name_unique w nm ty s) | apply (Hfind ty s)]; assumption.
  - intros (ty & [s Hs] & Huniq) Heq.
    pose proof (Hfind ty s Hs Huniq ty nm) as Hgone.
    rewrite decide_True in Hgone by auto.
    unfold findStructure in Hgone at 1. rewrite Heq in Hgone.
    unfold findStructure in Hs. congruence.
  - intros Hchanged.
    destruct (name_trichotomy w nm) as [H|[(ty & s & Hs & Huniq)|H]].
    + exfalso. apply Hchanged. rewrite (removeStructure_name_not_found w nm H). reflexivity.
    + exists ty. split; [eauto | exact Huniq].
    + exfalso. apply Hchanged.
      destruct (removeStructure_name_ambiguous w nm Hwf H) as (ta & tb & _ & _ & _ & Heq).
      rewrite Heq. reflexivity.
Qed.

(** ** The registry invariant is kept by every operation *)

Lemma registry_wf_insert_empty reg ty :
  registry_wf reg -> registry_wf (<[ty := ∅]> reg).
Proof.
  intros Hwf ty' sMap nm s Hty Hs.
  destruct (decide (ty = ty')) as [<-|Hne].
  - rewrite lookup_insert_eq in Hty. injection Hty as <-. rewrite lookup_empty in Hs. discriminate.
  - rewrite lookup_insert_ne in Hty by exact Hne. exact (Hwf _ _ _ _ Hty Hs).
Qed.

Lemma registry_wf_delete reg ty sMap nm :
  registry_wf reg -> reg !! ty = Some sMap -> registry_wf (<[ty := delete nm sMap]> reg).
Proof.
  intros Hwf Hm ty' sMap' nm' s Hty Hs.
  destruct (decide (ty = ty')) as [<-|Hne].
  - rewrite lookup_insert_eq in Hty. injection Hty as <-.
    apply lookup_delete_Some in Hs as [_ Hs]. exact (Hwf _ _ _ _ Hm Hs).
  - rewrite lookup_insert_ne in Hty by exact Hne. exact (Hwf _ _ _ _ Hty Hs).
Qed.

Lemma registry_wf_install reg s :
  registry_wf reg ->
  registry_wf (<[type s := <[name s := s]> (default ∅ (reg !! type s))]> reg).
Proof.
  intros Hwf ty' sMap' nm' s' Hty Hs.
  destruct (decide (type s = ty')) as [<-|Hne].
  - rewrite lookup_insert_eq in Hty. injection Hty as <-.
    destruct (decide (name s = nm')) as [<-|Hnn].
    + rewrite lookup_insert_eq in Hs. injection Hs as <-. auto.
    + rewrite lookup_insert_ne in Hs by exact Hnn.
      destruct (reg !! type s) as [sMap|] eqn:Hm; cbn in Hs.
      * exact (Hwf _ _ _ _ Hm Hs).
      * rewrite lookup_empty in Hs. discriminate.
  - rewrite lookup_insert_ne in Hty by exact Hne. exact (Hwf _ _ _ _ Hty Hs).
Qed.

Lemma removeStructure_wf ty nm b w :
  registry_wf (structures w) -> registry_wf (structures (removeStructure ty nm b w)).
Proof.
  intros Hwf.
  destruct (structures w !! ty) as [sMap|] eqn:Hty.
  - destruct (sMap !! nm) as [s|] eqn:Hs.
    + rewrite (removeStructure_structures ty nm b w sMap s Hty Hs).
      apply registry_wf_delete; assumption.
    + unfold removeStructure. rewrite Hty, Hs. destruct b; exact Hwf.
  - unfold removeStructure. rewrite Hty. destruct b; exact Hwf.
Qed.

Lemma removeStructure_name_wf nm w :
  registry_wf (structures w) -> registry_wf (structures (removeStructure_name nm w)).
Proof.
  intros Hwf. unfold removeStructure_name.
  destruct (scanTypes nm (entries (structures w)) None) as [msg|[t|]]; cbn; try exact Hwf.
  apply removeStructure_wf, Hwf.
Qed.

Lemma registerStructure_wf s b w :
  registry_wf (structures w) -> registry_wf (structures (registerStructure s b w).2).
Proof.
  intros Hwf. unfold registerStructure.
  set (w1 := match structures w !! type s with
             | None => set_structures (<[type s := ∅]> (structures w)) w
             | Some _ => w
             end).
  assert (Hwf1 : registry_wf (structures w1)).
  { subst w1. destruct (structures w !! type s); [exact Hwf|].
    cbn. apply registry_wf_insert_empty, Hwf. }
  assert (Hinstall : forall w2, registry_wf (structures w2) ->
            registry_wf (structures
              (requestRedraw (updateStructureExtents
                 (set_structures (<[type s := <[name s := s]>
                                     (default ∅ (structures w2 !! type s))]> (structures w2))
                                 w2))))).
  { intros w2 Hwf2. cbn.
    match goal with
    | |- context [updateStructureExtents ?x] =>
        destruct (updateStructureExtents_frame x) as [-> _]
    end.
    cbn. apply registry_wf_install, Hwf2. }
  destruct (default ∅ (structures w1 !! type s) !! name s).
  - destruct b; cbn; [|exact Hwf1]. apply Hinstall, removeStructure_name_wf, Hwf1.
  - cbn. apply Hinstall, Hwf1.
Qed.

Lemma registry_wf_init : registry_wf (structures initWorld).
Proof.
  cbn. repeat apply registry_wf_insert_empty.
  intros ty sMap nm s Hty. rewrite lookup_empty in Hty. discriminate.
Qed.

Lemma elem_of_typesHolding nm w ty :
  ty ∈ typesHolding nm w <-> is_Some (findStructure ty nm w).
Proof.
  unfold typesHolding. rewrite list_elem_of_fmap. split.
  - intros ([ty' sMap] & -> & Hin). apply list_elem_of_filter in Hin as [Hh Hin].
    exact (holds_entries w nm ty' sMap Hin Hh).
  - intros [s Hs]. destruct (findStructure_entries w nm ty s Hs) as (sMap & Hin & Hl).
    exists (ty, sMap). split; [reflexivity|]. apply list_elem_of_filter.
    split; [unfold holds; cbn; eauto | exact Hin].
Qed.

Lemma registry_wf_sceneWorld : registry_wf (structures sceneWorld).
Proof. unfold sceneWorld. repeat apply registerStructure_wf. apply registry_wf_init. Qed.

Lemma removeStructure_name_exactly_one_witness :
  registry_wf (structures sceneWorld) /\
  removeStructure_name "nobody" sceneWorld = error (notFoundMsg "nobody") sceneWorld /\
  (exists ta tb, ta <> tb /\ is_Some (findStructure ta "bunny" sceneWorld) /\
                 is_Some (findStructure tb "bunny" sceneWorld) /\
                 removeStructure_name "bunny" sceneWorld
                 = error (ambiguousMsg ta tb) sceneWorld) /\
  findStructure "Point Cloud" "cow" (removeStructure_name "cow" sceneWorld) = None.
Proof.
  split; [exact registry_wf_sceneWorld|].
  split; [|split].
  - destruct (removeStructure_name_exactly_one sceneWorld "nobody" registry_wf_sceneWorld)
      as (Hnone & _).
    apply Hnone. intros ty.
    destruct (findStructure ty "nobody" sceneWorld) eqn:Hs; [|reflexivity].
    assert (Hin : ty ∈ typesHolding "nobody" sceneWorld)
      by (apply elem_of_typesHolding; eauto).
    vm_compute in Hin. inversion Hin.
  - destruct (removeStructure_name_exactly_one sceneWorld "bunny" registry_wf_sceneWorld)
      as (_ & Hmany & _).
    apply Hmany. exists "Point Cloud", "Surface Mesh".
    split; [discriminate|]. split; vm_compute; eauto.
  - destruct (removeStructure_name_exactly_one sceneWorld "cow" registry_wf_sceneWorld)
      as (_ & _ & Hone & _).
    destruct (Hone "Point Cloud" (sampleCloud 3 "cow")) as [_ Hfind].
    + vm_compute. reflexivity.
    + intros ty' Hty'. apply elem_of_typesHolding in Hty'.
      vm_compute in Hty'. apply list_elem_of_singleton in Hty'. exact Hty'.
    + rewrite Hfind. rewrite decide_True by auto. reflexivity.
Defined.

Lemma elem_of_allStructures reg s :
  s ∈ allStructures reg
  <-> exists ty sMap nm, reg !! ty = Some sMap /\ sMap !! nm = Some s.
Proof.
  unfold allStructures. rewrite list_elem_of_join. split.
  - intros (l & Hs & Hl). apply list_elem_of_fmap in Hl as ([ty sMap] & -> & Hin).
    cbn in Hs. apply list_elem_of_fmap in Hs as ([nm s'] & -> & Hin').
    exists ty, sMap, nm. split; apply elem_of_entries; assumption.
  - intros (ty & sMap & nm & Hty & Hs). exists (entries sMap).*2. split.
    + apply list_elem_of_fmap. exists (nm, s). split; [reflexivity | apply elem_of_entries, Hs].
    + apply list_elem_of_fmap. exists (ty, sMap). split; [reflexivity | apply elem_of_entries, Hty].
Qed.

Lemma registered_allStructures s w :
  registered s w <-> addr s ∈ addr <$> allStructures (structures w).
Proof.
  unfold registered. rewrite list_elem_of_fmap. split.
  - intros (ty & nm & s' & Hs' & Haddr). exists s'. split; [congruence|].
    apply elem_of_allStructures. unfold findStructure in Hs'.
    destruct (structures w !! ty) as [sMap|] eqn:Hty; [|discriminate]. eauto.
  - intros (s' & Haddr & Hin). apply elem_of_allStructures in Hin as (ty & sMap & nm & Hty & Hs).
    exists ty, nm, s'. split; [|congruence]. unfold findStructure. rewrite Hty. exact Hs.
Qed.


(** ** C8: removal and the pick selection *)

Lemma removeStructure_clears_pick ty nm b w s li d :
  findStructure ty nm w = Some s -> pickState w = Selected s li d ->
  pickState (removeStructure ty nm b w) = NoSelection.
Proof.
  intros Hs Hpick. unfold findStructure in Hs.
  destruct (structures w !! ty) as [sMap|] eqn:Hty; [|discriminate]. cbn in Hs.
  rewrite (removeStructure_found ty nm b w sMap s Hty Hs).
  match goal with
  | |- context [updateStructureExtents ?x] =>
      destruct (updateStructureExtents_frame x) as (_ & -> & _)
  end.
  cbn. unfold pick.clearPickIfStructureSelected. rewrite Hpick.
  rewrite decide_True by reflexivity. reflexivity.
Qed.

Lemma removeStructure_pickState ty nm b w :
  pickState (removeStructure ty nm b w) = pickState w \/
  pickState (removeStructure ty nm b w) = NoSelection.
Proof.
  destruct (structures w !! ty) as [sMap|] eqn:Hty.
  - destruct (sMap !! nm) as [s|] eqn:Hs.
    + rewrite (removeStructure_found ty nm b w sMap s Hty Hs).
      match goal with
      | |- context [updateStructureExtents ?x] =>
          destruct (updateStructureExtents_frame x) as (_ & -> & _)
      end.
      cbn. unfold pick.clearPickIfStructureSelected.
      repeat case_match; cbn; auto.
    + left. unfold removeStructure. rewrite Hty, Hs. destruct b; reflexivity.
  - left. unfold removeStructure. rewrite Hty. destruct b; reflexivity.
Qed.

Lemma removeStructure_absent ty nm b w :
  findStructure ty nm w = None ->
  structures (removeStructure ty nm b w) = structures w /\
  pickState (removeStructure ty nm b w) = pickState w.
Proof.
  unfold findStructure, removeStructure. intros Hs.
  destruct (structures w !! ty) as [sMap|] eqn:Hty; cbn in Hs.
  - rewrite Hs. destruct b; auto.
  - destruct b; auto.
Qed.

Lemma removeStructure_found_pick ty nm b w s :
  findStructure ty nm w = Some s ->
  pickState (removeStructure ty nm b w)
  = pickState (pick.clearPickIfStructureSelected s w).
Proof.
  intros Hs. unfold findStructure in Hs.
  destruct (structures w !! ty) as [sMap|] eqn:Hty; [|discriminate]. cbn in Hs.
  rewrite (removeStructure_found ty nm b w sMap s Hty Hs).
  match goal with
  | |- context [updateStructureExtents ?x] =>
      destruct (updateStructureExtents_frame x) as (_ & -> & _)
  end.
  reflexivity.
Qed.

Lemma removeStructure_pick_valid ty nm b w :
  registry_wf (structures w) -> pick_valid w -> pick_valid (removeStructure ty nm b w).
Proof.
  intros Hwf Hvalid.
  destruct (findStructure ty nm w) as [s|] eqn:Hs.
  - unfold pick_valid in *. rewrite (removeStructure_found_pick ty nm b w s Hs).
    unfold pick.clearPickIfStructureSelected.
    destruct (pickState w) as [|p li d] eqn:Hpick; [rewrite Hpick; exact I|].
    destruct (decide (addr p = addr s)) as [Heq|Hne]; [exact I|].
    rewrite Hpick. destruct Hvalid as (t & n & p' & Hp' & Haddr).
    exists t, n, p'. split; [|exact Haddr].
    rewrite (findStructure_removed ty nm b w s t n Hwf Hs).
    destruct (decide (t = ty /\ n = nm)) as [[-> ->]|_]; [|exact Hp'].
    exfalso. apply Hne. rewrite <- Haddr. congruence.
  - destruct (removeStructure_absent ty nm b w Hs) as [Hst Hpk].
    unfold pick_valid, registered, findStructure in *. rewrite Hpk, Hst. exact Hvalid.
Qed.

(** *** [removeAllStructures] empties every type map *)

Lemma lookup_foldl_delete {V} (names : list string) (m : gmap string V) k :
  foldl (fun m nm => delete nm m) m names !! k
  = if decide (k ∈ names) then None else m !! k.
Proof.
  revert m. induction names as [|nm names IH]; intros m; cbn.
  - rewrite decide_False by (apply not_elem_of_nil). reflexivity.
  - rewrite IH. destruct (decide (k = nm)) as [->|Hne].
    + rewrite lookup_delete_eq. rewrite (decide_True (P := nm ∈ nm :: names)) by left.
      destruct (decide (nm ∈ names)); reflexivity.
    + rewrite lookup_delete_ne by auto.
      destruct (decide (k ∈ names)) as [Hin|Hnin].
      * rewrite decide_True by (right; exact Hin). reflexivity.
      * rewrite decide_False; [reflexivity|].
        intros Hin. apply elem_of_cons in Hin as [?|?]; auto.
Qed.

Lemma delete_all_entries {V} (m : gmap string V) :
  foldl (fun m nm => delete nm m) m (entries m).*1 = ∅.
Proof.
  apply map_eq. intros k. rewrite lookup_foldl_delete, lookup_empty.
  destruct (decide (k ∈ (entries m).*1)) as [_|Hnin]; [reflexivity|].
  destruct (m !! k) as [v|] eqn:Hk; [|reflexivity].
  exfalso. apply Hnin, list_elem_of_fmap. exists (k, v).
  split; [reflexivity | apply elem_of_entries, Hk].
Qed.

Lemma remove_names_structures ty b names : forall w sMap,
  registry_wf (structures w) -> structures w !! ty = Some sMap ->
  NoDup names -> (forall nm, nm ∈ names -> is_Some (sMap !! nm)) ->
  let w' := foldl (fun w nm => removeStructure ty nm b w) w names in
  structures w' = <[ty := foldl (fun m nm => delete nm m) sMap names]> (structures w) /\
  registry_wf (structures w').
Proof.
  induction names as [|nm names IH]; intros w sMap Hwf Hty Hnd Hin; cbn.
  - split; [symmetry; apply insert_id, Hty | exact Hwf].
  - apply NoDup_cons in Hnd as [Hnm Hnd].
    destruct (Hin nm) as [s Hs]; [left|].
    destruct (Hwf ty sMap nm s Hty Hs) as [_ Hname].
    pose proof (removeStructure_structures ty nm b w sMap s Hty Hs) as Hst.
    rewrite Hname in Hst.
    destruct (IH (removeStructure ty nm b w) (delete nm sMap)) as [Hst' Hwf'].
    + apply removeStructure_wf, Hwf.
    + rewrite Hst. apply lookup_insert_eq.
    + exact Hnd.
    + intros nm' Hin'. rewrite lookup_delete_ne by (intros ->; contradiction).
      apply Hin. right. exact Hin'.
    + split; [|exact Hwf']. rewrite Hst', Hst. apply insert_insert_eq.
Qed.

(** One turn of the outer loop of [removeAllStructures]. *)
Lemma remove_type_structures ty w :
  registry_wf (structures w) -> is_Some (structures w !! ty) ->
  let names := (entries (default ∅ (structures w !! ty))).*1 in
  let w' := foldl (fun w nm => removeStructure ty nm errorIfAbsent_default w) w names in
  structures w' = <[ty := ∅]> (structures w) /\ registry_wf (structures w').
Proof.
  intros Hwf [sMap Hty]. rewrite Hty. cbn.
  destruct (remove_names_structures ty errorIfAbsent_default (entries sMap).*1 w sMap Hwf Hty)
    as [Hst Hwf'].
  - apply NoDup_fst_entries.
  - intros nm Hin. apply list_elem_of_fmap in Hin as ([nm' s] & -> & Hin).
    apply elem_of_entries in Hin. eauto.
  - split; [|exact Hwf']. rewrite Hst, delete_all_entries. reflexivity.
Qed.

Lemma remove_types_structures tys : forall w,
  registry_wf (structures w) -> (forall ty, ty ∈ tys -> is_Some (structures w !! ty)) ->
  let w' := foldl (fun w ty =>
                     let names := (entries (default ∅ (structures w !! ty))).*1 in
                     foldl (fun w nm => removeStructure ty nm errorIfAbsent_default w) w names)
                  w tys in
  (forall t, structures w' !! t = if decide (t ∈ tys) then Some ∅ else structures w !! t) /\
  registry_wf (structures w').
Proof.
  induction tys as [|ty tys IH]; intros w Hwf Hdom; cbn.
  - split; [|exact Hwf].
    intros t. rewrite decide_False by (apply not_elem_of_nil). reflexivity.
  - destruct (remove_type_structures ty w Hwf) as [Hst Hwf']; [apply Hdom; left|].
    cbn in Hst, Hwf'.
    match goal with
    | |- context [foldl ?f ?w1 tys] => destruct (IH w1) as [Hlook Hwf'']
    end.
    + exact Hwf'.
    + intros ty' Hin'. rewrite Hst. destruct (decide (ty' = ty)) as [->|Hne].
      * rewrite lookup_insert_eq. eauto.
      * rewrite lookup_insert_ne by auto. apply Hdom. right. exact Hin'.
    + split; [|exact Hwf'']. intros t. rewrite Hlook, Hst.
      destruct (decide (t ∈ tys)) as [Hin|Hnin].
      * rewrite decide_True by (right; exact Hin). reflexivity.
      * destruct (decide (t = ty)) as [->|Hne].
        -- rewrite lookup_insert_eq, decide_True by left. reflexivity.
        -- rewrite lookup_insert_ne by auto. rewrite decide_False; [reflexivity|].
           intros Hin. apply elem_of_cons in Hin as [?|?]; auto.
Qed.

Lemma removeAllStructures_empties w ty nm :
  registry_wf (structures w) -> findStructure ty nm (removeAllStructures w) = None.
Proof.
  intros Hwf. unfold removeAllStructures, findStructure. cbn.
  destruct (remove_types_structures (entries (structures w)).*1 w Hwf) as [Hlook _].
  - intros ty' Hin. apply list_elem_of_fmap in Hin as ([ty'' sMap] & -> & Hin).
    apply elem_of_entries in Hin. eauto.
  - cbn in Hlook. rewrite Hlook.
    destruct (decide (ty ∈ (entries (structures w)).*1)) as [_|Hnin]; [reflexivity|].
    destruct (structures w !! ty) as [sMap|] eqn:Hty; [|reflexivity].
    exfalso. apply Hnin, list_elem_of_fmap. exists (ty, sMap).
    split; [reflexivity | apply elem_of_entries, Hty].
Qed.



(** ** C5: extents *)

Lemma foldl_mjoin {A B} (f : B -> A -> B) (ls : list (list A)) (acc : B) :
  foldl f acc (mjoin ls) = foldl (fun acc l => foldl f acc l) acc ls.
Proof.
  revert acc. induction ls as [|l ls IH]; intros acc; cbn; [reflexivity|].
  rewrite foldl_app. apply IH.
Qed.

Lemma extentsLoop_flat reg acc :
  extentsLoop reg acc
  = foldl (fun acc s => extentsStep acc (name s, s)) acc (allStructures reg).
Proof.
  unfold extentsLoop, allStructures. rewrite foldl_mjoin.
  generalize (entries reg). intros l. revert acc.
  induction l as [|cat l IH]; intros acc; cbn; [reflexivity|].
  rewrite <- IH. f_equal.
  generalize (entries cat.2). clear. intros l. revert acc.
  induction l as [|x l IH]; intros acc; cbn; [reflexivity|].
  rewrite <- IH. destruct acc as [[ls mn] mx]. reflexivity.
Qed.

Lemma extentsStep_folds (all : list Structure) ls mn mx :
  foldl (fun acc s => extentsStep acc (name s, s)) (ls, mn, mx) all
  = (foldl std_max ls (lengthScale <$> all),
     foldl componentwiseMin mn ((fun s => (boundingBox s).1) <$> all),
     foldl componentwiseMax mx ((fun s => (boundingBox s).2) <$> all)).
Proof.
  revert ls mn mx. induction all as [|s all IH]; intros ls mn mx; cbn; [reflexivity|].
  apply IH.
Qed.

Lemma updateStructureExtents_spec w :
  extents (updateStructureExtents w) = updateExtents_spec (structures w).
Proof.
  unfold updateStructureExtents, updateExtents_spec.
  rewrite extentsLoop_flat, extentsStep_folds.
  change (glm.mul_vs glm.ones F32.infinity) with infBox.1.
  change (glm.mul_vs (glm.neg glm.ones) F32.infinity) with infBox.2.
  fold (foldedLengthScale (allStructures (structures w))).
  change (foldl componentwiseMin infBox.1 _, foldl componentwiseMax infBox.2 _)
    with (foldedBox (allStructures (structures w))) at 1.
  set (all := allStructures (structures w)).
  change (foldl componentwiseMin infBox.1 ((fun s => (boundingBox s).1) <$> all))
    with (foldedBox all).1.
  change (foldl componentwiseMax infBox.2 ((fun s => (boundingBox s).2) <$> all))
    with (foldedBox all).2.
  destruct (isFinite (foldedBox all).1); destruct (isFinite (foldedBox all).2); cbn [negb orb andb];
    try (change (glm.neg glm.ones, glm.ones) with unitBox);
    try (rewrite <- (surjective_pairing (foldedBox all)));
    reflexivity.
Qed.

(** The single-precision [2*sqrt(3)] is [sqrt(12)] rounded to nearest: with
    mantissa [m = 14529495] and exponent [-22], half an ulp on either side
    brackets the real square root of 12. *)
Lemma two_sqrt3_rounds_sqrt12 :
  two_sqrt3 = S754_finite false 14529495 (-22) /\
  (2 * 14529495 - 1) ^ 2 < 12 * 2 ^ 46 < (2 * 14529495 + 1) ^ 2.
Proof. split; [reflexivity | lia]. Qed.

(** Conversion to double keeps the value; the double-precision product
    [2.0 * sqrt(3.0)] is a different, slightly larger number. *)
Example two_sqrt3_as_double :
  F64.of_float two_sqrt3 = S754_finite false (14529495 * 2 ^ 29) (-22 - 29) /\
  SFcompare (F64.of_float two_sqrt3) (F64.mul (F64.of_Z 2) (F64.sqrt (F64.of_Z 3))) = Some Lt.
Proof. split; reflexivity. Qed.

Lemma allStructures_nil w :
  (forall ty nm, findStructure ty nm w = None) -> allStructures (structures w) = [].
Proof.
  intros Hnone. destruct (allStructures (structures w)) as [|s l] eqn:Hall; [reflexivity|].
  assert (Hin : s ∈ allStructures (structures w)) by (rewrite Hall; left).
  apply elem_of_allStructures in Hin as (ty & sMap & nm & Hty & Hs).
  specialize (Hnone ty nm). unfold findStructure in Hnone. rewrite Hty in Hnone.
  cbn in Hnone. congruence.
Qed.

(** *** The IEEE comparison is a strict order on the numbers *)

Ltac sf_order :=
  unfold SFltb, SFcompare; cbn;
  repeat match goal with
         | |- context [Z.compare ?x ?y] => destruct (Z.compare_spec x y); subst
         | |- context [Pos.compare_cont Eq ?x ?y] =>
             change (Pos.compare_cont Eq x y) with (Pos.compare x y);
             destruct (Pos.compare_spec x y); subst
         end; cbn; try congruence; try lia.

Lemma SFltb_trans a b c :
  SFltb a b = true -> SFltb b c = true -> SFltb a c = true.
Proof.
  destruct a as [sa|sa| |sa ma ea], b as [sb|sb| |sb mb eb], c as [sc|sc| |sc mc ec];
    try destruct sa; try destruct sb; try destruct sc; try (cbn; congruence); sf_order.
Qed.

Lemma SFltb_neg_trans a b c :
  b <> S754_nan -> SFltb a b = false -> SFltb b c = false -> SFltb a c = false.
Proof.
  destruct a as [sa|sa| |sa ma ea], b as [sb|sb| |sb mb eb], c as [sc|sc| |sc mc ec];
    try destruct sa; try destruct sb; try destruct sc; try (cbn; congruence); sf_order.
Qed.

Lemma SFltb_irrefl a : SFltb a a = false.
Proof. destruct a as [sa|sa| |sa ma ea]; try destruct sa; try reflexivity; sf_order. Qed.

Lemma SFltb_not_nan a b : SFltb a b = true -> a <> S754_nan /\ b <> S754_nan.
Proof. destruct a, b; cbn; try discriminate; split; discriminate. Qed.

(** *** The folds compute the greatest and the least *)

Lemma foldl_std_max_greatest xs : forall init,
  init <> S754_nan -> greatestOf init (foldl std_max init xs) xs.
Proof.
  induction xs as [|x xs IH]; intros init Hinit; cbn [foldl].
  - split; [exact Hinit|]. split; [apply SFltb_irrefl|].
    split; [intros x Hx; inversion Hx | left; reflexivity].
  - unfold std_max at 2. destruct (SFltb init x) eqn:Hlt.
    + destruct (SFltb_not_nan _ _ Hlt) as [_ Hx].
      destruct (IH x Hx) as (Hnan & Hge & Hall & Hin).
      split; [exact Hnan|]. split; [|split].
      * destruct (SFltb (foldl std_max x xs) init) eqn:Hbelow; [|reflexivity].
        rewrite (SFltb_trans _ _ _ Hbelow Hlt) in Hge. discriminate.
      * intros y Hy. apply elem_of_cons in Hy as [->|Hy]; [exact Hge | apply Hall, Hy].
      * right. destruct Hin as [->|Hin]; [left | right; exact Hin].
    + destruct (IH init Hinit) as (Hnan & Hge & Hall & Hin).
      split; [exact Hnan|]. split; [exact Hge|]. split.
      * intros y Hy. apply elem_of_cons in Hy as [->|Hy]; [|apply Hall, Hy].
        exact (SFltb_neg_trans _ init _ Hinit Hge Hlt).
      * destruct Hin as [->|Hin]; [left; reflexivity | right; right; exact Hin].
Qed.

Lemma foldl_std_min_least xs : forall init,
  init <> S754_nan -> leastOf init (foldl std_min init xs) xs.
Proof.
  induction xs as [|x xs IH]; intros init Hinit; cbn [foldl].
  - split; [exact Hinit|]. split; [apply SFltb_irrefl|].
    split; [intros x Hx; inversion Hx | left; reflexivity].
  - unfold std_min at 2. destruct (SFltb x init) eqn:Hlt.
    + destruct (SFltb_not_nan _ _ Hlt) as [Hx _].
      destruct (IH x Hx) as (Hnan & Hle & Hall & Hin).
      split; [exact Hnan|]. split; [|split].
      * destruct (SFltb init (foldl std_min x xs)) eqn:Habove; [|reflexivity].
        rewrite (SFltb_trans _ _ _ Hlt Habove) in Hle. discriminate.
      * intros y Hy. apply elem_of_cons in Hy as [->|Hy]; [exact Hle | apply Hall, Hy].
      * right. destruct Hin as [->|Hin]; [left | right; exact Hin].
    + destruct (IH init Hinit) as (Hnan & Hle & Hall & Hin).
      split; [exact Hnan|]. split; [exact Hle|]. split.
      * intros y Hy. apply elem_of_cons in Hy as [->|Hy]; [|apply Hall, Hy].
        exact (SFltb_neg_trans _ init _ Hinit Hlt Hle).
      * destruct Hin as [->|Hin]; [left; reflexivity | right; right; exact Hin].
Qed.

Lemma foldl_componentwiseMin (corners : list vec3) : forall acc,
  foldl componentwiseMin acc corners
  = Vec3 (foldl std_min (vx acc) (vx <$> corners))
         (foldl std_min (vy acc) (vy <$> corners))
         (foldl std_min (vz acc) (vz <$> corners)).
Proof.
  induction corners as [|v corners IH]; intros acc; cbn; [destruct acc; reflexivity|].
  rewrite IH. reflexivity.
Qed.

Lemma foldl_componentwiseMax (corners : list vec3) : forall acc,
  foldl componentwiseMax acc corners
  = Vec3 (foldl std_max (vx acc) (vx <$> corners))
         (foldl std_max (vy acc) (vy <$> corners))
         (foldl std_max (vz acc) (vz <$> corners)).
Proof.
  induction corners as [|v corners IH]; intros acc; cbn; [destruct acc; reflexivity|].
  rewrite IH. reflexivity.
Qed.

Lemma isfinite_finiteNumber x : isfinite x = true <-> finiteNumber x.
Proof.
  unfold finiteNumber. destruct x as [s|s| |s m e]; cbn; split; intros H;
    try reflexivity; try discriminate; try (repeat split; discriminate).
  - destruct s; destruct H as (_ & H1 & H2); [contradiction H2 | contradiction H1]; reflexivity.
  - destruct H as [H _]. contradiction H. reflexivity.
Qed.

Lemma isFinite_finiteNumber v :
  isFinite v = true <-> finiteNumber (vx v) /\ finiteNumber (vy v) /\ finiteNumber (vz v).
Proof.
  unfold isFinite. rewrite !andb_true_iff, !isfinite_finiteNumber. tauto.
Qed.

Lemma finite_corners mn mx :
  Forall finiteNumber [vx mn; vy mn; vz mn; vx mx; vy mx; vz mx]
  <-> isFinite mn = true /\ isFinite mx = true.
Proof.
  rewrite !Forall_cons, Forall_nil, !isFinite_finiteNumber. tauto.
Qed.

Lemma folded_corner_least (proj : vec3 -> spec_float) (all : list Structure) init :
  init <> S754_nan ->
  leastOf init (foldl std_min init (proj <$> ((fun s => (boundingBox s).1) <$> all)))
          ((fun s => proj (boundingBox s).1) <$> all).
Proof.
  intros Hinit. rewrite <- list_fmap_compose. apply foldl_std_min_least, Hinit.
Qed.

Lemma folded_corner_greatest (proj : vec3 -> spec_float) (all : list Structure) init :
  init <> S754_nan ->
  greatestOf init (foldl std_max init (proj <$> ((fun s => (boundingBox s).2) <$> all)))
             ((fun s => proj (boundingBox s).2) <$> all).
Proof.
  intros Hinit. rewrite <- list_fmap_compose. apply foldl_std_max_greatest, Hinit.
Qed.

(** C5 (amended): [updateStructureExtents] in IEEE terms.  The length scale
    is the greatest of 0 and the structures' length scales, and each
    coordinate of the box corners the least, respectively the greatest, of
    the structures' corners, by the IEEE comparison (a NaN takes no part).
    If one of the six folded coordinates is not finite the box is the unit
    box.  A folded length scale equal to zero is replaced by the diagonal of
    the final box, and the center is the midpoint of the final box, both as
    the single-precision formulas compute them, rounding (and overflowing)
    at each operation; the diagonal is then converted to double.  Nothing
    but the extents changes.  With no structure registered the box is the
    unit box, the center the origin, and the length scale the
    single-precision 2*sqrt(3), 14529495 * 2^-22, as a double. *)
Theorem updateStructureExtents_in_single_precision (w : World) :
  let all := allStructures (structures w) in
  let e := extents (updateStructureExtents w) in
  let lo := (ext_boundingBox e).1 in
  let hi := (ext_boundingBox e).2 in
  (exists ls mn mx,
     greatestOf (S754_zero false) ls (lengthScale <$> all) /\
     leastOf (S754_infinity false) (vx mn) ((fun s => vx (boundingBox s).1) <$> all) /\
     leastOf (S754_infinity false) (vy mn) ((fun s => vy (boundingBox s).1) <$> all) /\
     leastOf (S754_infinity false) (vz mn) ((fun s => vz (boundingBox s).1) <$> all) /\
     greatestOf (S754_infinity true) (vx mx) ((fun s => vx (boundingBox s).2) <$> all) /\
     greatestOf (S754_infinity true) (vy mx) ((fun s => vy (boundingBox s).2) <$> all) /\
     greatestOf (S754_infinity true) (vz mx) ((fun s => vz (boundingBox s).2) <$> all) /\
     (Forall finiteNumber [vx mn; vy mn; vz mn; vx mx; vy mx; vz mx] ->
      lo = mn /\ hi = mx) /\
     (~ Forall finiteNumber [vx mn; vy mn; vz mn; vx mx; vy mx; vz mx] ->
      lo = Vec3 minusOne32 minusOne32 minusOne32 /\ hi = Vec3 one32 one32 one32) /\
     ext_lengthScale e
     = if SFeqb ls (S754_zero false)
       then F64.of_float (euclidean32 (SFsub 24 128 (vx hi) (vx lo))
                                      (SFsub 24 128 (vy hi) (vy lo))
                                      (SFsub 24 128 (vz hi) (vz lo)))
       else ls) /\
  ext_center e = Vec3 (midpoint32 (vx lo) (vx hi)) (midpoint32 (vy lo) (vy hi))
                      (midpoint32 (vz lo) (vz hi)) /\
  structures (updateStructureExtents w) = structures w /\
  pickState (updateStructureExtents w) = pickState w /\
  ((forall ty nm, findStructure ty nm w = None) ->
   ext_lengthScale e = S754_finite false 7800463231549440 (-51) /\
   lo = Vec3 minusOne32 minusOne32 minusOne32 /\ hi = Vec3 one32 one32 one32 /\
   ext_center e = Vec3 (S754_zero false) (S754_zero false) (S754_zero false)).
Proof.
  intros all e lo hi.
  assert (He : e = updateExtents_spec (structures w)) by apply updateStructureExtents_spec.
  unfold updateExtents_spec in He. fold all in He. cbv zeta in He.
  set (fls := foldedLengthScale all) in He.
  set (fb := foldedBox all) in He.
  assert (Hmn : fb.1 = foldl componentwiseMin infBox.1 ((fun s => (boundingBox s).1) <$> all))
    by reflexivity.
  assert (Hmx : fb.2 = foldl componentwiseMax infBox.2 ((fun s => (boundingBox s).2) <$> all))
    by reflexivity.
  rewrite foldl_componentwiseMin in Hmn. rewrite foldl_componentwiseMax in Hmx.
  split; [|split; [|split; [|split]]].
  - exists fls, fb.1, fb.2.
    split; [apply (foldl_std_max_greatest (lengthScale <$> all) (S754_zero false)); discriminate|].
    split; [rewrite Hmn; apply (folded_corner_least vx); discriminate|].
    split; [rewrite Hmn; apply (folded_corner_least vy); discriminate|].
    split; [rewrite Hmn; apply (folded_corner_least vz); discriminate|].
    split; [rewrite Hmx; apply (folded_corner_greatest vx); discriminate|].
    split; [rewrite Hmx; apply (folded_corner_greatest vy); discriminate|].
    split; [rewrite Hmx; apply (folded_corner_greatest vz); discriminate|].
    clear Hmn Hmx. rewrite finite_corners.
    subst lo hi. rewrite He.
    destruct (isFinite fb.1) eqn:H1, (isFinite fb.2) eqn:H2; cbn [andb ext_boundingBox ext_lengthScale].
    all: split; [intros [? ?]; try discriminate; split; reflexivity|].
    all: split; [intros Hnot; try (exfalso; apply Hnot; split; reflexivity); split; reflexivity|].
    all: reflexivity.
  - subst lo hi. rewrite He. reflexivity.
  - apply updateStructureExtents_frame.
  - apply updateStructureExtents_frame.
  - intros Hnone. subst lo hi. rewrite He. subst fls fb all.
    rewrite (allStructures_nil w Hnone). repeat split; vm_compute; reflexivity.
Qed.

Lemma updateStructureExtents_in_single_precision_witness :
  ext_center (extents (updateStructureExtents triangleScene))
  = Vec3 (S754_finite false 12582912 (-23)) (F32.of_Z 2) (S754_zero false) /\
  ext_lengthScale (extents (updateStructureExtents triangleScene)) = F64.of_Z 5.
Proof.
  pose proof (updateStructureExtents_in_single_precision triangleScene) as Hext.
  cbv zeta in Hext.
  destruct Hext as ((ls & mn & mx & Hls & _ & _ & _ & _ & _ & _ & _ & _ & Hscale) & Hcenter & _).
  assert (Hzero : ls = S754_zero false).
  { destruct Hls as (_ & _ & _ & [H|H]); [exact H|].
    replace (lengthScale <$> allStructures (structures triangleScene))
      with [S754_zero false] in H by (vm_compute; reflexivity).
    rewrite elem_of_cons, elem_of_nil in H. destruct H as [H|[]]. exact H. }
  rewrite Hzero in Hscale. split.
  - rewrite Hcenter. vm_compute. reflexivity.
  - rewrite Hscale. vm_compute. reflexivity.
Defined.

(** C5 as stated fails in two places.  On the empty registry the length
    scale is not the double [2*sqrt(3)]: it is the single-precision value,
    which lies more than half a unit in the last place of a double below the
    real number, whereas the double product lies within.  And for a finite
    box from 2^127 to 1.5 * 2^127 whose structure reports no length scale,
    the center is not the midpoint and the length scale not the diagonal:
    both are infinite, the center beyond the upper corner. *)
Lemma extents_claim_fails_in_single_precision :
  allStructures (structures initWorld) = [] /\
  ext_lengthScale (extents (updateStructureExtents initWorld))
  = S754_finite false 7800463231549440 (-51) /\
  F64.mul (F64.of_Z 2) (F64.sqrt (F64.of_Z 3)) = S754_finite false 7800463371553962 (-51) /\
  SFeqb (ext_lengthScale (extents (updateStructureExtents initWorld)))
        (F64.mul (F64.of_Z 2) (F64.sqrt (F64.of_Z 3))) = false /\
  (2 * 7800463231549440 + 1) ^ 2 < 12 * 2 ^ 104 < (2 * 7800463371553962 + 1) ^ 2 /\
  (2 * 7800463371553962 - 1) ^ 2 < 12 * 2 ^ 104 /\
  ext_boundingBox (extents (updateStructureExtents largeScene))
  = (largeCorner 8388608, largeCorner 12582912) /\
  ext_center (extents (updateStructureExtents largeScene))
  = Vec3 (S754_infinity false) (S754_infinity false) (S754_infinity false) /\
  SFltb (vx (ext_boundingBox (extents (updateStructureExtents largeScene))).2)
        (vx (ext_center (extents (updateStructureExtents largeScene)))) = true /\
  ext_lengthScale (extents (updateStructureExtents largeScene)) = S754_infinity false.
Proof.
  split; [vm_compute; reflexivity|].
  split; [vm_compute; reflexivity|].
  split; [vm_compute; reflexivity|].
  split; [vm_compute; reflexivity|].
  split; [lia|]. split; [lia|].
  repeat split; vm_compute; reflexivity.
Qed.


(** ** C2: registration with replace *)

(** Where the name is used by one type only, the replace path does remove
    the old entry first: it is deleted, a selection of it is cleared, and the
    new structure takes its place. *)
Lemma registerStructure_replace_unique w s old :
  registry_wf (structures w) ->
  findStructure (type s) (name s) w = Some old ->
  (forall ty', is_Some (findStructure ty' (name s) w) -> ty' = type s) ->
  let result := registerStructure s true w in
  result.1 = true /\
  findStructure (type s) (name s) result.2 = Some s /\
  trace result.2 = trace w ++ [EvDelete (addr old)] /\
  pickState result.2 = pickState (pick.clearPickIfStructureSelected old w) /\
  redrawNextFrame result.2 = true /\
  extents result.2 = updateExtents_spec (structures result.2).
Proof.
  intros Hwf Hold Huniq.
  pose proof (removeStructure_name_unique w (name s) (type s) old Hwf Hold Huniq) as Hrm.
  pose proof (removeStructure_found_pick (type s) (name s) true w old Hold) as Hpick.
  unfold findStructure in Hold.
  destruct (structures w !! type s) as [sMap|] eqn:Hty; [|discriminate]. cbn in Hold.
  pose proof (removeStructure_found (type s) (name s) true w sMap old Hty Hold) as Hfound.
  unfold registerStructure. cbv zeta. rewrite Hty. cbv beta iota. rewrite !Hty.
  cbn [default from_option id]. rewrite Hold, Hrm.
  cbn [fst snd].
  set (w2 := requestRedraw (removeStructure (type s) (name s) true w)).
  set (w3 := set_structures _ w2).
  destruct (updateStructureExtents_frame w3) as (Hst & Hpk & Htr & _ & _).
  split; [reflexivity|].
  split; [|split; [|split; [|split]]].
  - unfold findStructure. cbn [structures requestRedraw set_redrawNextFrame].
    rewrite Hst. subst w3. cbn [structures set_structures].
    rewrite lookup_insert_eq. cbn. apply lookup_insert_eq.
  - cbn [trace requestRedraw set_redrawNextFrame]. rewrite Htr.
    subst w3 w2. cbn [trace set_structures requestRedraw set_redrawNextFrame].
    rewrite Hfound.
    match goal with
    | |- context [updateStructureExtents ?x] =>
        destruct (updateStructureExtents_frame x) as (_ & _ & -> & _)
    end.
    cbn. unfold pick.clearPickIfStructureSelected. repeat case_match; reflexivity.
  - cbn [pickState requestRedraw set_redrawNextFrame]. rewrite Hpk.
    subst w3 w2. cbn [pickState set_structures requestRedraw set_redrawNextFrame].
    exact Hpick.
  - reflexivity.
  - cbn [extents structures requestRedraw set_redrawNextFrame].
    rewrite Hst. apply updateStructureExtents_spec.
Qed.

(** C2 (as the code behaves): the replace path calls the type-inferred
    [removeStructure(name)].  In a registry where a point cloud and a mesh
    are both called "bunny" and the point cloud is the selection, registering
    a new point cloud "bunny" with [replaceIfPresent = true] returns true,
    but the removal only reports the ambiguity: the old point cloud is never
    deleted, the new one is written over it, and the selection is left
    referring to the old one, which is no longer registered. *)
Theorem registerStructure_replace_ambiguous :
  let s := sampleCloud 4 "bunny" in
  let old := sampleCloud 1 "bunny" in
  let result := registerStructure s true sceneWithPick in
  findStructure "Point Cloud" "bunny" sceneWithPick = Some old /\
  findStructure "Surface Mesh" "bunny" sceneWithPick = Some (sampleMesh 2 "bunny") /\
  result.1 = true /\
  trace result.2
  = trace sceneWithPick ++ [EvError (ambiguousMsg "Point Cloud" "Surface Mesh")] /\
  findStructure "Point Cloud" "bunny" result.2 = Some s /\
  pickState result.2 = Selected old 7 false /\
  ~ registered old result.2.
Proof.
  cbv zeta. repeat split; try (vm_compute; reflexivity).
  rewrite registered_allStructures.
  replace (addr <$> allStructures _) with [4; 3; 2]%positive by (vm_compute; reflexivity).
  rewrite !elem_of_cons, elem_of_nil. intros [H|[H|[H|[]]]]; discriminate.
Qed.

(** ** C6: the context stack *)

Section TraceSegments.
Variable P : list Event -> Prop.
Hypothesis P_nil : P [].
Hypothesis P_app : forall a b, P a -> P b -> P (a ++ b).

Lemma emits_same w w' : trace w' = trace w -> emits P w w'.
Proof. intros H. exists []. rewrite app_nil_r. auto. Qed.

Lemma emits_trans w1 w2 w3 : emits P w1 w2 -> emits P w2 w3 -> emits P w1 w3.
Proof.
  intros (s1 & H1 & Hp1) (s2 & H2 & Hp2). exists (s1 ++ s2).
  rewrite H2, H1, app_assoc. auto.
Qed.

Lemma emits_foldl {A} (f : World -> A -> World) l :
  (forall w x, emits P w (f w x)) -> forall w, emits P w (foldl f w l).
Proof.
  intros Hf. induction l as [|x l IH]; intros w; cbn.
  - apply emits_same. reflexivity.
  - eapply emits_trans; [apply Hf | apply IH].
Qed.
End TraceSegments.

Lemma plain_app a b : plain a -> plain b -> plain (a ++ b).
Proof. apply Forall_app_2. Qed.

Lemma nested_app a b : nested a -> nested b -> nested (a ++ b).
Proof.
  induction 1 as [|e tr He _ IH|c inner tr Hin _ _ IH]; intros Hb; cbn.
  - exact Hb.
  - apply nested_event; auto.
  - rewrite <- app_assoc. cbn. apply nested_call; auto.
Qed.

Lemma plain_nested seg : plain seg -> nested seg.
Proof. induction 1; [apply nested_nil | apply nested_event; assumption]. Qed.

Lemma emits_plain_nested w w' : emits plain w w' -> emits nested w w'.
Proof. intros (seg & H & Hp). exists seg. split; [exact H | apply plain_nested, Hp]. Qed.

Lemma emits_plain_same w w' : trace w' = trace w -> emits plain w w'.
Proof. apply emits_same. constructor. Qed.

Lemma emits_plain_trans w1 w2 w3 : emits plain w1 w2 -> emits plain w2 w3 -> emits plain w1 w3.
Proof. apply emits_trans, plain_app. Qed.

Lemma emits_plain_one e w w' :
  isContextEvent e = false -> trace w' = trace w ++ [e] -> emits plain w w'.
Proof. intros He H. exists [e]. split; [exact H | repeat constructor; exact He]. Qed.

Lemma error_plain msg w : emits plain w (error msg w).
Proof. apply (emits_plain_one (EvError msg)); reflexivity. Qed.

Lemma updateStructureExtents_plain w : emits plain w (updateStructureExtents w).
Proof. apply emits_plain_same. apply (updateStructureExtents_frame w). Qed.

Lemma removeStructure_plain ty nm b w : emits plain w (removeStructure ty nm b w).
Proof.
  destruct (structures w !! ty) as [sMap|] eqn:Hty.
  - destruct (sMap !! nm) as [s|] eqn:Hs.
    + rewrite (removeStructure_found ty nm b w sMap s Hty Hs).
      eapply emits_plain_trans; [|apply updateStructureExtents_plain].
      apply (emits_plain_one (EvDelete (addr s))); [reflexivity|].
      cbn. unfold pick.clearPickIfStructureSelected. repeat case_match; reflexivity.
    + unfold removeStructure. rewrite Hty, Hs.
      destruct b; [apply error_plain | apply emits_plain_same; reflexivity].
  - unfold removeStructure. rewrite Hty.
    destruct b; [apply error_plain | apply emits_plain_same; reflexivity].
Qed.

Lemma removeStructure_name_plain nm w : emits plain w (removeStructure_name nm w).
Proof.
  unfold removeStructure_name.
  destruct (scanTypes nm (entries (structures w)) None) as [msg|[t|]];
    try apply error_plain.
  eapply emits_plain_trans; [apply removeStructure_plain|].
  apply emits_plain_same. reflexivity.
Qed.

Lemma removeAllStructures_plain w : emits plain w (removeAllStructures w).
Proof.
  unfold removeAllStructures.
  eapply emits_plain_trans; [|apply emits_plain_same; reflexivity].
  apply (emits_foldl plain ltac:(constructor) plain_app). intros w1 ty.
  apply (emits_foldl plain ltac:(constructor) plain_app). intros w2 nm.
  apply removeStructure_plain.
Qed.

Lemma registerStructure_plain s b w : emits plain w (registerStructure s b w).2.
Proof.
  unfold registerStructure.
  set (w1 := match structures w !! type s with
             | None => set_structures (<[type s := ∅]> (structures w)) w
             | Some _ => w
             end).
  assert (H1 : emits plain w w1).
  { apply emits_plain_same. subst w1. destruct (structures w !! type s); reflexivity. }
  assert (Hinstall : forall w2 st, emits plain w2
            (requestRedraw (updateStructureExtents (set_structures st w2)))).
  { intros w2 st. apply emits_plain_same. cbn.
    destruct (updateStructureExtents_frame (set_structures st w2)) as (_ & _ & -> & _).
    reflexivity. }
  eapply emits_plain_trans; [exact H1|].
  destruct (default ∅ (structures w1 !! type s) !! name s); cbn.
  - destruct b; cbn; [|apply error_plain].
    eapply emits_plain_trans; [apply removeStructure_name_plain | apply Hinstall].
  - apply Hinstall.
Qed.

Lemma popContext_plain w w' : popContext w = Some w' -> emits plain w w'.
Proof.
  unfold popContext. intros H. apply bind_Some in H as (v & _ & H). injection H as <-.
  destruct (length (contextStack w) =? 1)%nat;
    [apply (emits_plain_one (EvError tooManyPopsMsg)) | apply emits_plain_same]; reflexivity.
Qed.

Lemma drawScene_plain w : emits plain w (drawScene w).
Proof.
  exists (if redrawNextFrame w || alwaysRedraw w then [EvDrawStructures] else []).
  split; [apply drawScene_trace|].
  destruct (redrawNextFrame w || alwaysRedraw w); repeat constructor.
Qed.

Lemma buildPolyscopeGui_plain w : emits plain w (buildPolyscopeGui w).
Proof.
  unfold buildPolyscopeGui, screenshot.
  destruct (screenshotClicked (frame w)); [|apply emits_plain_same; reflexivity].
  eapply emits_plain_trans; [|apply emits_plain_same; reflexivity].
  eapply emits_plain_trans; [|apply drawScene_plain].
  apply emits_plain_same. reflexivity.
Qed.

(** The mouse handler touches neither the context stack nor the trace. *)
Lemma processMouseEvents_frame w :
  contextStack (processMouseEvents w) = contextStack w /\
  trace (processMouseEvents w) = trace w /\
  nextContext (processMouseEvents w) = nextContext w.
Proof.
  unfold processMouseEvents.
  repeat match goal with
         | |- context [let '(_, _) := ?x in _] => destruct x eqn:?
         end.
  unfold pick.evaluatePickQuery, pick.setCurrentPickElement.
  repeat case_match; simplify_eq; cbn; auto.
Qed.

Lemma mainLoopIterationG_unfold push w :
  mainLoopIterationG push w = draw push true (beforeDraw w).
Proof. reflexivity. Qed.

Lemma beforeDraw_frame w :
  contextStack (beforeDraw w) = contextStack w /\
  trace (beforeDraw w) = trace w ++ [EvIteration (length (contextStack w))] /\
  nextContext (beforeDraw w) = nextContext w.
Proof.
  unfold beforeDraw.
  set (w0 := set_trace _ w).
  destruct (processMouseEvents_frame (updateViewSize (pollInput w0))) as (-> & -> & ->).
  unfold updateViewSize, pollInput. case_match; cbn; auto.
Qed.

Section Reentrancy.
Variable push : option Callback -> World -> option World.
Hypothesis push_nested : forall cb w w', push cb w = Some w' -> emits nested w w'.

Lemma emits_nested_trans w1 w2 w3 :
  emits nested w1 w2 -> emits nested w2 w3 -> emits nested w1 w3.
Proof. apply emits_trans, nested_app. Qed.

Lemma runCallback_nested cb : forall w w',
  runCallback push cb w = Some w' -> emits nested w w'.
Proof.
  induction cb as [|k IH|cb' k IH|k IH|s b k IH|ty nm b k IH|nm k IH|k IH|id body IHb k IH];
    intros w w' Hrun; cbn in Hrun.
  - injection Hrun as <-. apply emits_same; [constructor | reflexivity].
  - apply bind_Some in Hrun as (w1 & Hpop & Hrun).
    eapply emits_nested_trans; [apply emits_plain_nested, popContext_plain, Hpop | eauto].
  - apply bind_Some in Hrun as (w1 & Hpush & Hrun).
    eapply emits_nested_trans; [eapply push_nested, Hpush | eauto].
  - eapply emits_nested_trans; [|eauto]. apply emits_same; [constructor | reflexivity].
  - eapply emits_nested_trans; [|eauto]. apply emits_plain_nested, registerStructure_plain.
  - eapply emits_nested_trans; [|eauto]. apply emits_plain_nested, removeStructure_plain.
  - eapply emits_nested_trans; [|eauto]. apply emits_plain_nested, removeStructure_name_plain.
  - eapply emits_nested_trans; [|eauto]. apply emits_plain_nested, removeAllStructures_plain.
  - destruct (bool_decide (id ∈ clicked (frame w))); [|eauto].
    apply bind_Some in Hrun as (w1 & Hbody & Hrun).
    eapply emits_nested_trans; eauto.
Qed.

Lemma draw_nested withUI w w' : draw push withUI w = Some w' -> emits nested w w'.
Proof.
  unfold draw. intros Hdraw. apply bind_Some in Hdraw as (wg & Hgui & Hscene).
  injection Hscene as <-.
  eapply emits_nested_trans; [|apply emits_plain_nested, drawScene_plain].
  destruct withUI; [|injection Hgui as <-; apply emits_same; [constructor | reflexivity]].
  destruct (length (contextStack w) =? 1)%nat.
  - apply bind_Some in Hgui as (wu & Huser & Hgui). injection Hgui as <-.
    eapply emits_nested_trans; [|apply emits_plain_nested, buildPolyscopeGui_plain].
    unfold buildUserGui in Huser. destruct (userCallback w) as [cb|].
    + eapply runCallback_nested, Huser.
    + injection Huser as <-. apply emits_same; [constructor | reflexivity].
  - apply bind_Some in Hgui as (e & _ & Hgui). apply bind_Some in Hgui as (cb & _ & Hrun).
    eapply emits_nested_trans; [|eapply runCallback_nested, Hrun].
    apply emits_plain_nested.
    apply (emits_plain_one (EvCallback (length (contextStack w)))); reflexivity.
Qed.

Lemma mainLoopIterationG_nested w w' :
  mainLoopIterationG push w = Some w' -> emits nested w w'.
Proof.
  rewrite mainLoopIterationG_unfold. intros Hdraw.
  eapply emits_nested_trans; [|eapply draw_nested, Hdraw].
  apply emits_plain_nested.
  apply (emits_plain_one (EvIteration (length (contextStack w)))); [reflexivity|].
  apply beforeDraw_frame.
Qed.
End Reentrancy.

Section PushLoop.
Variable iter : World -> option World.

(** The loop is left only with the stack below the size it was entered with. *)
Lemma pushLoop_exit n size : forall w w',
  pushLoop iter n size w = Some w' -> (length (contextStack w') < size)%nat.
Proof.
  induction n as [|n IH]; intros w w' Hloop; cbn in Hloop;
    destruct (size <=? length (contextStack w))%nat eqn:Hcond.
  - discriminate.
  - injection Hloop as <-. apply Nat.leb_gt, Hcond.
  - apply bind_Some in Hloop as (w1 & _ & Hloop). eapply IH, Hloop.
  - injection Hloop as <-. apply Nat.leb_gt, Hcond.
Qed.

Lemma pushLoop_nested n size :
  (forall w w', iter w = Some w' -> emits nested w w') ->
  forall w w', pushLoop iter n size w = Some w' -> emits nested w w'.
Proof.
  intros Hiter. induction n as [|n IH]; intros w w' Hloop; cbn in Hloop;
    destruct (size <=? length (contextStack w))%nat.
  - discriminate.
  - injection Hloop as <-. apply emits_same; [constructor | reflexivity].
  - apply bind_Some in Hloop as (w1 & Hstep & Hloop).
    eapply emits_trans; [apply nested_app | eapply Hiter, Hstep | eapply IH, Hloop].
  - injection Hloop as <-. apply emits_same; [constructor | reflexivity].
Qed.

Lemma pushContextG_below n cb w w' :
  pushContextG iter n cb w = Some w' ->
  (length (contextStack w') <= length (contextStack w))%nat.
Proof.
  unfold pushContextG. intros Hpush.
  apply bind_Some in Hpush as (w1 & Hloop & Hrest).
  apply bind_Some in Hrest as (e & _ & Hw'). injection Hw' as <-.
  apply pushLoop_exit in Hloop. cbn in Hloop |- *. rewrite length_app in Hloop.
  cbn in Hloop. lia.
Qed.

Lemma pushContextG_bracket n cb w w' :
  (forall w w', iter w = Some w' -> emits nested w w') ->
  pushContextG iter n cb w = Some w' ->
  exists inner, trace w' = trace w ++ EvCreateContext (nextContext w) :: inner
                                   ++ [EvDestroyContext (nextContext w)] /\
                nested inner.
Proof.
  unfold pushContextG. intros Hiter Hpush.
  apply bind_Some in Hpush as (w1 & Hloop & Hrest).
  apply bind_Some in Hrest as (e & _ & Hw'). injection Hw' as <-.
  destruct (pushLoop_nested n _ Hiter _ _ Hloop) as (inner & Htr & Hnested).
  exists inner. split; [|exact Hnested]. cbn in Htr |- *. rewrite Htr.
  rewrite <- !app_assoc. reflexivity.
Qed.
End PushLoop.

Lemma bracket_nested c inner : nested inner -> nested (EvCreateContext c :: inner ++ [EvDestroyContext c]).
Proof. intros H. apply nested_call; [exact H | constructor]. Qed.

Lemma mainLoopIteration_nested fuel : forall w w',
  mainLoopIteration fuel w = Some w' -> emits nested w w'.
Proof.
  induction fuel as [|fuel IH]; intros w w' Hrun; [discriminate|].
  cbn [mainLoopIteration] in Hrun.
  eapply mainLoopIterationG_nested; [|exact Hrun].
  intros cb w1 w2 Hpush.
  destruct (pushContextG_bracket _ fuel cb w1 w2 IH Hpush) as (inner & Htr & Hn).
  eexists. split; [exact Htr | apply bracket_nested, Hn].
Qed.

Lemma pop_back_snoc {A} (st : list A) e : pop_back (st ++ [e]) = Some st.
Proof.
  unfold pop_back. rewrite removelast_last.
  destruct st; reflexivity.
Qed.

Lemma pushLoop_done iter n size w :
  (length (contextStack w) < size)%nat -> pushLoop iter n size w = Some w.
Proof.
  intros Hlt. apply Nat.leb_gt in Hlt. destruct n; cbn; rewrite Hlt; reflexivity.
Qed.

Lemma pushLoop_step iter n size w :
  (size <= length (contextStack w))%nat ->
  pushLoop iter (S n) size w = iter w ≫= pushLoop iter n size.
Proof. intros Hle. apply Nat.leb_le in Hle. cbn. rewrite Hle. reflexivity. Qed.

(** One loop step in which the top callback pops its own context. *)
Lemma iteration_closeAtOnce push w st e :
  contextStack w = st ++ [e] -> st <> [] -> callback e = Some closeAtOnce ->
  exists w' draws,
    mainLoopIterationG push w = Some w' /\
    contextStack w' = st /\
    nextContext w' = nextContext w /\
    trace w' = trace w ++ [EvIteration (length (contextStack w));
                           EvCallback (length (contextStack w))] ++ draws /\
    (draws = [] \/ draws = [EvDrawStructures]).
Proof.
  intros Hstack Hst Hcb.
  rewrite mainLoopIterationG_unfold.
  destruct (beforeDraw_frame w) as (Hs & Ht & Hn).
  set (wb := beforeDraw w) in *.
  set (n := length (contextStack w)) in *.
  assert (Hn' : length (contextStack wb) = n) by (rewrite Hs; reflexivity).
  rewrite Hstack in Hs.
  assert (Hlen : (n =? 1)%nat = false).
  { subst n. rewrite Hstack, length_app. cbn. apply Nat.eqb_neq.
    destruct st; [contradiction | cbn; lia]. }
  set (w3 := set_contextStack st (set_trace (trace wb ++ [EvCallback n]) wb)).
  exists (drawScene w3),
         (if redrawNextFrame w3 || alwaysRedraw w3 then [EvDrawStructures] else []).
  split.
  { unfold draw. rewrite Hn', Hlen, Hs, last_snoc. cbn [mbind option_bind].
    rewrite Hcb. cbn [mbind option_bind]. unfold closeAtOnce. cbn [runCallback].
    unfold popContext. cbn [contextStack set_trace]. rewrite Hn', Hlen.
    cbn [contextStack set_trace]. rewrite Hs, pop_back_snoc. reflexivity. }
  split; [unfold drawScene; case_match; reflexivity|].
  split; [unfold drawScene; case_match; cbn; exact Hn|].
  split; [|case_match; auto].
  rewrite drawScene_trace. subst w3. cbn [trace set_contextStack set_trace].
  rewrite Ht, <- !app_assoc. reflexivity.
Qed.

Lemma pushContext_closeAtOnce fuel w :
  contextStack w <> [] ->
  exists w' draws,
    pushContext (S fuel) (Some closeAtOnce) w = Some w' /\
    contextStack w' = contextStack w /\
    trace w' = trace w ++ [EvCreateContext (nextContext w);
                           EvIteration (S (length (contextStack w)));
                           EvCallback (S (length (contextStack w)))]
                       ++ draws ++ [EvDestroyContext (nextContext w)] /\
    (draws = [] \/ draws = [EvDrawStructures]).
Proof.
  intros Hst. unfold pushContext, pushContextG.
  set (c := nextContext w).
  set (entry := {| context := c; callback := Some closeAtOnce |}).
  set (w1 := set_contextStack (contextStack _ ++ [entry]) _).
  assert (Hstack1 : contextStack w1 = contextStack w ++ [entry]) by reflexivity.
  assert (Hlen1 : length (contextStack w1) = S (length (contextStack w))).
  { rewrite Hstack1, length_app. cbn. lia. }
  rewrite pushLoop_step by lia.
  cbn [mainLoopIteration].
  destruct (iteration_closeAtOnce (pushContextG (mainLoopIteration fuel) fuel)
              w1 (contextStack w) entry Hstack1 Hst eq_refl)
    as (w2 & draws & Hrun & Hstack2 & Hnext2 & Htrace2 & Hdraws).
  rewrite Hrun. cbn [mbind option_bind].
  rewrite pushLoop_done by (rewrite Hstack2, Hlen1; lia).
  cbn [mbind option_bind contextStack set_trace]. rewrite Hstack2.
  destruct (last (contextStack w)) as [e0|] eqn:Hlast.
  2:{ apply last_None in Hlast. contradiction. }
  cbn [mbind option_bind].
  eexists. exists draws. split; [reflexivity|].
  split; [exact Hstack2|]. split; [|exact Hdraws].
  cbn [trace set_currentContext set_trace]. rewrite Htrace2, Hlen1.
  subst w1. cbn [trace set_contextStack set_currentContext set_trace set_nextContext].
  rewrite <- !app_assoc. reflexivity.
Qed.

(** *** The registry invariant holds throughout a session *)






Section RegistryInvariant.
Variable push : option Callback -> World -> option World.
Hypothesis push_wf : forall cb w w',
  registry_wf (structures w) -> push cb w = Some w' -> registry_wf (structures w').


End RegistryInvariant.





(** C6: [pushContext] pushes the entry and runs loop steps for as long as the
    stack is at least as deep as just after the push.  Whenever it returns,
    the stack is below its own push depth, and the trace it produced is
    [EvCreateContext c], a well-nested segment, [EvDestroyContext c]: the
    contexts of nested calls are closed in the reverse order of their
    opening.  With a callback that pops at once, on a stack holding at least
    the root, it returns after exactly one loop step with the stack as before
    the call. *)
Theorem pushContext_blocks_until_popped (fuel : nat) (cb : option Callback) (w : World) :
  (exists w1,
     contextStack w1 = contextStack w ++ [{| context := nextContext w; callback := cb |}] /\
     currentContext w1 = nextContext w /\
     pushContext fuel cb w
     = pushLoop (mainLoopIteration fuel) fuel (S (length (contextStack w))) w1
       ≫= fun w2 => e ← last (contextStack w2);
                    Some (set_currentContext (context e)
                            (set_trace (trace w2 ++ [EvDestroyContext (nextContext w)]) w2))) /\
  (forall iter n size w0,
     ((size <= length (contextStack w0))%nat ->
      pushLoop iter (S n) size w0 = iter w0 ≫= pushLoop iter n size) /\
     ((length (contextStack w0) < size)%nat -> pushLoop iter n size w0 = Some w0)) /\
  (forall w', pushContext fuel cb w = Some w' ->
     (length (contextStack w') < S (length (contextStack w)))%nat /\
     exists inner,
       trace w' = trace w ++ EvCreateContext (nextContext w) :: inner
                          ++ [EvDestroyContext (nextContext w)] /\
       nested inner) /\
  (contextStack w <> [] ->
   exists w', pushContext (S fuel) (Some closeAtOnce) w = Some w' /\
              contextStack w' = contextStack w /\
              loopSteps (trace w') = S (loopSteps (trace w))).
Proof.
  split; [|split; [|split]].
  - eexists. split; [|split; [|unfold pushContext, pushContextG; cbv zeta]].
    3:{ replace (S (length (contextStack w)))
          with (length (contextStack w ++ [{| context := nextContext w; callback := cb |}]))
          by (rewrite length_app; cbn; lia).
        reflexivity. }
    all: reflexivity.
  - intros iter n size w0. split; [apply pushLoop_step | apply pushLoop_done].
  - intros w' Hpush. unfold pushContext in Hpush. split.
    + apply pushContextG_below in Hpush. lia.
    + eapply pushContextG_bracket; [|exact Hpush]. apply mainLoopIteration_nested.
  - intros Hst.
    destruct (pushContext_closeAtOnce fuel w Hst) as (w' & draws & Hrun & Hstack & Htr & Hd).
    exists w'. split; [exact Hrun|]. split; [exact Hstack|].
    rewrite Htr, !loopSteps_app.
    change (loopSteps [EvCreateContext (nextContext w);
                       EvIteration (S (length (contextStack w)));
                       EvCallback (S (length (contextStack w)))]) with 1%nat.
    change (loopSteps [EvDestroyContext (nextContext w)]) with O.
    destruct Hd as [-> | ->];
      [change (loopSteps []) with O | change (loopSteps [EvDrawStructures]) with O]; lia.
Qed.

Lemma pushContext_blocks_until_popped_witness :
  contextStack initWorld <> [] /\
  (exists w', pushContext 1 (Some closeAtOnce) initWorld = Some w' /\
              contextStack w' = contextStack initWorld /\
              loopSteps (trace w') = S (loopSteps (trace initWorld))) /\
  (exists w', pushContext 2 (Some openThenClose) initWorld = Some w' /\
              (length (contextStack w') < 2)%nat).
Proof.
  assert (Hst : contextStack initWorld <> []) by discriminate.
  split; [exact Hst|]. split.
  - destruct (pushContext_blocks_until_popped O None initWorld) as (_ & _ & _ & Hclose).
    exact (Hclose Hst).
  - destruct (pushContext 2 (Some openThenClose) initWorld) as [w'|] eqn:Hrun;
      [|vm_compute in Hrun; discriminate].
    exists w'. split; [reflexivity|].
    destruct (pushContext_blocks_until_popped 2 (Some openThenClose) initWorld)
      as (_ & _ & Hret & _).
    destruct (Hret w' Hrun) as [Hbelow _]. exact Hbelow.
Defined.

(** Two nested modals on the initial state: the second context is created
    inside the first and destroyed before it, and the stack is back at the
    root. *)
Example nested_modals_unwind :
  (fun w => (trace w, length (contextStack w))) <$> pushContext 2 (Some openThenClose) initWorld
  = Some ([EvCreateContext 1; EvIteration 2; EvCallback 2;
           EvCreateContext 2; EvIteration 3; EvCallback 3; EvDrawStructures;
           EvDestroyContext 2; EvDestroyContext 1], 1%nat).
Proof. vm_compute. reflexivity. Qed.

(** * Further properties of the code *)

(** ** Registration and lookup *)

Lemma findStructure_installed s w t n :
  let w' := set_structures
              (<[type s := <[name s := s]> (default ∅ (structures w !! type s))]> (structures w))
              w in
  findStructure t n (requestRedraw (updateStructureExtents w'))
  = if decide (t = type s /\ n = name s) then Some s else findStructure t n w.
Proof.
  intros w'. unfold findStructure at 1. cbn [structures requestRedraw set_redrawNextFrame].
  destruct (updateStructureExtents_frame w') as [-> _]. subst w'. cbn [structures set_structures].
  destruct (decide (t = type s)) as [->|Hne].
  - rewrite lookup_insert_eq. cbn. destruct (decide (n = name s)) as [->|Hnn].
    + rewrite lookup_insert_eq, decide_True by auto. reflexivity.
    + rewrite lookup_insert_ne by auto. rewrite decide_False by (intros [_ ?]; auto).
      unfold findStructure. destruct (structures w !! type s); reflexivity.
  - rewrite lookup_insert_ne by auto. rewrite decide_False by (intros [? _]; auto).
    reflexivity.
Qed.

Lemma findStructure_type_created s w t n :
  structures w !! type s = None ->
  findStructure t n (set_structures (<[type s := ∅]> (structures w)) w) = findStructure t n w.
Proof.
  intros Hty. unfold findStructure. cbn.
  destruct (decide (t = type s)) as [->|Hne].
  - rewrite lookup_insert_eq, Hty. reflexivity.
  - rewrite lookup_insert_ne by auto. reflexivity.
Qed.

Lemma registerStructure_findStructure (w : World) (s : Structure) (replaceIfPresent : bool) :
  registry_wf (structures w) ->
  let result := registerStructure s replaceIfPresent w in
  (result.1 = false <->
   replaceIfPresent = false /\ is_Some (findStructure (type s) (name s) w)) /\
  (forall t n,
     findStructure t n result.2
     = if decide (t = type s /\ n = name s)
       then (if result.1 then Some s else findStructure t n w)
       else findStructure t n w).
Proof.
  intros Hwf.
  destruct (findStructure (type s) (name s) w) as [old|] eqn:Hold.
  - (* the key is taken *)
    destruct replaceIfPresent.
    + (* replace *)
      assert (Hty : exists sMap, structures w !! type s = Some sMap /\ sMap !! name s = Some old).
      { unfold findStructure in Hold. destruct (structures w !! type s) as [sMap|]; [|discriminate].
        eauto. }
      destruct Hty as (sMap & Hty & Hnm).
      assert (Hreg : registerStructure s true w
                     = (true, requestRedraw (updateStructureExtents
                          (set_structures
                             (<[type s := <[name s := s]>
                                 (default ∅ (structures (removeStructure_name (name s) w)
                                             !! type s))]>
                                (structures (removeStructure_name (name s) w)))
                             (removeStructure_name (name s) w))))).
      { unfold registerStructure. cbv zeta. rewrite Hty. cbv beta iota. rewrite !Hty.
        cbn [default from_option id]. rewrite Hnm. reflexivity. }
      cbv zeta. rewrite Hreg. cbn [fst snd]. split.
      * split; [discriminate | intros [? _]; discriminate].
      * intros t n.
        rewrite (findStructure_installed s (removeStructure_name (name s) w) t n).
        destruct (decide (t = type s /\ n = name s)) as [_|Hkey]; [reflexivity|].
        destruct (name_trichotomy w (name s)) as [Hnone|[(ty & s0 & Hs0 & Huniq)|Hmany]].
        -- rewrite Hnone in Hold. discriminate.
        -- assert (ty = type s) by (symmetry; apply Huniq; rewrite Hold; eauto). subst ty.
           rewrite (removeStructure_name_unique w (name s) (type s) s0 Hwf Hs0 Huniq).
           change (findStructure t n (requestRedraw ?x)) with (findStructure t n x).
           rewrite (findStructure_removed (type s) (name s) true w s0 t n Hwf Hs0).
           rewrite decide_False by exact Hkey. reflexivity.
        -- destruct (removeStructure_name_ambiguous w (name s) Hwf Hmany)
             as (ta & tb & _ & _ & _ & ->). reflexivity.
    + (* no replace: rejected *)
      cbv zeta. rewrite (registerStructure_duplicate w s old Hold). cbn [fst snd]. split.
      * split; [intros _; split; [reflexivity | eauto] | reflexivity].
      * intros t n. change (findStructure t n (error ?m w)) with (findStructure t n w).
        destruct (decide (t = type s /\ n = name s)); reflexivity.
  - (* the key is free *)
    assert (Hreg : exists w1,
               (forall t n, findStructure t n w1 = findStructure t n w) /\
               registerStructure s replaceIfPresent w
               = (true, requestRedraw (updateStructureExtents
                    (set_structures
                       (<[type s := <[name s := s]> (default ∅ (structures w1 !! type s))]>
                          (structures w1)) w1)))).
    { unfold registerStructure. cbv zeta. unfold findStructure in Hold.
      destruct (structures w !! type s) as [sMap|] eqn:Hty.
      - exists w. split; [reflexivity|]. cbn in Hold. rewrite Hty.
        cbn [default from_option id]. rewrite Hold. reflexivity.
      - exists (set_structures (<[type s := ∅]> (structures w)) w).
        split; [intros t n; apply findStructure_type_created, Hty|].
        cbn [structures set_structures]. rewrite lookup_insert_eq.
        cbn [default from_option id]. rewrite lookup_empty. reflexivity. }
    destruct Hreg as (w1 & Hsame & Hreg). cbv zeta. rewrite Hreg. cbn [fst snd]. split.
    + split; [discriminate | intros [_ [? ?]]; discriminate].
    + intros t n. rewrite (findStructure_installed s w1 t n), Hsame. reflexivity.
Qed.



(** ** C8: the selection and the registry *)

(** The selection and the registry are all [pick_valid] looks at. *)
Lemma pick_valid_same w w' :
  structures w' = structures w -> pickState w' = pickState w -> pick_valid w -> pick_valid w'.
Proof.
  unfold pick_valid, registered, findStructure. intros Hst Hpk. rewrite Hpk, Hst. auto.
Qed.

Lemma removeStructure_name_pick_valid nm w :
  registry_wf (structures w) -> pick_valid w -> pick_valid (removeStructure_name nm w).
Proof.
  intros Hwf Hvalid. unfold removeStructure_name.
  destruct (scanTypes nm (entries (structures w)) None) as [msg|[t|]].
  - exact (pick_valid_same w _ eq_refl eq_refl Hvalid).
  - apply (pick_valid_same (removeStructure (type t) (name t) errorIfAbsent_default w));
      [reflexivity | reflexivity |].
    apply removeStructure_pick_valid; assumption.
  - exact (pick_valid_same w _ eq_refl eq_refl Hvalid).
Qed.

(** Where the name is held by a second type, the replace path keeps the
    selection as it is: the removal it calls only reports the ambiguity. *)
Lemma registerStructure_ambiguous_pickState w s old :
  registry_wf (structures w) ->
  findStructure (type s) (name s) w = Some old ->
  (exists ty', ty' <> type s /\ is_Some (findStructure ty' (name s) w)) ->
  pickState (registerStructure s true w).2 = pickState w.
Proof.
  intros Hwf Hold (ty' & Hne & Hother).
  destruct (removeStructure_name_ambiguous w (name s) Hwf) as (ta & tb & _ & _ & _ & Hrm).
  { exists ty', (type s). split; [exact Hne|]. split; [exact Hother|]. rewrite Hold. eauto. }
  unfold findStructure in Hold.
  destruct (structures w !! type s) as [sMap|] eqn:Hty; [|discriminate]. cbn in Hold.
  unfold registerStructure. cbv zeta. rewrite Hty. cbv beta iota. rewrite !Hty.
  cbn [default from_option id]. rewrite Hold, Hrm. cbn [fst snd].
  cbn [pickState requestRedraw set_redrawNextFrame].
  match goal with
  | |- context [updateStructureExtents ?x] =>
      destruct (updateStructureExtents_frame x) as (_ & -> & _)
  end.
  reflexivity.
Qed.

(** C8: the removals do reset the selection, the replace path of
    [registerStructure] can miss it.  In a registry that keeps structures
    under their own keys, removing the selected structure with
    [removeStructure(type, name)] leaves the pick state at NoSelection and
    the structure unregistered in that same call, [removeAllStructures]
    leaves NoSelection and an empty registry, and a selection that referred
    to a registered structure before one of the three removals does so after
    it.  But when the selected structure [old] is replaced by
    [registerStructure(s, true)] under a name that a second type holds too,
    the call succeeds, [s] takes the key, and the selection still refers to
    [old], which is no longer registered. *)
Theorem selection_outlives_replaced_structure (w : World) :
  registry_wf (structures w) ->
  (forall ty nm errorIfAbsent s localIndex dbl,
     findStructure ty nm w = Some s -> pickState w = Selected s localIndex dbl ->
     pickState (removeStructure ty nm errorIfAbsent w) = NoSelection /\
     findStructure ty nm (removeStructure ty nm errorIfAbsent w) = None) /\
  (pickState (removeAllStructures w) = NoSelection /\
   forall ty nm, findStructure ty nm (removeAllStructures w) = None) /\
  (pick_valid w ->
   (forall ty nm errorIfAbsent, pick_valid (removeStructure ty nm errorIfAbsent w)) /\
   (forall nm, pick_valid (removeStructure_name nm w)) /\
   pick_valid (removeAllStructures w)) /\
  (forall s old localIndex dbl,
     pickState w = Selected old localIndex dbl ->
     findStructure (type s) (name s) w = Some old ->
     (exists ty', ty' <> type s /\ is_Some (findStructure ty' (name s) w)) ->
     addr s <> addr old ->
     (forall t n s', findStructure t n w = Some s' -> addr s' = addr old ->
                     t = type s /\ n = name s) ->
     let result := registerStructure s true w in
     pick_valid w /\
     result.1 = true /\
     findStructure (type s) (name s) result.2 = Some s /\
     pickState result.2 = Selected old localIndex dbl /\
     ~ registered old result.2 /\
     ~ pick_valid result.2).
Proof.
  intros Hwf. split; [|split; [|split]].
  - intros ty nm b s li d Hs Hpick. split.
    + exact (removeStructure_clears_pick ty nm b w s li d Hs Hpick).
    + rewrite (findStructure_removed ty nm b w s ty nm Hwf Hs).
      rewrite decide_True by auto. reflexivity.
  - split; [reflexivity|]. intros ty nm. apply removeAllStructures_empties, Hwf.
  - intros Hvalid. split; [|split].
    + intros ty nm b. apply removeStructure_pick_valid; assumption.
    + intros nm. apply removeStructure_name_pick_valid; assumption.
    + unfold pick_valid. exact I.
  - intros s old li d Hpick Hold Hamb Hnew Honly result.
    destruct (registerStructure_findStructure w s true Hwf) as [Hfail Hlook].
    fold result in Hfail, Hlook.
    assert (Hok : result.1 = true).
    { destruct result.1 eqn:Hr; [reflexivity|].
      destruct Hfail as [Hfail _]. destruct (Hfail eq_refl) as [? _]. discriminate. }
    rewrite Hok in Hlook.
    assert (Hpk : pickState result.2 = Selected old li d).
    { subst result. rewrite (registerStructure_ambiguous_pickState w s old Hwf Hold Hamb).
      exact Hpick. }
    assert (Hgone : ~ registered old result.2).
    { intros (t & n & s' & Hs' & Haddr). rewrite Hlook in Hs'.
      destruct (decide (t = type s /\ n = name s)) as [_|Hkey].
      - injection Hs' as <-. contradiction.
      - apply Hkey. exact (Honly t n s' Hs' Haddr). }
    split.
    { unfold pick_valid. rewrite Hpick. exists (type s), (name s), old. auto. }
    split; [exact Hok|]. split.
    { rewrite Hlook, decide_True by auto. reflexivity. }
    split; [exact Hpk|]. split; [exact Hgone|].
    unfold pick_valid. rewrite Hpk. exact Hgone.
Qed.

Lemma registry_wf_sceneWithPick : registry_wf (structures sceneWithPick).
Proof. exact registry_wf_sceneWorld. Qed.

Lemma selection_outlives_replaced_structure_witness :
  registry_wf (structures sceneWithPick) /\ pick_valid sceneWithPick /\
  pickState (removeStructure "Point Cloud" "bunny" true sceneWithPick) = NoSelection /\
  pickState (removeAllStructures sceneWithPick) = NoSelection /\
  pick_valid (removeStructure "Surface Mesh" "bunny" true sceneWithPick) /\
  pickState (registerStructure (sampleCloud 4 "bunny") true sceneWithPick).2
  = Selected (sampleCloud 1 "bunny") 7 false /\
  ~ pick_valid (registerStructure (sampleCloud 4 "bunny") true sceneWithPick).2.
Proof.
  assert (Hvalid : pick_valid sceneWithPick).
  { exists "Point Cloud", "bunny", (sampleCloud 1 "bunny"). split; vm_compute; reflexivity. }
  destruct (selection_outlives_replaced_structure sceneWithPick registry_wf_sceneWithPick)
    as (Hone & [Hall _] & Hkeep & Hreplace).
  destruct (Hreplace (sampleCloud 4 "bunny") (sampleCloud 1 "bunny") 7%N false)
    as (_ & _ & _ & Hpk & _ & Hbad).
  - reflexivity.
  - vm_compute. reflexivity.
  - exists "Surface Mesh". split; [discriminate|]. exists (sampleMesh 2 "bunny").
    vm_compute. reflexivity.
  - discriminate.
  - intros t n s' Hs' Haddr.
    assert (Hin : s' ∈ allStructures (structures sceneWithPick)).
    { apply elem_of_allStructures. unfold findStructure in Hs'.
      destruct (structures sceneWithPick !! t) as [sMap|] eqn:Ht; [|discriminate].
      exists t, sMap, n. auto. }
    assert (Hkey : type s' = t /\ name s' = n).
    { unfold findStructure in Hs'.
      destruct (structures sceneWithPick !! t) as [sMap|] eqn:Ht; [|discriminate].
      exact (registry_wf_sceneWithPick t sMap n s' Ht Hs'). }
    destruct Hkey as [<- <-]. clear Hs'.
    replace (allStructures (structures sceneWithPick))
      with [sampleCloud 1 "bunny"; sampleCloud 3 "cow"; sampleMesh 2 "bunny"] in Hin
      by (vm_compute; reflexivity).
    rewrite !elem_of_cons, elem_of_nil in Hin.
    destruct Hin as [->|[->|[->|[]]]].
    + split; reflexivity.
    + discriminate Haddr.
    + discriminate Haddr.
  - split; [exact registry_wf_sceneWithPick|]. split; [exact Hvalid|].
    split; [|split; [exact Hall|split; [|split; [exact Hpk | exact Hbad]]]].
    + apply (Hone "Point Cloud" "bunny" true (sampleCloud 1 "bunny") 7%N false);
        vm_compute; reflexivity.
    + exact (proj1 (Hkeep Hvalid) "Surface Mesh" "bunny" true).
Defined.

(** ** getStructure *)

Lemma length_entries {V} (m : gmap string V) : length (entries m) = size m.
Proof. rewrite entries_Permutation. apply length_map_to_list. Qed.

Lemma entries_singleton_inv {V} (m : gmap string V) :
  size m = 1%nat -> exists k v, m = {[k := v]} /\ entries m = [(k, v)].
Proof.
  intros Hsize. rewrite <- length_entries in Hsize.
  destruct (entries m) as [|[k v] [|? ?]] eqn:Hent; try discriminate.
  exists k, v. split; [|reflexivity].
  apply map_eq. intros i. destruct (decide (i = k)) as [->|Hne].
  - rewrite lookup_singleton_eq. apply elem_of_entries. rewrite Hent. left.
  - rewrite lookup_singleton_ne by auto.
    destruct (m !! i) as [x|] eqn:Hi; [|reflexivity].
    apply elem_of_entries in Hi. rewrite Hent in Hi.
    apply list_elem_of_singleton in Hi. congruence.
Qed.

Lemma getStructure_named ty nm w :
  nm <> "" ->
  getStructure ty nm w
  = match structures w !! ty with
    | None => (None, error (noTypeMsg ty) w)
    | Some sMap =>
        match sMap !! nm with
        | None => (None, error (noStructureMsg ty nm) w)
        | Some s => (Some s, w)
        end
    end.
Proof.
  intros Hnm. unfold getStructure. destruct (structures w !! ty); [|reflexivity].
  rewrite decide_False by exact Hnm. reflexivity.
Qed.

(** X2: [getStructure] leaves the state alone when it finds a structure and
    reports exactly one error when it does not.  With a name it returns what
    is registered under (type, name).  With the empty name it returns a
    structure exactly when the type holds a single one, whatever its name: so
    a structure registered under the empty name is found only while it is
    alone in its type. *)
Theorem getStructure_result (w : World) (ty nm : string) :
  let result := getStructure ty nm w in
  (is_Some result.1 -> result.2 = w) /\
  (result.1 = None -> exists msg, result.2 = error msg w) /\
  (nm <> "" -> result.1 = findStructure ty nm w) /\
  (nm = "" ->
   forall s, result.1 = Some s <-> exists n, structures w !! ty = Some {[n := s]}).
Proof.
  cbv zeta. unfold getStructure, findStructure.
  destruct (structures w !! ty) as [sMap|] eqn:Hty; cbn [fst snd mbind option_bind].
  2:{ split; [intros [? ?]; discriminate|]. split; [eauto|]. split; [reflexivity|].
      intros _ s. split; [discriminate | intros [n ?]; discriminate]. }
  destruct (decide (nm = "")) as [->|Hnm].
  - destruct (decide (size sMap = 1%nat)) as [Hsize|Hsize]; cbn [fst snd].
    + destruct (entries_singleton_inv sMap Hsize) as (k & v & -> & Hent). rewrite Hent. cbn.
      split; [reflexivity|]. split; [discriminate|]. split; [congruence|].
      intros _ s. split.
      * intros [= <-]. eauto.
      * intros (n & Heq). apply (inj Some) in Heq.
        assert (Hl : ({[k := v]} : gmap string Structure) !! n = Some s)
          by (rewrite Heq; apply lookup_singleton_eq).
        apply lookup_singleton_Some in Hl as [_ <-]. reflexivity.
    + split; [intros [? ?]; discriminate|]. split; [eauto|]. split; [congruence|].
      intros _ s. split; [discriminate|].
      intros (n & Heq). apply (inj Some) in Heq. subst sMap.
      rewrite map_size_singleton in Hsize. congruence.
  - destruct (sMap !! nm) as [s|] eqn:Hs; cbn [fst snd].
    + split; [reflexivity|]. split; [discriminate|]. split; [reflexivity | congruence].
    + split; [intros [? ?]; discriminate|]. split; [eauto|]. split; [reflexivity | congruence].
Qed.

Lemma getStructure_result_witness :
  (getStructure "Point Cloud" "cow" sceneWorld).1 = Some (sampleCloud 3 "cow") /\
  (getStructure "Surface Mesh" "" sceneWorld).1 = Some (sampleMesh 2 "bunny") /\
  (getStructure "Point Cloud" "" sceneWorld).1 = None.
Proof.
  destruct (getStructure_result sceneWorld "Point Cloud" "cow") as (_ & _ & Hnamed & _).
  destruct (getStructure_result sceneWorld "Surface Mesh" "") as (_ & _ & _ & Hauto).
  split; [rewrite Hnamed by discriminate; vm_compute; reflexivity|].
  split.
  - apply (Hauto eq_refl). exists "bunny". vm_compute. reflexivity.
  - vm_compute. reflexivity.
Defined.

(** X3: Registering a structure under a free, non-empty name, looking it up and
    removing it again: the lookup returns the structure without an error, and
    after the removal every key holds what it held before the registration;
    the only trace left is the deletion of the structure. *)
Theorem register_get_remove_round_trip (w : World) (s : Structure)
  (replaceIfPresent errorIfAbsent : bool) :
  registry_wf (structures w) -> name s <> "" ->
  findStructure (type s) (name s) w = None ->
  let w1 := (registerStructure s replaceIfPresent w).2 in
  let w2 := removeStructure (type s) (name s) errorIfAbsent w1 in
  (registerStructure s replaceIfPresent w).1 = true /\
  getStructure (type s) (name s) w1 = (Some s, w1) /\
  (forall t n, findStructure t n w2 = findStructure t n w) /\
  trace w2 = trace w ++ [EvDelete (addr s)].
Proof.
  intros Hwf Hnm Hfree w1 w2.
  destruct (registerStructure_findStructure w s replaceIfPresent Hwf) as [Hfail Hlook].
  assert (Hok : (registerStructure s replaceIfPresent w).1 = true).
  { destruct (registerStructure s replaceIfPresent w).1 eqn:Hr; [reflexivity|].
    destruct Hfail as [Hfail _]. destruct (Hfail eq_refl) as [_ [? Hsome]].
    rewrite Hfree in Hsome. discriminate. }
  rewrite Hok in Hlook.
  assert (Hs1 : findStructure (type s) (name s) w1 = Some s).
  { subst w1. rewrite Hlook, decide_True by auto. reflexivity. }
  assert (Hwf1 : registry_wf (structures w1)) by (apply registerStructure_wf, Hwf).
  split; [exact Hok|]. split; [|split].
  - rewrite getStructure_named by exact Hnm. unfold findStructure in Hs1.
    destruct (structures w1 !! type s) as [sMap|]; [|discriminate]. cbn in Hs1.
    rewrite Hs1. reflexivity.
  - intros t n. subst w2.
    rewrite (findStructure_removed (type s) (name s) errorIfAbsent w1 s t n Hwf1 Hs1).
    destruct (decide (t = type s /\ n = name s)) as [[-> ->]|Hkey].
    + symmetry. exact Hfree.
    + subst w1. rewrite Hlook, decide_False by exact Hkey. reflexivity.
  - subst w2. unfold findStructure in Hs1.
    destruct (structures w1 !! type s) as [sMap|] eqn:Hty; [|discriminate]. cbn in Hs1.
    rewrite (removeStructure_found (type s) (name s) errorIfAbsent w1 sMap s Hty Hs1).
    match goal with
    | |- context [updateStructureExtents ?x] =>
        destruct (updateStructureExtents_frame x) as (_ & _ & -> & _)
    end.
    cbn [trace delete_structure set_trace set_structures].
    replace (trace (pick.clearPickIfStructureSelected s w1)) with (trace w1)
      by (unfold pick.clearPickIfStructureSelected; repeat case_match; reflexivity).
    f_equal.
    (* a registration under a free key logs nothing *)
    subst w1. unfold registerStructure. cbv zeta. unfold findStructure in Hfree.
    destruct (structures w !! type s) as [sMap0|] eqn:Hty0.
    + cbn in Hfree. cbv beta iota. rewrite !Hty0. cbn [default from_option id].
      rewrite Hfree. cbn [snd trace requestRedraw set_redrawNextFrame].
      match goal with
      | |- context [updateStructureExtents ?x] =>
          destruct (updateStructureExtents_frame x) as (_ & _ & -> & _)
      end.
      reflexivity.
    + cbv beta iota. cbn [structures set_structures]. rewrite !lookup_insert_eq.
      cbn [default from_option id]. rewrite lookup_empty.
      cbn [snd trace requestRedraw set_redrawNextFrame].
      match goal with
      | |- context [updateStructureExtents ?x] =>
          destruct (updateStructureExtents_frame x) as (_ & _ & -> & _)
      end.
      reflexivity.
Qed.

Lemma register_get_remove_round_trip_witness :
  let s := sampleCloud 9 "teapot" in
  registry_wf (structures sceneWorld) /\ name s <> "" /\
  findStructure (type s) (name s) sceneWorld = None /\
  getStructure (type s) (name s) (registerStructure s false sceneWorld).2
  = (Some s, (registerStructure s false sceneWorld).2) /\
  trace (removeStructure (type s) (name s) true (registerStructure s false sceneWorld).2)
  = trace sceneWorld ++ [EvDelete 9].
Proof.
  intros s.
  assert (Hnm : name s <> "") by discriminate.
  assert (Hfree : findStructure (type s) (name s) sceneWorld = None)
    by (vm_compute; reflexivity).
  destruct (register_get_remove_round_trip sceneWorld s false true
              registry_wf_sceneWorld Hnm Hfree) as (_ & Hget & _ & Htr).
  split; [exact registry_wf_sceneWorld|]. split; [exact Hnm|]. split; [exact Hfree|].
  split; [exact Hget | exact Htr].
Defined.

(** ** Removal by type and name *)

Lemma removeStructure_keeps ty nm b w :
  redrawNextFrame (removeStructure ty nm b w) = redrawNextFrame w /\
  contextStack (removeStructure ty nm b w) = contextStack w.
Proof.
  destruct (structures w !! ty) as [sMap|] eqn:Hty.
  - destruct (sMap !! nm) as [s|] eqn:Hs.
    + rewrite (removeStructure_found ty nm b w sMap s Hty Hs).
      match goal with
      | |- context [updateStructureExtents ?x] =>
          destruct (updateStructureExtents_frame x) as (_ & _ & _ & -> & ->)
      end.
      cbn. unfold pick.clearPickIfStructureSelected. repeat case_match; split; reflexivity.
    + unfold removeStructure. rewrite Hty, Hs. destruct b; split; reflexivity.
  - unfold removeStructure. rewrite Hty. destruct b; split; reflexivity.
Qed.

(** X4: [removeStructure(type, name, errorIfAbsent)] on a key that holds nothing
    is silent when [errorIfAbsent] is false (the state is returned as it was)
    and otherwise only reports one error.  And whether it removes or not, it
    never asks for a redraw and never touches the context stack: of the
    removals only [removeStructure(name)] and [removeAllStructures] request a
    redraw themselves. *)
Theorem removeStructure_absent_or_quiet (w : World) (ty nm : string) (errorIfAbsent : bool) :
  (findStructure ty nm w = None ->
   removeStructure ty nm false w = w /\
   exists msg, removeStructure ty nm true w = error msg w) /\
  redrawNextFrame (removeStructure ty nm errorIfAbsent w) = redrawNextFrame w /\
  contextStack (removeStructure ty nm errorIfAbsent w) = contextStack w /\
  (forall s, registry_wf (structures w) -> findStructure ty nm w = Some s ->
             (forall ty', is_Some (findStructure ty' nm w) -> ty' = ty) ->
             removeStructure_name nm w = requestRedraw (removeStructure ty nm true w) /\
             redrawNextFrame (removeStructure_name nm w) = true).
Proof.
  split; [|split; [|split]].
  - unfold findStructure, removeStructure. intros Hnone.
    destruct (structures w !! ty) as [sMap|]; cbn in Hnone.
    + rewrite Hnone. eauto.
    + eauto.
  - apply removeStructure_keeps.
  - apply removeStructure_keeps.
  - intros s Hwf Hs Huniq.
    rewrite (removeStructure_name_unique w nm ty s Hwf Hs Huniq). split; reflexivity.
Qed.

Lemma removeStructure_absent_or_quiet_witness :
  findStructure "Point Cloud" "nobody" sceneWorld = None /\
  removeStructure "Point Cloud" "nobody" false sceneWorld = sceneWorld /\
  redrawNextFrame (removeStructure "Point Cloud" "cow" true
                     (set_redrawNextFrame false sceneWorld)) = false /\
  redrawNextFrame (removeStructure_name "cow" (set_redrawNextFrame false sceneWorld)) = true.
Proof.
  assert (Hnone : findStructure "Point Cloud" "nobody" sceneWorld = None)
    by (vm_compute; reflexivity).
  destruct (removeStructure_absent_or_quiet sceneWorld "Point Cloud" "nobody" false)
    as ([Hsilent _] & _); [exact Hnone|].
  destruct (removeStructure_absent_or_quiet (set_redrawNextFrame false sceneWorld)
              "Point Cloud" "cow" true) as (_ & Hflag & _ & Hname).
  split; [exact Hnone|]. split; [exact Hsilent|]. split; [exact Hflag|].
  apply (Hname (sampleCloud 3 "cow")).
  - exact registry_wf_sceneWorld.
  - vm_compute. reflexivity.
  - intros ty' Hty'. apply elem_of_typesHolding in Hty'.
    vm_compute in Hty'. apply list_elem_of_singleton in Hty'. exact Hty'.
Defined.

(** ** Invariants of a session *)



(** *** Operations that leave registry and extents alone *)






Lemma mainLoopIteration_S fuel w :
  mainLoopIteration (S fuel) w =
  mainLoopIterationG (pushContextG (mainLoopIteration fuel) fuel) w.
Proof. reflexivity. Qed.

(** A property of registry and extents that the registry operations keep is
    kept by loop steps and modal sessions. *)
Section SessionInvariant.
Variable Inv : World -> Prop.
Hypothesis Inv_frame : forall w w',
  structures w' = structures w -> extents w' = extents w -> Inv w -> Inv w'.
Hypothesis Inv_register : forall s b w, Inv w -> Inv (registerStructure s b w).2.
Hypothesis Inv_remove : forall ty nm b w, Inv w -> Inv (removeStructure ty nm b w).
Hypothesis Inv_remove_name : forall nm w, Inv w -> Inv (removeStructure_name nm w).
Hypothesis Inv_remove_all : forall w, Inv w -> Inv (removeAllStructures w).







End SessionInvariant.

(** ** The extents follow the registry *)







Lemma isFinite_unitBox : isFinite unitBox.1 = true /\ isFinite unitBox.2 = true.
Proof. split; reflexivity. Qed.

Lemma updateExtents_spec_finite reg :
  isFinite (ext_boundingBox (updateExtents_spec reg)).1 = true /\
  isFinite (ext_boundingBox (updateExtents_spec reg)).2 = true.
Proof.
  unfold updateExtents_spec. cbn [ext_boundingBox].
  destruct (isFinite (foldedBox (allStructures reg)).1) eqn:H1;
    destruct (isFinite (foldedBox (allStructures reg)).2) eqn:H2;
    cbn [andb]; auto using isFinite_unitBox; apply isFinite_unitBox.
Qed.



(** X7: The bounding box [updateStructureExtents] stores is finite in every
    component, whatever boxes the structures report (infinite, NaN, or none
    at all): a non-finite fold is replaced by the unit box. *)
Theorem stored_bounding_box_is_finite (w : World) :
  let box := ext_boundingBox (extents (updateStructureExtents w)) in
  isFinite box.1 = true /\ isFinite box.2 = true /\
  (forall v, v ∈ [vx box.1; vy box.1; vz box.1; vx box.2; vy box.2; vz box.2] ->
             v <> S754_nan /\ v <> S754_infinity false /\ v <> S754_infinity true).
Proof.
  cbv zeta. rewrite updateStructureExtents_spec.
  destruct (updateExtents_spec_finite (structures w)) as [H1 H2].
  split; [exact H1|]. split; [exact H2|].
  intros v Hv. unfold isFinite in H1, H2.
  apply andb_prop in H1 as [H1 H1z]. apply andb_prop in H1 as [H1x H1y].
  apply andb_prop in H2 as [H2 H2z]. apply andb_prop in H2 as [H2x H2y].
  assert (Hfin : isfinite v = true).
  { rewrite !elem_of_cons, elem_of_nil in Hv.
    destruct Hv as [->|[->|[->|[->|[->|[->|[]]]]]]]; assumption. }
  destruct v; cbn in Hfin; try discriminate; repeat split; discriminate.
Qed.

Lemma stored_bounding_box_is_finite_witness :
  isFinite (ext_boundingBox (extents (updateStructureExtents sceneWorld))).1 = true /\
  vx (ext_boundingBox (extents (updateStructureExtents sceneWorld))).2 <> S754_nan.
Proof.
  destruct (stored_bounding_box_is_finite sceneWorld) as (Hmin & _ & Hcomp).
  split; [exact Hmin|]. apply Hcomp. rewrite !elem_of_cons. auto 10.
Defined.

(** *** A registry with one structure *)









(** ** removeAllStructures deletes everything, once *)

Lemma removeStructure_found_trace ty nm b w sMap s :
  structures w !! ty = Some sMap -> sMap !! nm = Some s ->
  trace (removeStructure ty nm b w) = trace w ++ [EvDelete (addr s)].
Proof.
  intros Hty Hs. rewrite (removeStructure_found ty nm b w sMap s Hty Hs).
  match goal with
  | |- context [updateStructureExtents ?x] =>
      destruct (updateStructureExtents_frame x) as (_ & _ & -> & _)
  end.
  cbn. unfold pick.clearPickIfStructureSelected. repeat case_match; reflexivity.
Qed.

Lemma remove_entries_trace ty b (l : list (string * Structure)) : forall w sMap,
  registry_wf (structures w) -> structures w !! ty = Some sMap ->
  NoDup l.*1 -> (forall nm s, (nm, s) ∈ l -> sMap !! nm = Some s) ->
  trace (foldl (fun w nm => removeStructure ty nm b w) w l.*1)
  = trace w ++ ((fun s => EvDelete (addr s)) <$> l.*2).
Proof.
  induction l as [|[nm s] l IH]; intros w sMap Hwf Hty Hnd Hin; cbn.
  - symmetry. apply app_nil_r.
  - cbn in Hnd. apply NoDup_cons in Hnd as [Hnm Hnd].
    assert (Hs : sMap !! nm = Some s) by (apply Hin; left).
    destruct (Hwf ty sMap nm s Hty Hs) as [_ Hname].
    pose proof (removeStructure_structures ty nm b w sMap s Hty Hs) as Hst.
    rewrite Hname in Hst.
    rewrite (IH (removeStructure ty nm b w) (delete nm sMap)).
    + rewrite (removeStructure_found_trace ty nm b w sMap s Hty Hs), <- app_assoc.
      reflexivity.
    + apply removeStructure_wf, Hwf.
    + rewrite Hst. apply lookup_insert_eq.
    + exact Hnd.
    + intros nm' s' Hin'. rewrite lookup_delete_ne.
      * apply Hin. right. exact Hin'.
      * intros ->. apply Hnm. apply list_elem_of_fmap. exists (nm', s'). split; [reflexivity | exact Hin'].
Qed.

Lemma remove_types_trace (l : list (string * gmap string Structure)) : forall w,
  registry_wf (structures w) -> NoDup l.*1 ->
  (forall ty sMap, (ty, sMap) ∈ l -> structures w !! ty = Some sMap) ->
  trace (foldl (fun w ty =>
                  let names := (entries (default ∅ (structures w !! ty))).*1 in
                  foldl (fun w nm => removeStructure ty nm errorIfAbsent_default w) w names)
               w l.*1)
  = trace w ++ ((fun s => EvDelete (addr s))
                  <$> mjoin ((fun cat : string * gmap string Structure => (entries cat.2).*2)
                               <$> l)).
Proof.
  induction l as [|[ty sMap] l IH]; intros w Hwf Hnd Hin; cbn.
  - symmetry. apply app_nil_r.
  - cbn in Hnd. apply NoDup_cons in Hnd as [Hty Hnd].
    assert (Hm : structures w !! ty = Some sMap) by (apply Hin; left).
    rewrite Hm. cbn [default from_option id].
    destruct (remove_type_structures ty w Hwf) as [Hst Hwf']; [eauto|].
    rewrite Hm in Hst, Hwf'. cbn [default from_option id] in Hst, Hwf'.
    rewrite IH.
    + rewrite (remove_entries_trace ty errorIfAbsent_default (entries sMap) w sMap Hwf Hm).
      * rewrite fmap_app, <- app_assoc. reflexivity.
      * apply NoDup_fst_entries.
      * intros nm s. apply elem_of_entries.
    + exact Hwf'.
    + exact Hnd.
    + intros ty' sMap' Hin'. rewrite Hst, lookup_insert_ne.
      * apply Hin. right. exact Hin'.
      * intros ->. apply Hty. apply list_elem_of_fmap. exists (ty', sMap').
        split; [reflexivity | exact Hin'].
Qed.

(** X9: In a registry that keeps structures under their own keys,
    [removeAllStructures] deletes every registered structure exactly once, in
    iteration order, and reports no error; afterwards no key holds a
    structure, the selection is cleared and a redraw is pending. *)
Theorem removeAllStructures_deletes_each_once (w : World) :
  registry_wf (structures w) ->
  trace (removeAllStructures w)
  = trace w ++ ((fun s => EvDelete (addr s)) <$> allStructures (structures w)) /\
  (forall ty nm, findStructure ty nm (removeAllStructures w) = None) /\
  allStructures (structures (removeAllStructures w)) = [] /\
  pickState (removeAllStructures w) = NoSelection /\
  redrawNextFrame (removeAllStructures w) = true.
Proof.
  intros Hwf.
  assert (Hnone : forall ty nm, findStructure ty nm (removeAllStructures w) = None)
    by (intros; apply removeAllStructures_empties, Hwf).
  split; [|split; [exact Hnone|split; [|split; reflexivity]]].
  - assert (Htr := remove_types_trace (entries (structures w)) w Hwf
                     (NoDup_fst_entries _)
                     (fun ty sMap => proj1 (elem_of_entries (structures w) ty sMap))).
    exact Htr.
  - apply allStructures_nil, Hnone.
Qed.

Lemma removeAllStructures_deletes_each_once_witness :
  registry_wf (structures sceneWorld) /\
  trace (removeAllStructures sceneWorld)
  = trace sceneWorld ++ [EvDelete 1; EvDelete 3; EvDelete 2].
Proof.
  split; [exact registry_wf_sceneWorld|].
  destruct (removeAllStructures_deletes_each_once sceneWorld registry_wf_sceneWorld)
    as [Htr _].
  rewrite Htr. f_equal.
Defined.

(** ** The context stack at its edges *)

Lemma registerStructure_contextStack s b w :
  contextStack (registerStructure s b w).2 = contextStack w.
Proof.
  assert (Hinstall : forall w2 st,
            contextStack (requestRedraw (updateStructureExtents (set_structures st w2)))
            = contextStack w2).
  { intros w2 st. cbn.
    destruct (updateStructureExtents_frame (set_structures st w2)) as (_ & _ & _ & -> & _).
    reflexivity. }
  assert (Hname : forall nm w2, contextStack (removeStructure_name nm w2) = contextStack w2).
  { intros nm w2. unfold removeStructure_name.
    destruct (scanTypes nm (entries (structures w2)) None) as [msg|[t|]]; try reflexivity.
    cbn. apply removeStructure_keeps. }
  unfold registerStructure. cbv zeta.
  destruct (structures w !! type s) as [sMap|] eqn:Hty; cbv beta iota.
  - rewrite !Hty. cbn [default from_option id].
    destruct (sMap !! name s); [|apply Hinstall].
    destruct b; [|reflexivity]. cbn [snd]. rewrite Hinstall. apply Hname.
  - cbn [structures set_structures]. rewrite !lookup_insert_eq.
    cbn [default from_option id]. rewrite lookup_empty. cbn [snd]. rewrite Hinstall. reflexivity.
Qed.

Lemma removeStructure_name_contextStack nm w :
  contextStack (removeStructure_name nm w) = contextStack w.
Proof.
  unfold removeStructure_name.
  destruct (scanTypes nm (entries (structures w)) None) as [msg|[t|]]; try reflexivity.
  cbn. apply removeStructure_keeps.
Qed.

Lemma removeAllStructures_contextStack w :
  contextStack (removeAllStructures w) = contextStack w.
Proof.
  unfold removeAllStructures. cbn.
  generalize (entries (structures w)).*1. intros tys. revert w.
  induction tys as [|ty tys IH]; intros w; cbn; [reflexivity|].
  rewrite IH. generalize (entries (default ∅ (structures w !! ty))).*1. intros names.
  revert w. induction names as [|nm names IHn]; intros w; cbn; [reflexivity|].
  rewrite IHn. apply removeStructure_keeps.
Qed.

Lemma drawScene_contextStack w : contextStack (drawScene w) = contextStack w.
Proof. unfold drawScene. case_match; reflexivity. Qed.

(** A callback without [popContext] and [pushContext] runs to its end and
    leaves the context stack as it found it. *)
Lemma runCallback_neverPops push cb :
  neverPops cb = true ->
  forall w, exists w', runCallback push cb w = Some w' /\ contextStack w' = contextStack w.
Proof.
  induction cb as [|k IH|cb' k IH|k IH|s b k IH|ty nm b k IH|nm k IH|k IH|id body IHb k IH];
    cbn [neverPops]; intros Hnp w; try discriminate; cbn [runCallback].
  - eauto.
  - destruct (IH Hnp (requestRedraw w)) as (w' & -> & Hst). eauto.
  - destruct (IH Hnp (registerStructure s b w).2) as (w' & -> & Hst).
    rewrite registerStructure_contextStack in Hst. eauto.
  - destruct (IH Hnp (removeStructure ty nm b w)) as (w' & -> & Hst).
    rewrite (proj2 (removeStructure_keeps ty nm b w)) in Hst. eauto.
  - destruct (IH Hnp (removeStructure_name nm w)) as (w' & -> & Hst).
    rewrite removeStructure_name_contextStack in Hst. eauto.
  - destruct (IH Hnp (removeAllStructures w)) as (w' & -> & Hst).
    rewrite removeAllStructures_contextStack in Hst. eauto.
  - apply andb_prop in Hnp as [Hb Hk].
    destruct (bool_decide (id ∈ clicked (frame w))); [|apply IH, Hk].
    destruct (IHb Hb w) as (w1 & -> & Hst1). cbn.
    destruct (IH Hk w1) as (w' & -> & Hst). rewrite Hst1 in Hst. eauto.
Qed.

(** A loop step in a modal context whose callback never pops completes and
    leaves the stack as it was. *)
Lemma iteration_neverPops push w st e cb :
  contextStack w = st ++ [e] -> st <> [] -> callback e = Some cb -> neverPops cb = true ->
  exists w', mainLoopIterationG push w = Some w' /\ contextStack w' = contextStack w.
Proof.
  intros Hstack Hst Hcb Hnp. rewrite mainLoopIterationG_unfold.
  destruct (beforeDraw_frame w) as (Hs & _ & _).
  assert (Hlen : (length (contextStack (beforeDraw w)) =? 1)%nat = false).
  { rewrite Hs, Hstack, length_app. cbn. apply Nat.eqb_neq.
    destruct st; [contradiction | cbn; lia]. }
  assert (Hlast : last (contextStack (beforeDraw w)) = Some e)
    by (rewrite Hs, Hstack; apply last_snoc).
  unfold draw. rewrite Hlen, Hlast.
  cbn [mbind option_bind]. rewrite Hcb. cbn [mbind option_bind].
  match goal with
  | |- context [runCallback push cb ?x] =>
      destruct (runCallback_neverPops push cb Hnp x) as (w1 & -> & Hst1)
  end.
  cbn [mbind option_bind]. eexists. split; [reflexivity|].
  rewrite drawScene_contextStack, Hst1. cbn [contextStack set_trace]. exact Hs.
Qed.

Lemma pushLoop_forever iter size : forall n w,
  (size <= length (contextStack w))%nat ->
  (forall w0, contextStack w0 = contextStack w ->
              exists w1, iter w0 = Some w1 /\ contextStack w1 = contextStack w) ->
  pushLoop iter n size w = None.
Proof.
  induction n as [|n IH]; intros w Hle Hiter; cbn;
    apply Nat.leb_le in Hle as Hb; rewrite Hb; [reflexivity|].
  destruct (Hiter w eq_refl) as (w1 & -> & Hst1). cbn.
  apply IH.
  - rewrite Hst1. exact Hle.
  - intros w0 Hw0. rewrite Hst1 in Hw0 |- *. apply Hiter, Hw0.
Qed.

(** X10: A modal context whose callback contains no [popContext] is never left:
    each loop step completes with the stack unchanged, so [pushContext] does
    not return, however many steps it is given. *)
Theorem pushContext_without_pop_never_returns (w : World) (cb : Callback) :
  neverPops cb = true -> contextStack w <> [] ->
  forall fuel,
    pushContext fuel (Some cb) w = None /\
    (forall w1, contextStack w1
                = contextStack w ++ [{| context := nextContext w; callback := Some cb |}] ->
                exists w2, mainLoopIteration (S fuel) w1 = Some w2 /\
                           contextStack w2 = contextStack w1).
Proof.
  intros Hnp Hst fuel.
  assert (Hstep : forall fuel' w1,
            contextStack w1
            = contextStack w ++ [{| context := nextContext w; callback := Some cb |}] ->
            exists w2, mainLoopIteration (S fuel') w1 = Some w2 /\
                       contextStack w2 = contextStack w1).
  { intros fuel' w1 Hw1. cbn [mainLoopIteration].
    eapply iteration_neverPops; [exact Hw1 | exact Hst | reflexivity | exact Hnp]. }
  split; [|apply Hstep].
  unfold pushContext, pushContextG. cbv zeta.
  destruct fuel as [|fuel'].
  - cbn [pushLoop]. rewrite Nat.leb_refl. reflexivity.
  - rewrite pushLoop_forever; [reflexivity | cbn [contextStack set_contextStack]; lia |].
    cbn [contextStack set_contextStack set_currentContext set_trace set_nextContext].
    intros w0 Hw0. destruct (Hstep fuel' w0 Hw0) as (w2 & Hrun & Hst2). exists w2.
    split; [exact Hrun | rewrite Hst2; exact Hw0].
Qed.

Lemma pushContext_without_pop_never_returns_witness :
  neverPops (CallRequestRedraw Return) = true /\ contextStack initWorld <> [] /\
  pushContext 7 (Some (CallRequestRedraw Return)) initWorld = None.
Proof.
  assert (Hst : contextStack initWorld <> []) by discriminate.
  split; [reflexivity|]. split; [exact Hst|].
  apply (pushContext_without_pop_never_returns initWorld (CallRequestRedraw Return)
           eq_refl Hst 7).
Defined.

Lemma mainLoopIteration_empty_stack fuel w :
  contextStack w = [] -> mainLoopIteration fuel w = None.
Proof.
  intros Hst. destruct fuel as [|fuel]; [reflexivity|].
  cbn [mainLoopIteration]. rewrite mainLoopIterationG_unfold.
  destruct (beforeDraw_frame w) as (Hs & _ & _).
  unfold draw. rewrite Hs, Hst. reflexivity.
Qed.

Lemma pushContextG_empty_stack iter n cb w :
  contextStack w = [] -> pushContextG iter n cb w = None.
Proof.
  intros Hst. unfold pushContextG. cbv zeta.
  match goal with
  | |- context [pushLoop iter n ?size ?w1] =>
      destruct (pushLoop iter n size w1) as [w2|] eqn:Hloop; [|reflexivity]
  end.
  apply pushLoop_exit in Hloop. cbn in Hloop. rewrite Hst in Hloop. cbn in Hloop.
  cbn [mbind option_bind contextStack set_trace].
  destruct (contextStack w2); [reflexivity | cbn in Hloop; lia].
Qed.

(** X11: With an empty context stack the program has no defined continuation: a
    loop step calls [back()] on the empty vector, and a [pushContext] can
    only leave its loop with the stack empty again, where it does the same.
    This is the state [popContext] leaves when it is called on the root. *)
Theorem empty_context_stack_is_fatal :
  (forall w, contextStack w = [] ->
             (forall fuel, mainLoopIteration fuel w = None) /\
             (forall fuel cb, pushContext fuel cb w = None)) /\
  (forall w0 root w1, contextStack w0 = [root] -> popContext w0 = Some w1 ->
                      forall fuel, mainLoopIteration fuel w1 = None).
Proof.
  split.
  - intros w Hst.
    split; [intros; apply mainLoopIteration_empty_stack, Hst|].
    intros; apply pushContextG_empty_stack, Hst.
  - intros w0 root w1 Hroot Hpop fuel. apply mainLoopIteration_empty_stack.
    unfold popContext in Hpop. rewrite Hroot in Hpop. cbn in Hpop. rewrite Hroot in Hpop.
    cbn in Hpop. injection Hpop as <-. reflexivity.
Qed.

Lemma empty_context_stack_is_fatal_witness :
  exists w, popContext initWorld = Some w /\ contextStack w = [] /\
            mainLoopIteration 5 w = None /\ pushContext 5 (Some closeAtOnce) w = None.
Proof.
  exists (set_contextStack [] (error tooManyPopsMsg initWorld)).
  split; [reflexivity|]. split; [reflexivity|].
  destruct empty_context_stack_is_fatal as [Hempty _].
  destruct (Hempty (set_contextStack [] (error tooManyPopsMsg initWorld)) eq_refl)
    as (Hstep & Hpush).
  split; [apply Hstep | apply Hpush].
Defined.

(** ** Redraw requests are served *)

Lemma rasterizations_plain w w' :
  emits plain w w' -> (rasterizations (trace w) <= rasterizations (trace w'))%nat.
Proof. intros (seg & -> & _). rewrite rasterizations_app. lia. Qed.

Lemma redrawDue_step n w w' :
  (rasterizations (trace w) <= rasterizations (trace w'))%nat ->
  (redrawNextFrame w = true -> redrawNextFrame w' = true) ->
  redrawDue n w -> redrawDue n w'.
Proof.
  unfold redrawDue. intros Hle Hflag [Hn Hdue]. split; [lia|].
  destruct Hdue as [Hf|Hlt]; [left; auto | right; lia].
Qed.

Lemma redrawDue_same n w w' :
  trace w' = trace w -> redrawNextFrame w' = redrawNextFrame w ->
  redrawDue n w -> redrawDue n w'.
Proof. unfold redrawDue. intros -> ->. auto. Qed.

Lemma redrawDue_drawScene n w :
  redrawDue n w ->
  (n < rasterizations (trace (drawScene w)))%nat /\ redrawDue n (drawScene w).
Proof.
  unfold redrawDue. intros [Hn Hdue].
  rewrite drawScene_trace, rasterizations_app.
  destruct Hdue as [Hf|Hlt].
  - rewrite Hf. cbn [orb]. change (rasterizations [EvDrawStructures]) with 1%nat.
    split; [lia|]. split; [lia|]. right. lia.
  - split; [lia|]. split; [lia|]. right. lia.
Qed.

Lemma redrawDue_registerStructure n s b w :
  redrawDue n w -> redrawDue n (registerStructure s b w).2.
Proof.
  apply redrawDue_step; [apply rasterizations_plain, registerStructure_plain|].
  intros Hf. unfold registerStructure. cbv zeta.
  set (w1 := match structures w !! type s with
             | None => set_structures (<[type s := ∅]> (structures w)) w
             | Some _ => w
             end).
  assert (Hf1 : redrawNextFrame w1 = true)
    by (subst w1; destruct (structures w !! type s); exact Hf).
  destruct (default ∅ (structures w1 !! type s) !! name s); [|reflexivity].
  destruct b; [reflexivity | exact Hf1].
Qed.

Lemma redrawDue_removeStructure n ty nm b w :
  redrawDue n w -> redrawDue n (removeStructure ty nm b w).
Proof.
  apply redrawDue_step; [apply rasterizations_plain, removeStructure_plain|].
  rewrite (proj1 (removeStructure_keeps ty nm b w)). auto.
Qed.

Lemma redrawDue_removeStructure_name n nm w :
  redrawDue n w -> redrawDue n (removeStructure_name nm w).
Proof.
  apply redrawDue_step; [apply rasterizations_plain, removeStructure_name_plain|].
  intros H. unfold removeStructure_name.
  destruct (scanTypes nm (entries (structures w)) None) as [msg|[t|]];
    [exact H | reflexivity | exact H].
Qed.

Lemma redrawDue_removeAllStructures n w :
  redrawDue n w -> redrawDue n (removeAllStructures w).
Proof.
  apply redrawDue_step; [apply rasterizations_plain, removeAllStructures_plain|].
  reflexivity.
Qed.

Lemma redrawDue_popContext n w w' :
  popContext w = Some w' -> redrawDue n w -> redrawDue n w'.
Proof.
  intros Hpop. apply redrawDue_step; [apply rasterizations_plain, popContext_plain, Hpop|].
  unfold popContext in Hpop. apply bind_Some in Hpop as (v & _ & H). injection H as <-.
  cbn. case_match; auto.
Qed.

Lemma redrawDue_buildPolyscopeGui n w :
  redrawDue n w -> redrawDue n (buildPolyscopeGui w).
Proof.
  intros Hdue. unfold buildPolyscopeGui, screenshot.
  destruct (screenshotClicked (frame w)); [|exact Hdue].
  eapply redrawDue_same; [reflexivity | reflexivity |].
  apply redrawDue_drawScene.
  eapply redrawDue_step; [| |exact Hdue]; [reflexivity | reflexivity].
Qed.

(** Case analysis on the branches of an unfolded [processMouseEvents]. *)
Ltac mouse_cases :=
  repeat match goal with
         | |- context [let '(_, _) := ?x in _] => destruct x eqn:?
         end;
  unfold pick.evaluatePickQuery, pick.setCurrentPickElement;
  repeat case_match; simplify_eq; cbn; auto.

Lemma processMouseEvents_keeps_request w :
  redrawNextFrame w = true -> redrawNextFrame (processMouseEvents w) = true.
Proof. intros Hf. unfold processMouseEvents. mouse_cases. Qed.

Lemma updateViewSize_keeps_request w :
  redrawNextFrame w = true -> redrawNextFrame (updateViewSize w) = true.
Proof. intros Hf. unfold updateViewSize. case_match; [reflexivity | exact Hf]. Qed.

Lemma redrawDue_beforeDraw n w : redrawDue n w -> redrawDue n (beforeDraw w).
Proof.
  apply redrawDue_step.
  - destruct (beforeDraw_frame w) as (_ & -> & _). rewrite rasterizations_app. lia.
  - intros Hf. unfold beforeDraw.
    apply processMouseEvents_keeps_request, updateViewSize_keeps_request. exact Hf.
Qed.

Section RedrawDue.
Variable n : nat.

Lemma runCallback_redrawDue push cb :
  (forall cb w w', redrawDue n w -> push cb w = Some w' -> redrawDue n w') ->
  forall w w', redrawDue n w -> runCallback push cb w = Some w' -> redrawDue n w'.
Proof.
  intros Hpush.
  induction cb as [|k IH|cb' k IH|k IH|s b k IH|ty nm b k IH|nm k IH|k IH|id body IHb k IH];
    intros w w' Hdue Hrun; cbn in Hrun.
  - injection Hrun as <-. exact Hdue.
  - apply bind_Some in Hrun as (w1 & Hpop & Hrun). eapply IH; [|exact Hrun].
    eapply redrawDue_popContext; eauto.
  - apply bind_Some in Hrun as (w1 & Hp & Hrun). eauto.
  - eapply IH; [|exact Hrun].
    eapply redrawDue_step; [| |exact Hdue]; [reflexivity | reflexivity].
  - eapply IH; [|exact Hrun]. apply redrawDue_registerStructure, Hdue.
  - eapply IH; [|exact Hrun]. apply redrawDue_removeStructure, Hdue.
  - eapply IH; [|exact Hrun]. apply redrawDue_removeStructure_name, Hdue.
  - eapply IH; [|exact Hrun]. apply redrawDue_removeAllStructures, Hdue.
  - destruct (bool_decide (id ∈ clicked (frame w))); [|eauto].
    apply bind_Some in Hrun as (w1 & Hbody & Hrun). eauto.
Qed.

(** A [draw] entered with a redraw due carries it out. *)
Lemma draw_serves push w w' :
  (forall cb w w', redrawDue n w -> push cb w = Some w' -> redrawDue n w') ->
  redrawDue n w -> draw push true w = Some w' ->
  (n < rasterizations (trace w'))%nat /\ redrawDue n w'.
Proof.
  intros Hpush Hdue. unfold draw. intros Hdraw.
  apply bind_Some in Hdraw as (wg & Hgui & Hscene). injection Hscene as <-.
  apply redrawDue_drawScene.
  destruct (length (contextStack w) =? 1)%nat.
  - apply bind_Some in Hgui as (wu & Huser & Hgui). injection Hgui as <-.
    apply redrawDue_buildPolyscopeGui.
    unfold buildUserGui in Huser. destruct (userCallback w) as [cb|].
    + eapply runCallback_redrawDue; [exact Hpush | exact Hdue | exact Huser].
    + injection Huser as <-. exact Hdue.
  - apply bind_Some in Hgui as (e & _ & Hgui). apply bind_Some in Hgui as (cb & _ & Hrun).
    eapply runCallback_redrawDue; [exact Hpush | | exact Hrun].
    eapply redrawDue_step; [| |exact Hdue]; [|auto].
    cbn [trace set_trace]. rewrite rasterizations_app. lia.
Qed.

(** A loop step in which a redraw is due when the GUI is built ends with it
    carried out. *)
Lemma mainLoopIterationG_serves_input push w w' :
  (forall cb w w', redrawDue n w -> push cb w = Some w' -> redrawDue n w') ->
  redrawDue n (beforeDraw w) -> mainLoopIterationG push w = Some w' ->
  (n < rasterizations (trace w'))%nat /\ redrawDue n w'.
Proof.
  intros Hpush Hdue. rewrite mainLoopIterationG_unfold. apply draw_serves; assumption.
Qed.

Lemma mainLoopIterationG_serves push w w' :
  (forall cb w w', redrawDue n w -> push cb w = Some w' -> redrawDue n w') ->
  redrawDue n w -> mainLoopIterationG push w = Some w' ->
  (n < rasterizations (trace w'))%nat /\ redrawDue n w'.
Proof.
  intros Hpush Hdue. apply mainLoopIterationG_serves_input; [exact Hpush|].
  apply redrawDue_beforeDraw, Hdue.
Qed.

Lemma pushLoop_redrawDue iter m size :
  (forall w w', redrawDue n w -> iter w = Some w' -> redrawDue n w') ->
  forall w w', redrawDue n w -> pushLoop iter m size w = Some w' -> redrawDue n w'.
Proof.
  intros Hiter. induction m as [|m IH]; intros w w' Hdue Hloop; cbn in Hloop;
    destruct (size <=? length (contextStack w))%nat.
  - discriminate.
  - injection Hloop as <-. exact Hdue.
  - apply bind_Some in Hloop as (w1 & Hstep & Hloop). eapply IH; [|exact Hloop]. eauto.
  - injection Hloop as <-. exact Hdue.
Qed.

Lemma pushContextG_redrawDue iter m cb w w' :
  (forall w w', redrawDue n w -> iter w = Some w' -> redrawDue n w') ->
  redrawDue n w -> pushContextG iter m cb w = Some w' -> redrawDue n w'.
Proof.
  intros Hiter Hdue Hpush. unfold pushContextG in Hpush.
  apply bind_Some in Hpush as (w1 & Hloop & Hrest).
  apply bind_Some in Hrest as (e & _ & Hw'). injection Hw' as <-.
  eapply redrawDue_step;
    [| |eapply (pushLoop_redrawDue iter m _ Hiter); [|exact Hloop]].
  - cbn [trace set_currentContext set_trace]. rewrite rasterizations_app. lia.
  - auto.
  - eapply redrawDue_step; [| |exact Hdue]; [|auto].
    cbn [trace set_contextStack set_currentContext set_trace set_nextContext].
    rewrite rasterizations_app. lia.
Qed.

Lemma mainLoopIteration_serves fuel : forall w w',
  redrawDue n w -> mainLoopIteration fuel w = Some w' ->
  (n < rasterizations (trace w'))%nat /\ redrawDue n w'.
Proof.
  induction fuel as [|fuel IH]; intros w w' Hdue Hrun; [discriminate|].
  rewrite mainLoopIteration_S in Hrun.
  eapply mainLoopIterationG_serves; [|exact Hdue|exact Hrun].
  intros cb w1 w2 Hdue1 Hpush.
  eapply pushContextG_redrawDue; [|exact Hdue1|exact Hpush].
  intros w3 w4 Hdue3 Hrun3. eapply IH; eauto.
Qed.
End RedrawDue.

Lemma pushContext_step_redrawDue n fuel cb w w' :
  redrawDue n w -> pushContextG (mainLoopIteration fuel) fuel cb w = Some w' ->
  redrawDue n w'.
Proof.
  intros Hdue Hpush. eapply pushContextG_redrawDue; [|exact Hdue|exact Hpush].
  intros w1 w2 Hdue1 Hrun. eapply mainLoopIteration_serves; eauto.
Qed.

Lemma beforeDraw_view w : view (beforeDraw w) = view (updateViewSize (pollInput
  (set_trace (trace w ++ [EvIteration (length (contextStack w))]) w))).
Proof.
  unfold beforeDraw. unfold processMouseEvents.
  repeat match goal with
         | |- context [let '(_, _) := ?x in _] => destruct x eqn:?
         end.
  unfold pick.evaluatePickQuery, pick.setCurrentPickElement.
  repeat case_match; simplify_eq; cbn; auto.
Qed.

Lemma processMouseEvents_requests w :
  mouseWantsRedraw (frame w) = true -> redrawNextFrame (processMouseEvents w) = true.
Proof.
  unfold mouseWantsRedraw. intros Hwant.
  apply orb_true_iff in Hwant as [Hdown | Hwant];
    [|apply andb_true_iff in Hwant as [Hcap Hwant]; apply negb_true_iff in Hcap;
      apply orb_true_iff in Hwant as [Hscroll | Hdrag]];
    unfold processMouseEvents.
  - rewrite Hdown. mouse_cases.
  - rewrite Hcap, Hscroll. cbn [negb andb]. mouse_cases.
  - rewrite Hcap, Hdrag. cbn [negb andb]. mouse_cases.
Qed.

Lemma updateViewSize_requests w :
  view (updateViewSize w) <> view w -> redrawNextFrame (updateViewSize w) = true.
Proof. unfold updateViewSize. case_match; [reflexivity | congruence]. Qed.

Lemma beforeDraw_requests w :
  redrawNextFrame w = true \/ mouseWantsRedraw (frame (pollInput w)) = true \/
  view (beforeDraw w) <> view w ->
  redrawNextFrame (beforeDraw w) = true.
Proof.
  intros [Hflag | [Hmouse | Hview]].
  - unfold beforeDraw. apply processMouseEvents_keeps_request, updateViewSize_keeps_request.
    exact Hflag.
  - unfold beforeDraw. apply processMouseEvents_requests.
    replace (frame _) with (frame (pollInput w)); [exact Hmouse|].
    unfold updateViewSize. case_match; reflexivity.
  - rewrite beforeDraw_view in Hview.
    unfold beforeDraw. apply processMouseEvents_keeps_request, updateViewSize_requests.
    exact Hview.
Qed.

(** X12: A redraw that is asked for is carried out: when a loop step starts
    with the redraw flag set, or its input has a mouse button down, a scroll
    or a drag outside the GUI, or a window or buffer size other than the
    cached one, then the step rasterizes the scene at least once, whatever
    the callbacks do, and ends with the flag cleared. *)
Theorem redraw_requests_are_served (fuel : nat) (w w' : World) :
  mainLoopIteration fuel w = Some w' ->
  redrawNextFrame w = true \/ mouseWantsRedraw (frame (pollInput w)) = true \/
  view (beforeDraw w) <> view w ->
  (rasterizations (trace w) < rasterizations (trace w'))%nat /\
  redrawNextFrame w' = false.
Proof.
  intros Hrun Hwant. apply beforeDraw_requests in Hwant.
  destruct fuel as [|fuel]; [discriminate|]. rewrite mainLoopIteration_S in Hrun.
  split.
  - eapply (mainLoopIterationG_serves_input (rasterizations (trace w))); [| |exact Hrun].
    + intros cb w1 w2. apply pushContext_step_redrawDue.
    + split; [|left; exact Hwant].
      destruct (beforeDraw_frame w) as (_ & -> & _). rewrite rasterizations_app.
      cbn. lia.
  - rewrite mainLoopIterationG_unfold in Hrun.
    apply draw_ends_with_drawScene in Hrun as (wg & -> & _). apply drawScene_clears.
Qed.

Lemma redraw_requests_are_served_witness :
  exists w', mainLoopIteration 1 initWorld = Some w' /\
             (rasterizations (trace initWorld) < rasterizations (trace w'))%nat /\
             redrawNextFrame w' = false.
Proof.
  eexists. split; [reflexivity|].
  apply (redraw_requests_are_served 1 initWorld); [reflexivity | left; reflexivity].
Defined.

(** ** The pixels of a screenshot *)

Lemma int_in_range z : - INT_MAX - 1 <= z <= INT_MAX -> int z = Some z.
Proof. intros Hz. unfold int. rewrite decide_True by exact Hz. reflexivity. Qed.

Lemma int_overflow z : INT_MAX < z -> int z = None.
Proof. intros Hz. unfold int. rewrite decide_False by lia. reflexivity. Qed.

Lemma forCount_inv {S : Type} (P : Z -> S -> Prop) (body : Z -> S -> option S) count :
  forall i0 s,
  P i0 s ->
  (forall i s, i0 <= i < i0 + Z.of_nat count -> P i s ->
               exists s', body i s = Some s' /\ P (i + 1) s') ->
  exists s', forCount count i0 body s = Some s' /\ P (i0 + Z.of_nat count) s'.
Proof.
  induction count as [|count IH]; intros i0 s HP Hstep.
  - exists s. split; [reflexivity|]. replace (i0 + Z.of_nat 0) with i0 by lia. exact HP.
  - destruct (Hstep i0 s) as (s1 & Hbody & HP1); [lia | exact HP |].
    destruct (IH (i0 + 1) s1 HP1) as (s' & Hrest & HP').
    { intros i s2 Hi. apply Hstep. lia. }
    exists s'. split.
    + cbn [forCount]. rewrite Hbody. exact Hrest.
    + replace (i0 + Z.of_nat (Datatypes.S count)) with (i0 + 1 + Z.of_nat count) by lia.
      exact HP'.
Qed.

Lemma forInt_inv {S : Type} (P : Z -> S -> Prop) (body : Z -> S -> option S) n s :
  0 <= n -> P 0 s ->
  (forall i s, 0 <= i < n -> P i s -> exists s', body i s = Some s' /\ P (i + 1) s') ->
  exists s', forInt n body s = Some s' /\ P n s'.
Proof.
  intros Hn HP Hstep. unfold forInt.
  destruct (forCount_inv P body (Z.to_nat n) 0 s HP) as (s' & Hrun & HP').
  { intros i s1 Hi. apply Hstep. lia. }
  exists s'. split; [exact Hrun|].
  replace (0 + Z.of_nat (Z.to_nat n)) with n in HP' by lia. exact HP'.
Qed.

(** Distinct bytes of distinct pixels lie at distinct offsets. *)
Lemma pixel_offset_inj channels w x r c x' r' c' :
  0 <= x < w -> 0 <= x' < w -> 0 <= r -> 0 <= r' ->
  0 <= c < channels -> 0 <= c' < channels ->
  channels * (x + r * w) + c = channels * (x' + r' * w) + c' ->
  x = x' /\ r = r' /\ c = c'.
Proof.
  intros Hx Hx' Hr Hr' Hc Hc' Heq.
  assert (Hpix : x + r * w = x' + r' * w /\ c = c').
  { apply (Z.div_mod_unique channels); [lia | lia | exact Heq]. }
  destruct Hpix as [Hpix ->].
  assert (Hrow : r = r' /\ x = x').
  { apply (Z.div_mod_unique w); [lia | lia | lia]. }
  tauto.
Qed.

Section CopyFlipped.
Variables (channels w h : Z) (buff : list Byte.byte).
Hypothesis channels_range : 1 <= channels <= 4.
Hypothesis w_nonneg : 0 <= w.
Hypothesis h_nonneg : 0 <= h.
Hypothesis fits : 4 * (w * h) <= INT_MAX.
Hypothesis buff_length : length buff = Z.to_nat (4 * (w * h)).

Lemma copiedSoFar_weaken j0 i0 c0 j1 i1 c1 out :
  (forall x j c, 0 <= x < w -> 0 <= j < h -> 0 <= c < channels ->
                 copied j1 i1 c1 x j c -> copied j0 i0 c0 x j c) ->
  copiedSoFar channels w h buff j0 i0 c0 out ->
  copiedSoFar channels w h buff j1 i1 c1 out.
Proof. intros Hsub [Hlen Hout]. split; [exact Hlen|]. intros x j c Hx Hj Hc Hd. auto. Qed.

Lemma pixel_in_frame x j : 0 <= x < w -> 0 <= j < h -> 0 <= x + j * w < w * h.
Proof. intros Hx Hj. nia. Qed.

Lemma assign_copies j i c out :
  0 <= j < h -> 0 <= i < w -> 0 <= c < channels ->
  copiedSoFar channels w h buff j i c out ->
  exists out',
    assign out (k ← imul channels (i + (h - j - 1) * w); iadd k c)
           buff (k ← imul 4 (i + j * w); iadd k c) = Some out' /\
    copiedSoFar channels w h buff j i (c + 1) out'.
Proof.
  intros Hj Hi Hc [Hlen Hout].
  pose proof (pixel_in_frame i j Hi Hj) as Hsrc.
  pose proof (pixel_in_frame i (h - j - 1) Hi ltac:(lia)) as Htgt.
  assert (Hwh : 0 <= w * h) by nia.
  unfold imul, iadd, assign. unfold INT_MAX in *.
  rewrite (int_in_range (channels * _)) by (unfold INT_MAX; nia). cbn [mbind option_bind].
  rewrite (int_in_range (channels * _ + c)) by (unfold INT_MAX; nia). cbn [mbind option_bind].
  rewrite (int_in_range (4 * _)) by (unfold INT_MAX; nia). cbn [mbind option_bind].
  rewrite (int_in_range (4 * _ + c)) by (unfold INT_MAX; nia). cbn [mbind option_bind].
  unfold load. rewrite decide_True by nia.
  destruct (lookup_lt_is_Some_2 buff (Z.to_nat (4 * (i + j * w) + c))) as [v Hv].
  { rewrite buff_length. nia. }
  rewrite Hv. cbn [mbind option_bind].
  unfold store. rewrite decide_True by (rewrite Hlen; nia).
  eexists. split; [reflexivity|]. split.
  - rewrite length_insert. exact Hlen.
  - intros x j' c' Hx Hj' Hc' Hd.
    destruct (decide (x = i /\ j' = j /\ c' = c)) as [(-> & -> & ->)|Hne].
    + rewrite list_lookup_insert_eq by (rewrite Hlen; nia). symmetry. exact Hv.
    + rewrite list_lookup_insert_ne.
      * apply Hout; try assumption. unfold copied in *. lia.
      * intros Heq. apply Hne.
        assert (Hz : channels * (i + (h - j - 1) * w) + c
                     = channels * (x + (h - j' - 1) * w) + c').
        { pose proof (pixel_in_frame x (h - j' - 1) Hx ltac:(lia)). nia. }
        apply pixel_offset_inj in Hz; lia.
Qed.

Lemma copyFlipped_copies out :
  length out = Z.to_nat (channels * (w * h)) ->
  exists out', copyFlipped channels w h buff out = Some out' /\
               copiedSoFar channels w h buff h 0 0 out'.
Proof.
  intros Hlen. unfold copyFlipped.
  apply (forInt_inv (fun j out => copiedSoFar channels w h buff j 0 0 out));
    [exact h_nonneg | |].
  { split; [exact Hlen|]. unfold copied. intros; lia. }
  intros j out1 Hj Hrows.
  destruct (forInt_inv (fun i out => copiedSoFar channels w h buff j i 0 out)
              (fun i out =>
                 ind ← (jw ← imul j w; iadd i jw);
                 flipInd ← (d ← isub h j; d ← isub d 1; dw ← imul d w; iadd i dw);
                 forCount (Z.to_nat channels) 0 (fun c out =>
                   assign out (k ← imul channels flipInd; iadd k c)
                          buff (k ← imul 4 ind; iadd k c)) out)
              w out1 w_nonneg Hrows) as (out2 & Hrun & Hdone).
  - intros i out2 Hi Hcols.
    pose proof (pixel_in_frame i j Hi Hj) as Hsrc.
    pose proof (pixel_in_frame i (h - j - 1) Hi ltac:(lia)) as Htgt.
    assert (Hjw : 0 <= j * w <= w * h) by nia.
    assert (Hdw : 0 <= (h - j - 1) * w <= w * h) by nia.
    unfold imul, iadd, isub.
    rewrite (int_in_range (j * w)) by (unfold INT_MAX in *; lia). cbn [mbind option_bind].
    rewrite (int_in_range (i + j * w)) by (unfold INT_MAX in *; lia). cbn [mbind option_bind].
    rewrite (int_in_range (h - j)) by (unfold INT_MAX in *; nia). cbn [mbind option_bind].
    rewrite (int_in_range (h - j - 1)) by (unfold INT_MAX in *; nia). cbn [mbind option_bind].
    rewrite (int_in_range ((h - j - 1) * w)) by (unfold INT_MAX in *; lia).
    cbn [mbind option_bind].
    rewrite (int_in_range (i + (h - j - 1) * w)) by (unfold INT_MAX in *; lia).
    cbn [mbind option_bind].
    destruct (forCount_inv (fun c out => copiedSoFar channels w h buff j i c out)
                (fun c out =>
                   assign out (k ← int (channels * (i + (h - j - 1) * w)); int (k + c))
                          buff (k ← int (4 * (i + j * w)); int (k + c)))
                (Z.to_nat channels) 0 out2 Hcols) as (out3 & Hrun3 & Hdone3).
    + intros c out3 Hc Hchan. apply assign_copies; [exact Hj | exact Hi | lia | exact Hchan].
    + exists out3. split; [exact Hrun3|].
      revert Hdone3. apply copiedSoFar_weaken. unfold copied. intros; lia.
  - exists out2. split; [exact Hrun|].
    revert Hdone. apply copiedSoFar_weaken. unfold copied. intros; lia.
Qed.

Lemma copyFlipped_image out :
  length out = Z.to_nat (channels * (w * h)) ->
  exists img, copyFlipped channels w h buff out = Some img /\
    length img = Z.to_nat (channels * (w * h)) /\
    forall x y c, 0 <= x < w -> 0 <= y < h -> 0 <= c < channels ->
      pixelByte channels w img x y c = pixelByte 4 w buff x (h - 1 - y) c.
Proof.
  intros Hlen. destruct (copyFlipped_copies out Hlen) as (img & Hrun & Himg_len & Himg).
  exists img. split; [exact Hrun|]. split; [exact Himg_len|].
  intros x y c Hx Hy Hc. unfold pixelByte.
  rewrite <- (Himg x (h - 1 - y) c); [|lia|lia|lia|unfold copied; lia].
  replace (h - (h - 1 - y) - 1) with y by lia. reflexivity.
Qed.
End CopyFlipped.

Lemma flipRows_copyFlipped w h buff out : flipRows w h buff out = copyFlipped 4 w h buff out.
Proof. reflexivity. Qed.

Lemma stripAlphaAndFlip_copyFlipped w h buff out :
  stripAlphaAndFlip w h buff out = copyFlipped 3 w h buff out.
Proof. reflexivity. Qed.

(** X13: The image saved by [screenshot] is the frame read from the GPU with its
    rows in reverse order, with or without the alpha byte of each pixel; all
    its bytes are written, and nothing is read or written out of bounds.  A
    frame of more than [INT_MAX / 4] pixels overflows the [int] size
    computation. *)
Theorem screenshot_image_is_flipped_frame (transparentBG : bool) (w h : Z)
  (buff : list Byte.byte) (fresh : Z -> list Byte.byte) :
  0 <= w -> 0 <= h ->
  length buff = Z.to_nat (4 * (w * h)) ->
  (forall n, length (fresh n) = Z.to_nat n) ->
  let channels := if transparentBG then 4 else 3 in
  (4 * (w * h) <= INT_MAX ->
   exists img, screenshotImage transparentBG w h buff fresh = Some (img, channels) /\
     length img = Z.to_nat (channels * (w * h)) /\
     forall x y c, 0 <= x < w -> 0 <= y < h -> 0 <= c < channels ->
       pixelByte channels w img x y c = pixelByte 4 w buff x (h - 1 - y) c) /\
  (INT_MAX < 4 * (w * h) -> screenshotImage transparentBG w h buff fresh = None).
Proof.
  intros Hw Hh Hbuff Hfresh channels. assert (Hwh : 0 <= w * h) by nia. split.
  - intros Hfits. unfold screenshotImage, imul.
    rewrite (int_in_range (w * h)) by (unfold INT_MAX in *; lia). cbn [mbind option_bind].
    rewrite (int_in_range (w * h * 4)) by (unfold INT_MAX in *; lia). cbn [mbind option_bind].
    destruct transparentBG; subst channels.
    + rewrite flipRows_copyFlipped.
      destruct (copyFlipped_image 4 w h buff ltac:(lia) Hw Hh Hfits Hbuff (fresh (w * h * 4)))
        as (img & -> & Hlen & Himg).
      { rewrite Hfresh. f_equal. lia. }
      exists img. auto.
    + rewrite (int_in_range (w * h * 3)) by (unfold INT_MAX in *; lia).
      cbn [mbind option_bind]. rewrite stripAlphaAndFlip_copyFlipped.
      destruct (copyFlipped_image 3 w h buff ltac:(lia) Hw Hh Hfits Hbuff (fresh (w * h * 3)))
        as (img & -> & Hlen & Himg).
      { rewrite Hfresh. f_equal. lia. }
      exists img. auto.
  - intros Hover. unfold screenshotImage, imul.
    destruct (int (w * h)) as [wh|] eqn:Hint; [|reflexivity]. cbn [mbind option_bind].
    assert (wh = w * h) as ->.
    { unfold int in Hint. case_match; congruence. }
    rewrite (int_overflow (w * h * 4)) by lia. reflexivity.
Qed.

Lemma screenshot_image_is_flipped_frame_witness :
  exists img, screenshotImage false 1 2 sampleFrame zeroedArray = Some (img, 3) /\
              pixelByte 3 1 img 0 0 2 = Some Byte.x07 /\
              pixelByte 3 1 img 0 1 0 = Some Byte.x01.
Proof.
  destruct (screenshot_image_is_flipped_frame false 1 2 sampleFrame zeroedArray)
    as [Hok _]; [lia | lia | reflexivity | intros n; apply length_replicate |].
  destruct Hok as (img & Hrun & _ & Hpix); [unfold INT_MAX; lia|].
  exists img. split; [exact Hrun|].
  rewrite (Hpix 0 0 2), (Hpix 0 1 0) by lia. split; reflexivity.
Defined.

(** ** The file name of a screenshot *)

Lemma decimalValue_app a b : forall acc,
  decimalValue acc (a +:+ b) = decimalValue (decimalValue acc a) b.
Proof. induction a as [|c a IH]; intros acc; cbn; [reflexivity | apply IH]. Qed.

Lemma digitValue_digitChar d : (d < 10)%N -> digitValue (digitChar d) = d.
Proof.
  intros Hd. unfold digitValue, digitChar.
  rewrite Ascii.N_ascii_embedding by lia. lia.
Qed.

Lemma string_length_app a b :
  String.length (a +:+ b) = (String.length a + String.length b)%nat.
Proof.
  induction a as [|c a IH]; [reflexivity|].
  change (S (String.length (a +:+ b)) = S (String.length a + String.length b)).
  rewrite IH. reflexivity.
Qed.

Lemma decimal_length fuel : forall n, (String.length (decimal fuel n) <= fuel)%nat.
Proof.
  induction fuel as [|fuel IH]; intros n; cbn [decimal]; [cbn; lia|].
  rewrite string_length_app. cbn [String.length].
  destruct (n <? 10)%N; [cbn; lia|]. specialize (IH (n / 10)%N). lia.
Qed.

(** Reading back what [decimal] printed gives the number. *)
Lemma decimalValue_decimal fuel : forall n acc,
  (n < 10 ^ N.of_nat fuel)%N ->
  decimalValue acc (decimal fuel n)
  = (acc * 10 ^ N.of_nat (String.length (decimal fuel n)) + n)%N.
Proof.
  induction fuel as [|fuel IH]; intros n acc Hn.
  - cbn in *. lia.
  - cbn [decimal]. rewrite decimalValue_app, string_length_app. cbn [decimalValue String.length].
    rewrite digitValue_digitChar by (apply N.mod_lt; lia).
    destruct (n <? 10)%N eqn:Hsmall.
    + apply N.ltb_lt in Hsmall. cbn [decimalValue String.length].
      rewrite N.mod_small by exact Hsmall. cbn. lia.
    + apply N.ltb_ge in Hsmall.
      assert (Hq : (n / 10 < 10 ^ N.of_nat fuel)%N).
      { apply N.Div0.div_lt_upper_bound.
        replace (N.of_nat (S fuel)) with (N.succ (N.of_nat fuel)) in Hn by lia.
        rewrite N.pow_succ_r' in Hn. exact Hn. }
      rewrite (IH _ _ Hq).
      replace (N.of_nat (String.length (decimal fuel (n / 10)) + 1))
        with (N.succ (N.of_nat (String.length (decimal fuel (n / 10))))) by lia.
      rewrite N.pow_succ_r'.
      pose proof (N.div_mod n 10 ltac:(lia)) as Hdm. lia.
Qed.

Lemma decimalValue_zeros k : decimalValue 0 (zeros k) = 0%N.
Proof. induction k as [|k IH]; [reflexivity | exact IH]. Qed.

Lemma zeros_length k : String.length (zeros k) = k.
Proof. induction k as [|k IH]; cbn; [reflexivity | rewrite IH; reflexivity]. Qed.

Lemma decimalValue_format n : (n < 2 ^ 64)%N -> decimalValue 0 (format_06zu n) = n.
Proof.
  intros Hn. unfold format_06zu. cbv zeta.
  rewrite decimalValue_app, decimalValue_zeros, decimalValue_decimal; [lia|].
  eapply N.lt_trans; [exact Hn | reflexivity].
Qed.

Lemma format_length n : (6 <= String.length (format_06zu n) <= 20)%nat.
Proof.
  unfold format_06zu. cbv zeta. rewrite string_length_app, zeros_length.
  pose proof (decimal_length 20 n). lia.
Qed.

Lemma substring_all n : forall s, (String.length s <= n)%nat -> String.substring 0 n s = s.
Proof.
  induction n as [|n IH]; intros [|c s] Hlen; cbn in *; try reflexivity; [lia|].
  rewrite IH by lia. reflexivity.
Qed.

Lemma defaultName_not_cut n :
  defaultName n = "screenshot_" +:+ format_06zu n +:+ ".png".
Proof.
  unfold defaultName. apply substring_all.
  rewrite !string_length_app. pose proof (format_length n). cbn. lia.
Qed.

Lemma defaultName_inj i j :
  (i < 2 ^ 64)%N -> (j < 2 ^ 64)%N -> defaultName i = defaultName j -> i = j.
Proof.
  intros Hi Hj Heq. rewrite !defaultName_not_cut in Heq.
  apply String.app_inj in Heq.
  apply (f_equal (decimalValue 0)) in Heq.
  rewrite !decimalValue_app, !decimalValue_format in Heq by assumption.
  cbn in Heq. lia.
Qed.

Lemma drawScene_screenshotInd w : screenshotInd (drawScene w) = screenshotInd w.
Proof. unfold drawScene. case_match; reflexivity. Qed.

(** The counter is a [size_t]: a screenshot moves it on by one, around
    2^64. *)
Lemma screenshot_counter w :
  screenshotInd (screenshot w) = ((screenshotInd w + 1) mod 2 ^ 64)%N.
Proof.
  unfold screenshot. cbv zeta. unfold set_screenshotInd. cbn [screenshotInd].
  rewrite drawScene_screenshotInd. reflexivity.
Qed.

Lemma screenshot_counter_iter k : forall w,
  (screenshotInd w < 2 ^ 64)%N ->
  screenshotInd (N.iter k screenshot w) = ((screenshotInd w + k) mod 2 ^ 64)%N.
Proof.
  induction k as [|k IH] using N.peano_ind; intros w Hw.
  - cbn [N.iter]. rewrite N.add_0_r, N.mod_small by exact Hw. reflexivity.
  - rewrite N.iter_succ, screenshot_counter, (IH w Hw).
    rewrite N.Div0.add_mod_idemp_l. f_equal. lia.
Qed.

Lemma counter_moves (i k : N) :
  (i < 2 ^ 64)%N -> (0 < k < 2 ^ 64)%N -> ((i + k) mod 2 ^ 64 <> i)%N.
Proof.
  set (M := (2 ^ 64)%N). intros Hi Hk Heq.
  assert (HM : (0 < M)%N) by reflexivity.
  pose proof (N.div_mod (i + k) M ltac:(lia)) as Hdm. rewrite Heq in Hdm.
  assert (Hq : ((i + k) / M < 2)%N) by (apply N.Div0.div_lt_upper_bound; lia).
  assert (Hcases : ((i + k) / M = 0 \/ (i + k) / M = 1)%N) by lia.
  destruct Hcases as [Hz|Ho]; rewrite ?Hz, ?Ho in Hdm; lia.
Qed.

(** X14: The default file names of screenshots: the name is never cut short
    by the buffer of 50 characters and the counter can be read back from it,
    so that different counters give different names.  Each screenshot moves
    the counter on by one, around 2^64 as a [size_t] does, so the name it
    used is not used again by any of the 2^64 - 1 screenshots that follow
    it. *)
Theorem screenshot_names_never_repeat (i j : N) :
  (i < 2 ^ 64)%N -> (j < 2 ^ 64)%N ->
  defaultName i = "screenshot_" +:+ format_06zu i +:+ ".png" /\
  decimalValue 0 (format_06zu i) = i /\
  (6 <= String.length (format_06zu i))%nat /\
  (defaultName i = defaultName j -> i = j) /\
  (forall w, screenshotInd w = i ->
             screenshotInd (screenshot w) = (if (i =? 2 ^ 64 - 1)%N then 0 else i + 1)%N /\
             (screenshotInd (screenshot w) < 2 ^ 64)%N /\
             defaultName (screenshotInd (screenshot w)) <> defaultName i) /\
  (forall w k, screenshotInd w = i -> (0 < k < 2 ^ 64)%N ->
               (screenshotInd (N.iter k screenshot w) < 2 ^ 64)%N /\
               defaultName (screenshotInd (N.iter k screenshot w)) <> defaultName i).
Proof.
  intros Hi Hj. split; [apply defaultName_not_cut|].
  split; [apply decimalValue_format, Hi|].
  split; [apply format_length|].
  split; [apply defaultName_inj; assumption|].
  assert (Hbound : forall n, (n mod 2 ^ 64 < 2 ^ 64)%N).
  { intros n. apply N.mod_lt. discriminate. }
  split.
  - intros w Hw. rewrite screenshot_counter, Hw. split; [|split].
    + destruct (N.eqb_spec i (2 ^ 64 - 1)) as [->|Hne]; [reflexivity|].
      apply N.mod_small.
      assert (Hle : (i <= 2 ^ 64 - 1)%N) by (apply N.lt_le_pred in Hi; exact Hi).
      set (M := (2 ^ 64)%N) in *. assert (HM : (0 < M)%N) by reflexivity. lia.
    + apply Hbound.
    + intros Heq. apply defaultName_inj in Heq; [|apply Hbound | exact Hi].
      revert Heq. apply (counter_moves i 1 Hi). split; reflexivity.
  - intros w k Hw Hk. rewrite screenshot_counter_iter by (rewrite Hw; exact Hi).
    rewrite Hw. split; [apply Hbound|].
    intros Heq. apply defaultName_inj in Heq; [|apply Hbound | exact Hi].
    revert Heq. apply (counter_moves i k Hi Hk).
Qed.

Lemma screenshot_names_never_repeat_witness :
  defaultName 7 = "screenshot_000007.png" /\
  defaultName 1234567 = "screenshot_1234567.png" /\
  defaultName 18446744073709551615 = "screenshot_18446744073709551615.png" /\
  screenshotInd (screenshot (set_screenshotInd 18446744073709551615 initWorld)) = 0%N /\
  defaultName (screenshotInd (screenshot initWorld)) <> defaultName 0.
Proof.
  destruct (screenshot_names_never_repeat 0 7) as (_ & _ & _ & _ & Hnext & _);
    [reflexivity..|].
  destruct (screenshot_names_never_repeat 18446744073709551615 7)
    as (_ & _ & _ & _ & Hwrap & _); [reflexivity..|].
  split; [reflexivity|]. split; [reflexivity|]. split; [reflexivity|].
  split.
  - apply (Hwrap (set_screenshotInd 18446744073709551615 initWorld)). reflexivity.
  - apply (Hnext initWorld). reflexivity.
Defined.

(** ** Frame pacing *)

Section Pacing.
Variable period : Z.
Hypothesis period_pos : 0 < period.

Lemma elapsed_mono last t t' :
  t <= t' -> elapsedMicrosec period last t <= elapsedMicrosec period last t'.
Proof. intros Ht. unfold elapsedMicrosec. apply Z.quot_le_mono; lia. Qed.

Lemma elapsed_nonneg last t : last <= t -> 0 <= elapsedMicrosec period last t.
Proof. intros Ht. unfold elapsedMicrosec. apply Z.quot_pos; lia. Qed.

Lemma waitLoop_late last limit currTime clock :
  limit <= elapsedMicrosec period last currTime ->
  waitLoop period last limit currTime clock = Some clock.
Proof.
  intros Hlate. apply Z.ltb_ge in Hlate. destruct clock; cbn [waitLoop]; rewrite Hlate; reflexivity.
Qed.

(** The wait ends no later than at the first reading that is late enough. *)
Lemma waitLoop_returns last limit t post : forall pre currTime,
  limit <= elapsedMicrosec period last t ->
  exists pre', waitLoop period last limit currTime (pre ++ t :: post) = Some (pre' ++ post).
Proof.
  intros pre currTime Hlate. revert currTime.
  induction pre as [|u pre IH]; intros currTime; cbn [app waitLoop];
    destruct (Z.ltb_spec (elapsedMicrosec period last currTime) limit) as [Hearly|Hnow].
  - exists []. apply waitLoop_late, Hlate.
  - exists [t]. reflexivity.
  - apply IH.
  - exists (u :: pre ++ [t]). cbn. rewrite <- app_assoc. reflexivity.
Qed.

(** When the wait is over enough time has passed, and the readings left are
    the later ones. *)
Lemma waitLoop_waited last limit clock : forall currTime rest,
  last <= currTime -> steady currTime clock ->
  waitLoop period last limit currTime clock = Some rest ->
  exists t, limit <= elapsedMicrosec period last t /\ last <= t /\ steady t rest.
Proof.
  induction clock as [|u clock IH]; intros currTime rest Hlast Hsteady; cbn [waitLoop];
    destruct (Z.ltb_spec (elapsedMicrosec period last currTime) limit) as [Hearly|Hnow];
    intros Hrun; try discriminate.
  - injection Hrun as <-. eauto.
  - destruct Hsteady as [Hu Hsteady]. apply (IH u rest); [lia | exact Hsteady | exact Hrun].
  - injection Hrun as <-. eauto.
Qed.
End Pacing.

Lemma microsecPerLoop_slack maxFPS limit :
  1 <= maxFPS -> microsecPerLoop maxFPS = Some limit ->
  0 <= limit /\ 100 * (limit * maxFPS) <= 95 * 1000000.
Proof.
  intros Hfps. unfold microsecPerLoop. rewrite decide_False by lia. intros [= <-].
  pose proof (Z.mul_div_le 1000000 maxFPS ltac:(lia)) as Hq.
  pose proof (Z.div_pos 1000000 maxFPS ltac:(lia) ltac:(lia)) as Hq0.
  rewrite (Z.quot_div_nonneg 1000000 maxFPS) by lia.
  rewrite (Z.quot_div_nonneg (95 * _) 100) by lia.
  pose proof (Z.mul_div_le (95 * (1000000 / maxFPS)) 100 ltac:(lia)) as Hl.
  pose proof (Z.div_pos (95 * (1000000 / maxFPS)) 100 ltac:(lia) ltac:(lia)) as Hl0.
  split; [exact Hl0 | nia].
Qed.

Lemma microsecPerLoop_no_wait maxFPS limit :
  1000000 < maxFPS \/ maxFPS < -1 -> microsecPerLoop maxFPS = Some limit -> limit <= 0.
Proof.
  intros Hfps. unfold microsecPerLoop. rewrite decide_False by lia. intros [= <-].
  destruct Hfps as [Hbig | Hneg].
  - rewrite (Z.quot_small 1000000 maxFPS) by lia. reflexivity.
  - assert (Hq : Z.quot 1000000 maxFPS <= 0).
    { rewrite <- (Z.opp_involutive maxFPS), Z.quot_opp_r by lia.
      pose proof (Z.quot_pos 1000000 (- maxFPS) ltac:(lia) ltac:(lia)). lia. }
    rewrite <- (Z.opp_involutive (95 * _)), Z.quot_opp_l by lia.
    pose proof (Z.quot_pos (- (95 * Z.quot 1000000 maxFPS)) 100 ltac:(lia) ltac:(lia)). lia.
Qed.

(** X15: Loop steps are kept apart: with a frame rate limit set, the step goes on
    as soon as the clock reads [microsecPerLoop] past the start of the step
    before, and no earlier, so that consecutive steps start at least that far
    apart. *)
Theorem frames_are_spaced (period maxFPS lastMainLoopIterTime limit : Z) (clock : list Z) :
  0 < period -> steady lastMainLoopIterTime clock ->
  maxFPS <> -1 -> microsecPerLoop maxFPS = Some limit ->
  (forall pre t t' post,
     clock = pre ++ t :: t' :: post ->
     limit <= elapsedMicrosec period lastMainLoopIterTime t ->
     exists now rest, paceFrame period maxFPS lastMainLoopIterTime clock = Some (now, rest)) /\
  (forall now rest,
     paceFrame period maxFPS lastMainLoopIterTime clock = Some (now, rest) ->
     limit <= elapsedMicrosec period lastMainLoopIterTime now /\ steady now rest).
Proof.
  intros Hperiod Hsteady Hfps Hlimit. unfold paceFrame.
  rewrite decide_True by exact Hfps. split.
  - intros pre t t' post -> Hlate.
    destruct pre as [|t0 pre]; cbn [app]; rewrite Hlimit; cbn [mbind option_bind].
    + rewrite waitLoop_late by exact Hlate. cbn. eauto.
    + destruct (waitLoop_returns period lastMainLoopIterTime limit t (t' :: post) pre t0 Hlate)
        as (pre' & ->).
      destruct pre'; cbn; eauto.
  - intros now rest Hrun. destruct clock as [|t0 clock]; [discriminate|].
    rewrite Hlimit in Hrun. cbn [mbind option_bind] in Hrun.
    destruct (waitLoop period lastMainLoopIterTime limit t0 clock) as [rest0|] eqn:Hwait;
      [|discriminate].
    cbn [mbind option_bind] in Hrun. destruct rest0 as [|now0 rest0]; [discriminate|].
    injection Hrun as -> ->.
    cbn in Hsteady. destruct Hsteady as [Ht0 Hsteady].
    destruct (waitLoop_waited period lastMainLoopIterTime limit clock t0 _
                Ht0 Hsteady Hwait) as (u & Hu & Hlast & Hnow & Hrest).
    split; [|exact Hrest].
    etransitivity; [exact Hu|]. apply elapsed_mono; assumption.
Qed.

(** X16: Without a limit ([maxFPS] is -1) the step does not look at the clock
    before it goes on; a limit of 0 divides by zero; a limit above a million
    or below -1 gives a waiting time that is not positive, so the step never
    waits; and a limit of [n >= 1] frames a second waits for at most 95% of
    a frame's time, whole microseconds rounded down twice. *)
Theorem frame_limit_edge_cases (period lastMainLoopIterTime : Z) (clock : list Z) :
  0 < period ->
  paceFrame period 0 lastMainLoopIterTime clock = None /\
  (forall now rest, clock = now :: rest ->
     paceFrame period (-1) lastMainLoopIterTime clock = Some (now, rest)) /\
  (forall maxFPS currTime now rest,
     1000000 < maxFPS \/ maxFPS < -1 ->
     clock = currTime :: now :: rest -> lastMainLoopIterTime <= currTime ->
     paceFrame period maxFPS lastMainLoopIterTime clock = Some (now, rest)) /\
  (forall maxFPS, 1 <= maxFPS ->
     exists limit, microsecPerLoop maxFPS = Some limit /\
                   0 <= limit /\ 100 * (limit * maxFPS) <= 95 * 1000000).
Proof.
  intros Hperiod. split; [|split; [|split]].
  - unfold paceFrame. rewrite decide_True by lia. destruct clock; reflexivity.
  - intros now rest ->. reflexivity.
  - intros maxFPS currTime now rest Hfps -> Hlast. unfold paceFrame.
    rewrite decide_True by lia.
    destruct (microsecPerLoop maxFPS) as [limit|] eqn:Hlimit.
    2:{ unfold microsecPerLoop in Hlimit. rewrite decide_False in Hlimit by lia. discriminate. }
    cbn [mbind option_bind].
    pose proof (microsecPerLoop_no_wait maxFPS limit Hfps Hlimit) as Hle.
    pose proof (elapsed_nonneg period Hperiod lastMainLoopIterTime currTime Hlast) as Hel.
    cbn [waitLoop]. rewrite (proj2 (Z.ltb_ge _ _)) by lia. reflexivity.
  - intros maxFPS Hfps.
    destruct (microsecPerLoop maxFPS) as [limit|] eqn:Hlimit.
    + exists limit. split; [reflexivity|]. apply microsecPerLoop_slack; assumption.
    + unfold microsecPerLoop in Hlimit. rewrite decide_False in Hlimit by lia. discriminate.
Qed.

Lemma frames_are_spaced_witness :
  paceFrame 1000 60 0 [5000000; 15832000; 15833000] = Some (15833000, []) /\
  15832 <= elapsedMicrosec 1000 0 15833000.
Proof.
  destruct (frames_are_spaced 1000 60 0 15832 [5000000; 15832000; 15833000])
    as [_ Hgap]; [lia | cbn; lia | lia | reflexivity |].
  split; [reflexivity|]. apply (Hgap 15833000 []). reflexivity.
Defined.

Lemma frame_limit_edge_cases_witness :
  paceFrame 1000 0 0 [1; 2] = None /\
  paceFrame 1000 (-1) 0 [1; 2] = Some (1, [2]) /\
  paceFrame 1000 2000000 0 [1; 2] = Some (2, []).
Proof.
  destruct (frame_limit_edge_cases 1000 0 [1; 2]) as (Hzero & Hoff & Hbig & _); [lia|].
  split; [exact Hzero|]. split; [apply Hoff; reflexivity|].
  apply (Hbig 2000000 1 2 []); [lia | reflexivity | lia].
Defined.

(** ** The cached window size *)

Lemma updateViewSize_current w : viewCurrent (updateViewSize w).
Proof.
  unfold viewCurrent, updateViewSize.
  destruct (negb _ || _ || _ || _) eqn:Hchanged; [reflexivity|].
  repeat (apply orb_false_elim in Hchanged as [Hchanged ?]).
  repeat match goal with
         | H : negb _ = false |- _ => apply negb_false_iff, Z.eqb_eq in H
         end.
  destruct (view w); cbn in *. congruence.
Qed.

Lemma viewCurrent_same w w' : view w' = view w -> frame w' = frame w -> viewCurrent w -> viewCurrent w'.
Proof. unfold viewCurrent. intros -> ->. auto. Qed.

Lemma updateStructureExtents_window w :
  view (updateStructureExtents w) = view w /\ frame (updateStructureExtents w) = frame w.
Proof.
  unfold updateStructureExtents.
  repeat match goal with
         | |- context [let '(_, _) := ?x in _] => destruct x
         end.
  cbn. auto.
Qed.

Lemma removeStructure_window ty nm b w :
  view (removeStructure ty nm b w) = view w /\ frame (removeStructure ty nm b w) = frame w.
Proof.
  unfold removeStructure.
  destruct (structures w !! ty) as [sMap|]; [|destruct b; auto].
  destruct (sMap !! nm) as [s|]; [|destruct b; auto].
  cbv zeta.
  match goal with
  | |- context [updateStructureExtents ?x] =>
      destruct (updateStructureExtents_window x) as [-> ->]
  end.
  cbn. unfold pick.clearPickIfStructureSelected. repeat case_match; auto.
Qed.

Lemma removeStructure_name_window nm w :
  view (removeStructure_name nm w) = view w /\ frame (removeStructure_name nm w) = frame w.
Proof.
  unfold removeStructure_name.
  destruct (scanTypes nm (entries (structures w)) None) as [msg|[t|]]; auto.
  cbn. apply removeStructure_window.
Qed.

Lemma removeAllStructures_window w :
  view (removeAllStructures w) = view w /\ frame (removeAllStructures w) = frame w.
Proof.
  unfold removeAllStructures. cbn.
  generalize (entries (structures w)).*1. intros tys. revert w.
  induction tys as [|ty tys IH]; intros w; cbn; [auto|].
  match goal with
  | |- view (foldl _ ?x _) = _ /\ _ => destruct (IH x) as [Hv Hf]
  end.
  assert (Hnames : forall names w0,
            view (foldl (fun w1 nm => removeStructure ty nm errorIfAbsent_default w1) w0 names)
            = view w0 /\
            frame (foldl (fun w1 nm => removeStructure ty nm errorIfAbsent_default w1) w0 names)
            = frame w0).
  { clear. induction names as [|nm names IHn]; intros w0; cbn; [auto|].
    destruct (IHn (removeStructure ty nm errorIfAbsent_default w0)) as [-> ->].
    apply removeStructure_window. }
  destruct (Hnames (entries (default ∅ (structures w !! ty))).*1 w) as [Hv' Hf'].
  split; (etransitivity; [eassumption | eassumption]).
Qed.

Lemma registerStructure_window s b w :
  view (registerStructure s b w).2 = view w /\ frame (registerStructure s b w).2 = frame w.
Proof.
  assert (Hinstall : forall w2 st,
            view (requestRedraw (updateStructureExtents (set_structures st w2))) = view w2 /\
            frame (requestRedraw (updateStructureExtents (set_structures st w2))) = frame w2).
  { intros w2 st. cbn.
    destruct (updateStructureExtents_window (set_structures st w2)) as [-> ->]. auto. }
  unfold registerStructure. cbv zeta.
  destruct (structures w !! type s) as [sMap|] eqn:Hty; cbv beta iota.
  - rewrite !Hty. cbn [default from_option id].
    destruct (sMap !! name s); [|apply Hinstall].
    destruct b; [|auto]. cbn [snd].
    destruct (Hinstall (removeStructure_name (name s) w)
                (<[type s:=<[name s:=s]> (default ∅ (structures (removeStructure_name (name s) w) !! type s))]>
                   (structures (removeStructure_name (name s) w)))) as [-> ->].
    apply removeStructure_name_window.
  - cbn [structures set_structures]. rewrite !lookup_insert_eq.
    cbn [default from_option id]. rewrite lookup_empty. cbn [snd].
    match goal with
    | |- context [updateStructureExtents (set_structures ?st ?w2)] =>
        destruct (Hinstall w2 st) as [-> ->]
    end. auto.
Qed.

Lemma popContext_window w w' :
  popContext w = Some w' -> view w' = view w /\ frame w' = frame w.
Proof.
  unfold popContext. intros H. apply bind_Some in H as (v & _ & H). injection H as <-.
  cbn. case_match; auto.
Qed.

Lemma drawScene_window w : view (drawScene w) = view w /\ frame (drawScene w) = frame w.
Proof. unfold drawScene. case_match; auto. Qed.

Lemma buildPolyscopeGui_window w :
  view (buildPolyscopeGui w) = view w /\ frame (buildPolyscopeGui w) = frame w.
Proof.
  unfold buildPolyscopeGui, screenshot. case_match; [|auto]. cbv zeta.
  unfold set_screenshotInd. cbn [view frame].
  destruct (drawScene_window (requestRedraw w)) as [-> ->]. auto.
Qed.

Lemma processMouseEvents_window w :
  view (processMouseEvents w) = view w /\ frame (processMouseEvents w) = frame w.
Proof. unfold processMouseEvents. mouse_cases. Qed.

Lemma beforeDraw_current w : viewCurrent (beforeDraw w).
Proof.
  unfold beforeDraw.
  eapply viewCurrent_same; [apply processMouseEvents_window.. | apply updateViewSize_current].
Qed.

Section WindowInvariant.
Variable push : option Callback -> World -> option World.
Hypothesis push_current : forall cb w w', viewCurrent w -> push cb w = Some w' -> viewCurrent w'.

Lemma runCallback_current cb : forall w w',
  viewCurrent w -> runCallback push cb w = Some w' -> viewCurrent w'.
Proof.
  induction cb as [|k IH|cb' k IH|k IH|s b k IH|ty nm b k IH|nm k IH|k IH|id body IHb k IH];
    intros w w' Hcur Hrun; cbn in Hrun.
  - injection Hrun as <-. exact Hcur.
  - apply bind_Some in Hrun as (w1 & Hpop & Hrun). eapply IH; [|exact Hrun].
    eapply viewCurrent_same; [apply (popContext_window _ _ Hpop).. | exact Hcur].
  - apply bind_Some in Hrun as (w1 & Hp & Hrun). eapply IH; [|exact Hrun]. eauto.
  - eapply IH; [|exact Hrun]. eapply viewCurrent_same; [| |exact Hcur]; reflexivity.
  - eapply IH; [|exact Hrun].
    eapply viewCurrent_same; [apply registerStructure_window.. | exact Hcur].
  - eapply IH; [|exact Hrun].
    eapply viewCurrent_same; [apply removeStructure_window.. | exact Hcur].
  - eapply IH; [|exact Hrun].
    eapply viewCurrent_same; [apply removeStructure_name_window.. | exact Hcur].
  - eapply IH; [|exact Hrun].
    eapply viewCurrent_same; [apply removeAllStructures_window.. | exact Hcur].
  - destruct (bool_decide (id ∈ clicked (frame w))).
    + apply bind_Some in Hrun as (w1 & Hbody & Hrun).
      eapply IH; [|exact Hrun]. eapply IHb; [exact Hcur | exact Hbody].
    + eapply IH; [exact Hcur | exact Hrun].
Qed.

Lemma draw_current w w' : viewCurrent w -> draw push true w = Some w' -> viewCurrent w'.
Proof.
  intros Hcur. unfold draw. intros Hdraw.
  apply bind_Some in Hdraw as (wg & Hgui & Hscene). injection Hscene as <-.
  eapply viewCurrent_same; [apply drawScene_window.. |].
  destruct (length (contextStack w) =? 1)%nat.
  - apply bind_Some in Hgui as (wu & Huser & Hgui). injection Hgui as <-.
    eapply viewCurrent_same; [apply buildPolyscopeGui_window.. |].
    unfold buildUserGui in Huser. destruct (userCallback w) as [cb|].
    + eapply runCallback_current; [exact Hcur | exact Huser].
    + injection Huser as <-. exact Hcur.
  - apply bind_Some in Hgui as (e & _ & Hgui). apply bind_Some in Hgui as (cb & _ & Hrun).
    eapply runCallback_current; [|exact Hrun].
    eapply viewCurrent_same; [| |exact Hcur]; reflexivity.
Qed.

Lemma mainLoopIterationG_current w w' : mainLoopIterationG push w = Some w' -> viewCurrent w'.
Proof. rewrite mainLoopIterationG_unfold. apply draw_current, beforeDraw_current. Qed.
End WindowInvariant.

Lemma pushLoop_current iter n size :
  (forall w w', iter w = Some w' -> viewCurrent w') ->
  forall w w', viewCurrent w -> pushLoop iter n size w = Some w' -> viewCurrent w'.
Proof.
  intros Hiter. induction n as [|n IH]; intros w w' Hcur Hloop; cbn in Hloop;
    destruct (size <=? length (contextStack w))%nat.
  - discriminate.
  - injection Hloop as <-. exact Hcur.
  - apply bind_Some in Hloop as (w1 & Hstep & Hloop). eapply IH; [|exact Hloop]. eauto.
  - injection Hloop as <-. exact Hcur.
Qed.

Lemma pushContextG_current iter n cb w w' :
  (forall w w', iter w = Some w' -> viewCurrent w') ->
  viewCurrent w -> pushContextG iter n cb w = Some w' -> viewCurrent w'.
Proof.
  intros Hiter Hcur Hpush. unfold pushContextG in Hpush.
  apply bind_Some in Hpush as (w1 & Hloop & Hrest).
  apply bind_Some in Hrest as (e & _ & Hw'). injection Hw' as <-.
  eapply viewCurrent_same; [| |eapply (pushLoop_current iter n _ Hiter); [|exact Hloop]];
    [reflexivity | reflexivity |].
  eapply viewCurrent_same; [| |exact Hcur]; reflexivity.
Qed.

(** X17: After a loop step the cached window and framebuffer sizes are those the
    window system reported to the step that polled last, whatever the state
    before and whatever the callbacks did, modal sessions included; and a
    modal session entered with the sizes up to date returns with them up to
    date. *)
Theorem view_is_current_after_iteration (fuel : nat) (w w' : World) :
  (mainLoopIteration fuel w = Some w' -> viewCurrent w') /\
  (forall cb, viewCurrent w -> pushContext fuel cb w = Some w' -> viewCurrent w').
Proof.
  assert (Hiter : forall fuel w w', mainLoopIteration fuel w = Some w' -> viewCurrent w').
  { clear. induction fuel as [|fuel IH]; intros w w' Hrun; [discriminate|].
    rewrite mainLoopIteration_S in Hrun.
    eapply mainLoopIterationG_current; [|exact Hrun].
    intros cb w1 w2 Hcur Hpush. eapply pushContextG_current; [exact IH | exact Hcur | exact Hpush]. }
  split; [apply Hiter|].
  intros cb Hcur Hpush. unfold pushContext in Hpush.
  eapply pushContextG_current; [apply Hiter | exact Hcur | exact Hpush].
Qed.

Lemma view_is_current_after_iteration_witness :
  let w := set_inputs [resizedFrame] initWorld in
  exists w', mainLoopIteration 1 w = Some w' /\ viewCurrent w' /\
             bufferWidth (view w) = 1280 /\ bufferWidth (view w') = 800.
Proof.
  intros w. eexists. split; [reflexivity|]. split.
  - apply (proj1 (view_is_current_after_iteration 1 w _)). reflexivity.
  - split; reflexivity.
Defined.

(** ** When the pick query is evaluated *)

Lemma evaluatePickQuery_dragDist x y w :
  dragDistSinceLastRelease (pick.evaluatePickQuery x y w) = dragDistSinceLastRelease w.
Proof.
  unfold pick.evaluatePickQuery, pick.setCurrentPickElement, pick.resetPick.
  repeat case_match; reflexivity.
Qed.

Lemma click_threshold_positive : SFltb (F64.of_float fzero) clickThreshold = true.
Proof. vm_compute. reflexivity. Qed.

(** X18: The pick query needs no click: it is evaluated in every frame in which
    the pointer is outside the GUI and no drag is going on, provided the
    drags since the last such frame add up to less than the threshold; such a
    frame resets the drag distance to zero, so that the frame after it
    evaluates the query again.  With the pointer over the GUI, or during a
    drag, the selection stays as it is (unless picks are always evaluated). *)
Theorem pick_query_needs_no_click (w : World) :
  let io := frame w in
  let dragging := mouseDragging io && negb (keyCtrl io && negb (keyShift io)) in
  (wantCaptureMouse io = false -> dragging = false ->
   dragDistSinceLastRelease (processMouseEvents w) = fzero /\
   (SFltb (F64.of_float (dragDistSinceLastRelease w)) clickThreshold = true ->
    exists wq,
      processMouseEvents w = pick.evaluatePickQuery (pointerX io) (pointerY io) wq /\
      view wq = view w /\ frame wq = io /\ pickTable wq = pickTable w /\
      lastClickWasDouble wq
      = (if mouseClicked io then mouseDoubleClicked io else lastClickWasDouble w))) /\
  (alwaysEvaluatePick w = false -> wantCaptureMouse io = true \/ dragging = true ->
   pickState (processMouseEvents w) = pickState w) /\
  (wantCaptureMouse io = true ->
   dragDistSinceLastRelease (processMouseEvents w) = dragDistSinceLastRelease w) /\
  SFltb (F64.of_float fzero) clickThreshold = true.
Proof.
  intros io dragging. subst io dragging. split; [|split; [|split]].
  - intros Hcap Hdrag. split.
    + unfold processMouseEvents. rewrite Hcap, Hdrag. cbn [negb andb].
      repeat case_match; simplify_eq; rewrite ?evaluatePickQuery_dragDist; reflexivity.
    + intros Hsmall. unfold processMouseEvents. rewrite Hcap, Hdrag. cbn [negb andb].
      destruct (alwaysEvaluatePick w) eqn:Halways, (anyMouseDown (frame w)),
        (negb (SFeqb (mouseWheelH (frame w)) fzero) || negb (SFeqb (mouseWheel (frame w)) fzero)),
        (mouseClicked (frame w)); cbn; rewrite ?Halways; cbn; rewrite Hsmall;
        (eexists; split; [reflexivity|]; cbn; auto 10).
  - intros Halways Hcase. unfold processMouseEvents.
    destruct (wantCaptureMouse (frame w)) eqn:Hcap; cbn [negb andb].
    + destruct (anyMouseDown (frame w)), (mouseClicked (frame w)); cbn; rewrite Halways;
        reflexivity.
    + destruct Hcase as [Hcase | Hdrag]; [discriminate|]. rewrite Hdrag.
      destruct (anyMouseDown (frame w)),
        (negb (SFeqb (mouseWheelH (frame w)) fzero) || negb (SFeqb (mouseWheel (frame w)) fzero)),
        (mouseClicked (frame w)); cbn; rewrite Halways; reflexivity.
  - intros Hcap. unfold processMouseEvents. rewrite Hcap. cbn [negb andb].
    repeat case_match; simplify_eq; rewrite ?evaluatePickQuery_dragDist; reflexivity.
  - apply click_threshold_positive.
Qed.

Lemma pick_query_needs_no_click_witness :
  let w := set_frame hoverFrame initWorld in
  mouseClicked (frame w) = false /\
  dragDistSinceLastRelease (processMouseEvents w) = fzero /\
  exists wq, processMouseEvents w = pick.evaluatePickQuery 5 5 wq /\ view wq = view w.
Proof.
  intros w. destruct (pick_query_needs_no_click w) as (Hhover & _).
  destruct Hhover as [Hzero Hquery]; [reflexivity | reflexivity |].
  destruct Hquery as (wq & Heq & Hview & _); [vm_compute; reflexivity|].
  split; [reflexivity|]. split; [exact Hzero|]. exists wq. split; [exact Heq | exact Hview].
Defined.
